(** * Colour remapping of decoded GIF frames (src/App.tsx)

    A shallow embedding of the frame colour-remapping core of the GIF viewer:
    colour keys and hex parsing, palette extraction, the mapping table and its
    handlers, and [remapFramesColors].  Numbers are integers ([Z] for colour
    components, [nat] for palette indices and array positions); a
    [Uint8ClampedArray] is a list of integers that are clamped to 0..255 when
    written; a [TypeError] raised by reading a component of [undefined] is an
    explicit result. *)

From Stdlib Require Import Ascii String ZArith Lia.
From stdpp Require Import base numbers option list strings pretty gmap sorting.

#[local] Set Warnings "-clear-no-such-hyp".

Local Open Scope Z_scope.

(** ** Results of code that can throw *)

Inductive exn := TypeError.

Inductive result (A : Type) :=
  | Ok (a : A)
  | Throw (e : exn).
Arguments Ok {A} a.
Arguments Throw {A} e.

Definition result_bind {A B} (f : A → result B) (r : result A) : result B :=
  match r with
  | Ok a => f a
  | Throw e => Throw e
  end.

#[global] Instance result_mret : MRet result := @Ok.
#[global] Instance result_mbind : MBind result := @result_bind.

(** [xs.forEach(f)] where the callback updates a local accumulator and may
    throw: the first exception leaves the loop. *)
Fixpoint forEachM {A S} (f : S → A → result S) (l : list A) (s : S) : result S :=
  match l with
  | [] => Ok s
  | x :: l' => s' ← f s x; forEachM f l' s'
  end.

(** ** Data model *)

(** [[number, number, number]] *)
Abbreviation RGB := (Z * Z * Z)%type.

Record Dims := mkDims {
  width : Z;
  height : Z;
  top : Z;
  left : Z
}.

Record GifFrame := mkFrame {
  dims : Dims;
  delay : Z;
  disposalType : Z;
  patch : list Z;                  (* Uint8ClampedArray *)
  pixels : list nat;               (* palette indices *)
  transparentIndex : option nat;   (* transparentIndex?: number *)
  colorTable : list RGB
}.

Record ColorCount := mkColorCount {
  color : string;
  count : nat;
  rgb : RGB
}.

Record ColorMapping := mkMapping {
  originalColor : string;
  originalRgb : RGB;
  newColor : string;
  newRgb : RGB
}.

#[global] Instance Dims_eq_dec : EqDecision Dims.
Proof. solve_decision. Defined.
#[global] Instance GifFrame_eq_dec : EqDecision GifFrame.
Proof. solve_decision. Defined.
#[global] Instance ColorCount_eq_dec : EqDecision ColorCount.
Proof. solve_decision. Defined.
#[global] Instance ColorMapping_eq_dec : EqDecision ColorMapping.
Proof. solve_decision. Defined.

(** ** Colour keys *)

(** The template literal [`rgb(${rgb[0]},${rgb[1]},${rgb[2]})`] used by both
    [extractColorPalette] and [remapFramesColors]. *)
Definition colorKeyOf (c : RGB) : string :=
  let '(r, g, b) := c in
  "rgb(" +:+ pretty r +:+ "," +:+ pretty g +:+ "," +:+ pretty b +:+ ")".

(** [pixelIndex === frame.transparentIndex]: never true when the frame has no
    transparent index. *)
Definition isTransparent (frame : GifFrame) (pixelIndex : nat) : bool :=
  bool_decide (transparentIndex frame = Some pixelIndex).

(** ** remapFramesColors *)

(** [mappings.find((m) => m.originalColor === originalColorKey)] *)
Definition findMapping (mappings : list ColorMapping) (key : string)
  : option ColorMapping :=
  find (λ m, bool_decide (originalColor m = key)) mappings.

(** Body of the [frame.pixels.forEach] callback.  [frame.colorTable[pixelIndex]]
    is [undefined] when the index has no entry, and reading [originalRgb[0]]
    then throws.  The assignment [newColorTable[pixelIndex] = ...] is reached
    only with an index that [frame.colorTable] has, and [newColorTable] keeps
    the length of [frame.colorTable], so it never extends the array. *)
Definition remapPixel (mappings : list ColorMapping) (frame : GifFrame)
    (newColorTable : list RGB) (pixelIndex : nat) : result (list RGB) :=
  if isTransparent frame pixelIndex then Ok newColorTable
  else
    match colorTable frame !! pixelIndex with
    | None => Throw TypeError
    | Some originalRgb =>
        let originalColorKey := colorKeyOf originalRgb in
        match findMapping mappings originalColorKey with
        | Some mapping => Ok (<[pixelIndex := newRgb mapping]> newColorTable)
        | None => Ok newColorTable
        end
    end.

(** Storing a number into a [Uint8ClampedArray]. *)
Definition clamp8 (v : Z) : Z := Z.max 0 (Z.min 255 v).

(** One iteration of the [for (let i = 0; i < totalPixels; i++)] loop. *)
Definition writePixel (frame : GifFrame) (newColorTable : list RGB)
    (newPatch : list Z) (i : nat) : list Z :=
  let pos := (i * 4)%nat in
  match pixels frame !! i with
  | None => newPatch (* not reached: i < totalPixels *)
  | Some colorIndex =>
      let '(r, g, b) := default (0, 0, 0) (newColorTable !! colorIndex) in
      let alpha := if isTransparent frame colorIndex then 0 else 255 in
      <[(pos + 3)%nat := clamp8 alpha]>
        (<[(pos + 2)%nat := clamp8 b]>
          (<[(pos + 1)%nat := clamp8 g]>
            (<[pos := clamp8 r]> newPatch)))
  end.

Definition regeneratePatch (frame : GifFrame) (newColorTable : list RGB)
  : list Z :=
  let totalPixels := length (pixels frame) in
  let newPatch := replicate (totalPixels * 4) 0 in
  foldl (writePixel frame newColorTable) newPatch (seq 0 totalPixels).

(** The callback of [originalFrames.map]. *)
Definition remapFrame (mappings : list ColorMapping) (frame : GifFrame)
  : result GifFrame :=
  newColorTable ← forEachM (remapPixel mappings frame) (pixels frame)
                    (colorTable frame);
  let newPatch := regeneratePatch frame newColorTable in
  Ok {| dims := dims frame;
        delay := delay frame;
        disposalType := disposalType frame;
        patch := newPatch;
        pixels := pixels frame;
        transparentIndex := transparentIndex frame;
        colorTable := newColorTable |}.

(** [originalFrames.map(f)] where [f] may throw. *)
Fixpoint arrayMapM {A B} (f : A → result B) (l : list A) : result (list B) :=
  match l with
  | [] => Ok []
  | x :: l' => y ← f x; ys ← arrayMapM f l'; Ok (y :: ys)
  end.

Definition remapFramesColors (originalFrames : list GifFrame)
    (mappings : list ColorMapping) : result (list GifFrame) :=
  if bool_decide (length mappings = 0%nat) then Ok originalFrames
  else arrayMapM (remapFrame mappings) originalFrames.

(** ** Hex colours *)

(** The character class [[a-f\d]] under the [i] flag. *)
Definition isHexDigit (c : ascii) : bool :=
  let n := N_of_ascii c in
  ((48 <=? n) && (n <=? 57) || (97 <=? n) && (n <=? 102)
   || (65 <=? n) && (n <=? 70))%N.

Fixpoint allHex (s : string) : bool :=
  match s with
  | EmptyString => true
  | String c s' => isHexDigit c && allHex s'
  end.

(** [hex.startsWith("#")] *)
Definition startsWithHash (s : string) : bool :=
  match s with
  | String c _ => Ascii.eqb c "#"
  | EmptyString => false
  end.

(** An optional leading [#] of a pattern [^#?body$]: the body is tried after
    the [#] and, failing that, from the start. *)
Definition optHash {A} (body : string → option A) (s : string) : option A :=
  match s with
  | String c rest =>
      if Ascii.eqb c "#" then
        match body rest with
        | Some x => Some x
        | None => body s
        end
      else body s
  | EmptyString => body s
  end.

(** [([a-f\d]{3}|[a-f\d]{6})$] *)
Definition hexBody3or6 (s : string) : option unit :=
  if allHex s && ((String.length s =? 3)%nat || (String.length s =? 6)%nat)
  then Some () else None.

(** [/^#?([a-f\d]{3}|[a-f\d]{6})$/i.test(color)] *)
Definition hexRegex_test (color : string) : bool :=
  bool_decide (is_Some (optHash hexBody3or6 color)).

(** [`#${color}`] or the string itself. *)
Definition withHash (s : string) : string :=
  if startsWithHash s then s else String "#"%char s.

Definition validateHexColor (color : string) : option string :=
  if negb (hexRegex_test color) then None
  else
    let formattedColor := withHash color in
    if (String.length formattedColor =? 4)%nat then
      match String.get 1 formattedColor, String.get 2 formattedColor,
            String.get 3 formattedColor with
      | Some r, Some g, Some b =>
          Some (String "#"%char
                 (String r (String r (String g (String g (String b
                   (String b EmptyString)))))))
      | _, _, _ => None (* not reached: the string has four characters *)
      end
    else Some formattedColor.

(** Value of one hexadecimal digit, as [parseInt(_, 16)] reads it. *)
Definition hexDigitValue (c : ascii) : Z :=
  let n := Z.of_N (N_of_ascii c) in
  if (48 <=? n) && (n <=? 57) then n - 48
  else if (97 <=? n) && (n <=? 102) then n - 87
  else n - 55.

(** [parseInt(s, 16)] on a string of two hexadecimal digits. *)
Definition parseInt16 (hi lo : ascii) : Z :=
  16 * hexDigitValue hi + hexDigitValue lo.

(** [([a-f\d])([a-f\d])([a-f\d])$] *)
Definition hexBody3 (s : string) : option (ascii * ascii * ascii) :=
  match s with
  | String r (String g (String b EmptyString)) =>
      if isHexDigit r && isHexDigit g && isHexDigit b
      then Some (r, g, b) else None
  | _ => None
  end.

(** [([a-f\d]{2})([a-f\d]{2})([a-f\d]{2})$] *)
Definition hexBody6 (s : string)
  : option ((ascii * ascii) * (ascii * ascii) * (ascii * ascii)) :=
  match s with
  | String r1 (String r2 (String g1 (String g2 (String b1
      (String b2 EmptyString))))) =>
      if allHex s then Some ((r1, r2), (g1, g2), (b1, b2)) else None
  | _ => None
  end.

Definition hexToRgb (hex : string) : RGB :=
  let formattedHex := withHash hex in
  if (String.length formattedHex =? 4)%nat then
    match optHash hexBody3 formattedHex with
    | Some (r, g, b) => (parseInt16 r r, parseInt16 g g, parseInt16 b b)
    | None => (0, 0, 0)
    end
  else
    match optHash hexBody6 formattedHex with
    | Some ((r1, r2), (g1, g2), (b1, b2)) =>
        (parseInt16 r1 r2, parseInt16 g1 g2, parseInt16 b1 b2)
    | None => (0, 0, 0)
    end.

(** ** extractColorPalette *)

(** [Map<string, { count, rgb }>]: a JavaScript [Map] keeps its keys in the
    order of their first insertion, which [Array.from(colorMap.entries())]
    exposes. *)
Definition ColorMap : Type := list (string * (nat * RGB)).

Fixpoint colorMap_get (colorMap : ColorMap) (key : string)
  : option (nat * RGB) :=
  match colorMap with
  | [] => None
  | (k, v) :: rest => if bool_decide (k = key) then Some v
                      else colorMap_get rest key
  end.

(** [colorMap.set(key, v)]: an existing key keeps its place. *)
Fixpoint colorMap_set (colorMap : ColorMap) (key : string) (v : nat * RGB)
  : ColorMap :=
  match colorMap with
  | [] => [(key, v)]
  | (k, v0) :: rest =>
      if bool_decide (k = key) then (k, v) :: rest
      else (k, v0) :: colorMap_set rest key v
  end.

(** Body of the inner [pixels.forEach] callback. *)
Definition countPixel (frame : GifFrame) (colorMap : ColorMap)
    (pixelIndex : nat) : result ColorMap :=
  if isTransparent frame pixelIndex then Ok colorMap
  else
    match colorTable frame !! pixelIndex with
    | None => Throw TypeError
    | Some rgb =>
        let colorKey := colorKeyOf rgb in
        match colorMap_get colorMap colorKey with
        | Some current =>
            Ok (colorMap_set colorMap colorKey ((current.1 + 1)%nat, rgb))
        | None => Ok (colorMap_set colorMap colorKey (1%nat, rgb))
        end
    end.

(** [.sort((a, b) => b.count - a.count)]: [Array.prototype.sort] is stable, so
    an element is placed before the first one whose count does not exceed
    its own. *)
Fixpoint insertByCount (a : ColorCount) (sorted : list ColorCount)
  : list ColorCount :=
  match sorted with
  | [] => [a]
  | b :: rest =>
      if (count b <=? count a)%nat then a :: b :: rest
      else b :: insertByCount a rest
  end.

Definition sortByCountDesc (l : list ColorCount) : list ColorCount :=
  foldr insertByCount [] l.

Definition colorMap_entries (colorMap : ColorMap) : list ColorCount :=
  map (λ e, {| color := e.1; count := e.2.1; rgb := e.2.2 |}) colorMap.

(** The palette handed to [setColorPalette]. *)
Definition extractColorPalette (gifFrames : list GifFrame)
  : result (list ColorCount) :=
  colorMap ← forEachM
    (λ colorMap frame, forEachM (countPixel frame) (pixels frame) colorMap)
    gifFrames [];
  Ok (sortByCountDesc (colorMap_entries colorMap)).

(** ** Component state and handlers *)

(** The fields of the component that the colour-remapping handlers read or
    write, and the warnings sent to [console.warn]. *)
Record AppState := mkState {
  frames : list GifFrame;
  error : option string;
  colorPalette : list ColorCount;
  colorMappings : list ColorMapping;
  selectedColor : option ColorCount;
  remappedFrames : list GifFrame;
  warnings : list string
}.

Definition setFrames (v : list GifFrame) (st : AppState) : AppState :=
  mkState v (error st) (colorPalette st) (colorMappings st)
    (selectedColor st) (remappedFrames st) (warnings st).
Definition setError (v : option string) (st : AppState) : AppState :=
  mkState (frames st) v (colorPalette st) (colorMappings st)
    (selectedColor st) (remappedFrames st) (warnings st).
Definition setColorPalette (v : list ColorCount) (st : AppState) : AppState :=
  mkState (frames st) (error st) v (colorMappings st)
    (selectedColor st) (remappedFrames st) (warnings st).
Definition setColorMappings (v : list ColorMapping) (st : AppState)
  : AppState :=
  mkState (frames st) (error st) (colorPalette st) v
    (selectedColor st) (remappedFrames st) (warnings st).
Definition setSelectedColor (v : option ColorCount) (st : AppState)
  : AppState :=
  mkState (frames st) (error st) (colorPalette st) (colorMappings st)
    v (remappedFrames st) (warnings st).
Definition setRemappedFrames (v : list GifFrame) (st : AppState) : AppState :=
  mkState (frames st) (error st) (colorPalette st) (colorMappings st)
    (selectedColor st) v (warnings st).
(** [console.warn("Invalid hex color:", newColor)] *)
Definition consoleWarn (newColor : string) (st : AppState) : AppState :=
  mkState (frames st) (error st) (colorPalette st) (colorMappings st)
    (selectedColor st) (remappedFrames st) (warnings st ++ [newColor]).

(** What a handler leaves behind: the state with the updates it queued, and
    the exception that left it, if any. *)
Record outcome := mkOutcome {
  after : AppState;
  thrown : option exn
}.

Definition returned (st : AppState) : outcome := mkOutcome st None.
Definition threw (e : exn) (st : AppState) : outcome := mkOutcome st (Some e).

Definition handleColorSelect (st : AppState) (colorInfo : ColorCount)
  : AppState :=
  let st1 := setSelectedColor (Some colorInfo) st in
  let existingMapping :=
    find (λ mapping, bool_decide (originalColor mapping = color colorInfo))
      (colorMappings st) in
  match existingMapping with
  | Some _ => st1
  | None =>
      let newMapping :=
        {| originalColor := color colorInfo;
           originalRgb := rgb colorInfo;
           newColor := color colorInfo;
           newRgb := rgb colorInfo |} in
      setColorMappings (colorMappings st ++ [newMapping]) st1
  end.

(** The tail shared by [updateColorMapping] and [removeColorMapping]:
    [if (frames.length > 0) setRemappedFrames(remapFramesColors(...))]. *)
Definition applyMappings (updatedMappings : list ColorMapping)
    (st : AppState) : outcome :=
  if (0 <? length (frames st))%nat then
    match remapFramesColors (frames st) updatedMappings with
    | Ok newRemappedFrames => returned (setRemappedFrames newRemappedFrames st)
    | Throw e => threw e st
    end
  else returned st.

Definition updateColorMapping (st : AppState) (newColor : string) : outcome :=
  match selectedColor st with
  | None => returned st
  | Some selected =>
      match validateHexColor newColor with
      | None => returned (consoleWarn newColor st)
      | Some validatedColor =>
          let newRgb' := hexToRgb validatedColor in
          let updatedMappings :=
            map (λ mapping,
                   if bool_decide (originalColor mapping = color selected)
                   then {| originalColor := originalColor mapping;
                           originalRgb := originalRgb mapping;
                           newColor := validatedColor;
                           newRgb := newRgb' |}
                   else mapping)
                (colorMappings st) in
          applyMappings updatedMappings (setColorMappings updatedMappings st)
      end
  end.

Definition removeColorMapping (st : AppState) (originalColor' : string)
  : outcome :=
  let updatedMappings :=
    filter (λ mapping, originalColor mapping ≠ originalColor')
      (colorMappings st) in
  let st1 := setColorMappings updatedMappings st in
  let st2 :=
    match selectedColor st with
    | Some selected =>
        if bool_decide (color selected = originalColor')
        then setSelectedColor None st1 else st1
    | None => st1
    end in
  applyMappings updatedMappings st2.

(** The copies made on load and by "Reset All":
    [{...frame, colorTable: [...frame.colorTable],
      patch: new Uint8ClampedArray(frame.patch)}]. *)
Definition copyFrame (frame : GifFrame) : GifFrame :=
  {| dims := dims frame;
     delay := delay frame;
     disposalType := disposalType frame;
     patch := patch frame;
     pixels := pixels frame;
     transparentIndex := transparentIndex frame;
     colorTable := colorTable frame |}.

(** The [onClick] of "Reset All". *)
Definition resetAll (st : AppState) : AppState :=
  setRemappedFrames (map copyFrame (frames st)) (setColorMappings [] st).

(** [parseGifFile] after the decoder has run: [decoded] is [None] when
    [parseGIF] or [decompressFrames] threw.  An exception of
    [extractColorPalette] is caught by the same [catch]; the updates queued
    before it stay. *)
Definition parseGifFile (st : AppState)
    (decoded : option (list GifFrame)) : AppState :=
  let st0 := setError None st in
  match decoded with
  | None => setError (Some "Failed to parse GIF file") st0
  | Some parsedFrames =>
      let st1 := setFrames parsedFrames st0 in
      let st2 := setSelectedColor None (setColorMappings [] st1) in
      let st3 := setRemappedFrames (map copyFrame parsedFrames) st2 in
      match extractColorPalette parsedFrames with
      | Ok sortedColors => setColorPalette sortedColors st3
      | Throw _ => setError (Some "Failed to parse GIF file") st3
      end
  end.

(** User events on the component. *)
Inductive event :=
  | Load (decoded : option (list GifFrame))
  | Select (colorInfo : ColorCount)
  | Update (newColor : string)
  | Remove (originalColor' : string)
  | Reset.

(** An exception leaving an event handler is reported by the framework; the
    component keeps running with the updates queued before it. *)
Definition step (st : AppState) (ev : event) : AppState :=
  match ev with
  | Load decoded => parseGifFile st decoded
  | Select colorInfo => handleColorSelect st colorInfo
  | Update newColor => after (updateColorMapping st newColor)
  | Remove originalColor' => after (removeColorMapping st originalColor')
  | Reset => resetAll st
  end.

Definition run (st : AppState) (evs : list event) : AppState :=
  foldl step st evs.

(** The component as first rendered. *)
Definition initialState : AppState :=
  mkState [] None [] [] None [] [].

(** * Vocabulary of the properties

    Predicates and functions the statements below are written with, and the
    concrete frames, mappings and events they are tried on. *)

(** ** Frames and patches *)

(** A pixel index the [forEach] callbacks can process: it is the transparent
    index, or the frame's colour table has an entry for it. *)
Definition indexOk (frame : GifFrame) (pixelIndex : nat) : Prop :=
  isTransparent frame pixelIndex = false →
  is_Some (colorTable frame !! pixelIndex).

(** Every pixel of the frame has such an index. *)
Definition validPixels (frame : GifFrame) : Prop :=
  Forall (indexOk frame) (pixels frame).

#[global] Instance indexOk_dec frame pixelIndex :
  Decision (indexOk frame pixelIndex).
Proof. unfold indexOk. apply _. Defined.

#[global] Instance validPixels_dec frame : Decision (validPixels frame).
Proof. unfold validPixels. apply _. Defined.

(** The colour a mapping list sends a colour to. *)
Definition remapColor (mappings : list ColorMapping) (c : RGB) : RGB :=
  match findMapping mappings (colorKeyOf c) with
  | Some mapping => newRgb mapping
  | None => c
  end.

(** The colour-table slot [idx] once the pixels [seen] have been visited. *)
Definition slotAfter (mappings : list ColorMapping) (frame : GifFrame)
    (seen : list nat) (idx : nat) : option RGB :=
  if bool_decide (idx ∈ seen ∧ isTransparent frame idx = false)
  then remapColor mappings <$> colorTable frame !! idx
  else colorTable frame !! idx.

(** The four bytes the loop writes for a pixel with palette index
    [colorIndex]. *)
Definition pixelBytes (frame : GifFrame) (newColorTable : list RGB)
    (colorIndex : nat) : list Z :=
  let '(r, g, b) := default (0, 0, 0) (newColorTable !! colorIndex) in
  [clamp8 r; clamp8 g; clamp8 b;
   if isTransparent frame colorIndex then 0 else 255].

(** The four bytes of pixel [i] in an RGBA buffer. *)
Definition patchPixel (buffer : list Z) (i : nat) : list Z :=
  take 4 (drop (4 * i) buffer).


(** ** Concrete frames and mappings *)

(** The 2×2 frame of the remap-correctness scenario: colour table
    [[255,0,0],[0,255,0]], pixels [0,0,1,1], no transparent index; the other
    fields are left open. *)
Definition scenarioFrame (d : Dims) (delay' disposal : Z) (patch' : list Z)
  : GifFrame :=
  {| dims := d; delay := delay'; disposalType := disposal; patch := patch';
     pixels := [0; 0; 1; 1]%nat; transparentIndex := None;
     colorTable := [(255, 0, 0); (0, 255, 0)] |}.

(** The patch of the scenario frame as the decoder builds it. *)
Definition scenarioPatch : list Z :=
  [255; 0; 0; 255; 255; 0; 0; 255; 0; 255; 0; 255; 0; 255; 0; 255].

(** The mapping [rgb(255,0,0) → #0000ff] as [handleColorSelect] followed by
    [updateColorMapping] builds it. *)
Definition redToBlue : ColorMapping :=
  {| originalColor := "rgb(255,0,0)"; originalRgb := (255, 0, 0);
     newColor := "#0000ff"; newRgb := hexToRgb "#0000ff" |}.

(** The mapping [rgb(0,255,0) → #ff0000]. *)
Definition greenToRed : ColorMapping :=
  {| originalColor := "rgb(0,255,0)"; originalRgb := (0, 255, 0);
     newColor := "#ff0000"; newRgb := hexToRgb "#ff0000" |}.

(** What [remapFrame] computes anew for an output frame: its colour table
    (each slot used by a non-transparent pixel remapped from the original
    entry) and its patch (regenerated from that table). *)
Definition recomputed (mappings : list ColorMapping)
    (frame frame' : GifFrame) : Prop :=
  (∀ idx, colorTable frame' !! idx
          = slotAfter mappings frame (pixels frame) idx) ∧
  patch frame' = regeneratePatch frame (colorTable frame').

(** The fields [remapFrame] copies from the input frame. *)
Definition passedThrough (frame frame' : GifFrame) : Prop :=
  dims frame' = dims frame ∧
  delay frame' = delay frame ∧
  disposalType frame' = disposalType frame ∧
  transparentIndex frame' = transparentIndex frame ∧
  pixels frame' = pixels frame.

(** A two-pixel frame whose first pixel has the transparent index. *)
Definition transparentFrame : GifFrame :=
  {| dims := mkDims 2 1 0 0; delay := 100; disposalType := 1;
     patch := [255; 0; 0; 0; 0; 255; 0; 255];
     pixels := [0; 1]%nat; transparentIndex := Some 0%nat;
     colorTable := [(255, 0, 0); (0, 255, 0)] |}.

(** ** Palettes *)

(** The colours of the pixels of a frame whose index is not the frame's
    transparent index, each looked up in the frame's own colour table. *)
Definition visibleColors (frame : GifFrame) : list RGB :=
  omap (λ pixelIndex,
          if isTransparent frame pixelIndex then None
          else colorTable frame !! pixelIndex)
       (pixels frame).

(** Their colour keys, over all frames. *)
Definition visibleKeys (gifFrames : list GifFrame) : list string :=
  colorKeyOf <$> (gifFrames ≫= visibleColors).

(** Number of occurrences of a key in a list of keys. *)
Definition occurrences (key : string) (keys : list string) : nat :=
  length (filter (λ k, k = key) keys).

(** What [countPixel] does to the map for a visible colour. *)
Definition countColor (colorMap : ColorMap) (c : RGB) : ColorMap :=
  match colorMap_get colorMap (colorKeyOf c) with
  | Some current =>
      colorMap_set colorMap (colorKeyOf c) ((current.1 + 1)%nat, c)
  | None => colorMap_set colorMap (colorKeyOf c) (1%nat, c)
  end.

(** The order of the sorted palette: [a] may come before [b]. *)
Definition descending (a b : ColorCount) : Prop := (count b ≤ count a)%nat.

(** The state of the map once the visible colours [cs] have been counted. *)
Definition counted (cs : list RGB) (colorMap : ColorMap) : Prop :=
  NoDup colorMap.*1 ∧
  ∀ key,
    fst <$> colorMap_get colorMap key
    = (if decide (occurrences key (colorKeyOf <$> cs) = 0%nat) then None
       else Some (occurrences key (colorKeyOf <$> cs))) ∧
    ∀ v, colorMap_get colorMap key = Some v → colorKeyOf v.2 = key.

(** A one-pixel frame whose only pixel has index 1 while the colour table has
    the single entry 0, with the patch the decoder builds for it. *)
Definition strayFrame : GifFrame :=
  {| dims := mkDims 1 1 0 0; delay := 100; disposalType := 0;
     patch := [0; 0; 0; 255];
     pixels := [1%nat]; transparentIndex := None;
     colorTable := [(255, 0, 0)] |}.

(** A frame whose second pixel has index 5, which is the transparent index
    and has no colour-table entry. *)
Definition holeFrame : GifFrame :=
  {| dims := mkDims 2 1 0 0; delay := 100; disposalType := 0;
     patch := [255; 0; 0; 255; 0; 0; 0; 0];
     pixels := [0; 5]%nat; transparentIndex := Some 5%nat;
     colorTable := [(255, 0, 0)] |}.

(** ** Mapping tables *)

(** The [originalColor] of every entry, in table order. *)
Definition mappingKeys (mappings : list ColorMapping) : list string :=
  originalColor <$> mappings.

(** The placeholder entry [handleColorSelect] appends. *)
Definition selfMapping (colorInfo : ColorCount) : ColorMapping :=
  {| originalColor := color colorInfo; originalRgb := rgb colorInfo;
     newColor := color colorInfo; newRgb := rgb colorInfo |}.

(** The palette entries of the scenario frame. *)
Definition redEntry : ColorCount :=
  {| color := "rgb(255,0,0)"; count := 2; rgb := (255, 0, 0) |}.

Definition greenEntry : ColorCount :=
  {| color := "rgb(0,255,0)"; count := 2; rgb := (0, 255, 0) |}.

(** ** Hex strings *)

(** The hexadecimal digits, in either case. *)
Definition hexDigits : list ascii :=
  list_ascii_of_string "0123456789abcdefABCDEF".

(** A sequence of exactly 3 or 6 hex digits. *)
Definition hexDigitString (digits : string) : Prop :=
  Forall (λ c, c ∈ hexDigits) (list_ascii_of_string digits) ∧
  (String.length digits = 3%nat ∨ String.length digits = 6%nat).

(** [s] is [digits] with an optional leading [#]. *)
Definition hexForm (s digits : string) : Prop :=
  (s = digits ∨ s = String "#" digits) ∧ hexDigitString digits.

(** Every character written twice. *)
Fixpoint doubled (s : string) : string :=
  match s with
  | EmptyString => EmptyString
  | String c rest => String c (String c (doubled rest))
  end.

(** The [#]-prefixed 6-digit form: the digits of a 3-digit string are each
    written twice, those of a 6-digit string are kept. *)
Definition normalizedHex (digits : string) : string :=
  String "#" (if (String.length digits =? 3)%nat then doubled digits
              else digits).

(** What [updateColorMapping] does to one entry of the table. *)
Definition retarget (key validatedColor : string) (mapping : ColorMapping)
  : ColorMapping :=
  if bool_decide (originalColor mapping = key)
  then {| originalColor := originalColor mapping;
          originalRgb := originalRgb mapping;
          newColor := validatedColor;
          newRgb := hexToRgb validatedColor |}
  else mapping.

(** The component after loading the scenario frame and selecting its red
    palette entry. *)
Definition selectedRed : AppState :=
  run initialState
    [Load (Some [scenarioFrame (mkDims 2 2 0 0) 100 1 scenarioPatch]);
     Select redEntry].

(** ** Characters of colour keys *)

(** [c] is a character of [s]. *)
Fixpoint occursIn (c : ascii) (s : string) : Prop :=
  match s with
  | EmptyString => False
  | String c' rest => c = c' ∨ occursIn c rest
  end.

(** The characters of a printed integer. *)
Definition numeralChar (c : ascii) : Prop :=
  c ∈ list_ascii_of_string "-0123456789".

#[global] Instance numeralChar_dec c : Decision (numeralChar c).
Proof. unfold numeralChar. apply _. Defined.

(** ** States of the component *)

(** The published derived frames are what [remapFramesColors] gives on the
    original frames and the current mapping table. *)
Definition consistent (st : AppState) : Prop :=
  remapFramesColors (frames st) (colorMappings st) = Ok (remappedFrames st).

(** A frame as the decoder builds it: every non-transparent pixel index has a
    colour-table entry, and the patch is the RGBA expansion of the pixels. *)
Definition wellFormedFrame (frame : GifFrame) : Prop :=
  validPixels frame ∧ patch frame = regeneratePatch frame (colorTable frame).

(** A palette entry as [extractColorPalette] builds it: its colour is the key
    of its rgb. *)
Definition keyedEntry (colorInfo : ColorCount) : Prop :=
  color colorInfo = colorKeyOf (rgb colorInfo).

(** An event the interface offers in state [st] on decoded frames: what is
    loaded is well formed, what is selected is an entry of the palette
    shown. *)
Definition okEvent (st : AppState) (ev : event) : Prop :=
  match ev with
  | Load (Some parsedFrames) => Forall wellFormedFrame parsedFrames
  | Select colorInfo => colorInfo ∈ colorPalette st
  | _ => True
  end.

(** A session in which every event is such an event in the state it
    meets. *)
Fixpoint okSession (st : AppState) (evs : list event) : Prop :=
  match evs with
  | [] => True
  | ev :: evs' => okEvent st ev ∧ okSession (step st ev) evs'
  end.

(** Every entry of the palette shown is keyed. *)
Definition shownKeyed (st : AppState) : Prop :=
  Forall keyedEntry (colorPalette st).

#[global] Instance wellFormedFrame_dec frame : Decision (wellFormedFrame frame).
Proof. unfold wellFormedFrame. apply _. Defined.

#[global] Instance keyedEntry_dec colorInfo : Decision (keyedEntry colorInfo).
Proof. unfold keyedEntry. apply _. Defined.

#[global] Instance okEvent_dec st ev : Decision (okEvent st ev).
Proof. destruct ev as [[?|]| | | |]; simpl; apply _. Defined.

#[global] Instance okSession_dec st evs : Decision (okSession st evs).
Proof. revert st. induction evs; intros st; simpl; apply _. Defined.

(** What holds of a state reached through well-formed loads. *)
Definition settled (st : AppState) : Prop :=
  consistent st ∧ Forall wellFormedFrame (frames st).

(** A one-pixel frame whose patch is not the expansion of its pixel. *)
Definition staleFrame : GifFrame :=
  {| dims := mkDims 1 1 0 0; delay := 100; disposalType := 0;
     patch := [0; 0; 0; 0];
     pixels := [0%nat]; transparentIndex := None;
     colorTable := [(255, 0, 0)] |}.

(** A session: load the scenario frame, map red to blue, select green,
    remove the red mapping, map green to red, reset. *)
Definition sessionEvents : list event :=
  [Load (Some [scenarioFrame (mkDims 2 2 0 0) 100 1 scenarioPatch]);
   Select redEntry; Update "#0000ff"; Select greenEntry;
   Remove "rgb(255,0,0)"; Update "f00"; Reset].

(** ** remapFramesColors over the object store

    The frames handed to [remapFramesColors] are objects: a frame refers to
    its [dims] object, its [patch] buffer, its [pixels] array and its
    [colorTable] array, whose entries refer to colour triples.  Spreading an
    object or an array copies references, not the objects behind them.  This
    second embedding keeps the references, so that sharing between the
    frames passed in and the frames returned can be stated. *)
Module Store.

(** References to objects. *)
Definition loc := positive.

(** A frame object: every field that holds an object is a reference. *)
Record FrameObj := mkFrameObj {
  o_dims : loc;
  o_delay : Z;
  o_disposalType : Z;
  o_patch : loc;
  o_pixels : loc;
  o_transparentIndex : option nat;
  o_colorTable : loc
}.

(** The objects of the store. *)
Inductive obj :=
  | OFrame (fr : FrameObj)
  | ODims (d : Dims)
  | OBytes (bs : list Z)       (* Uint8ClampedArray *)
  | ONums (ns : list nat)      (* number[] *)
  | OTriple (c : RGB)          (* [number, number, number] *)
  | ORefs (ls : list loc).     (* an array of object references *)

(** A mapping as [remapFramesColors] reads it: the key, and the reference
    held in [newRgb]. *)
Record MappingRef := mkMappingRef {
  m_originalColor : string;
  m_newRgb : loc
}.

(** Outcome of a computation: a value and the store it leaves, an exception,
    or a reference that does not hold an object of the class the code
    expects (which typed code does not produce). *)
Inductive res (A : Type) :=
  | Done (a : A) (h : gmap loc obj)
  | Raise (e : exn)
  | IllTyped.
Arguments Done {A} a h.
Arguments Raise {A} e.
Arguments IllTyped {A}.

(** Computations over the store. *)
Definition M (A : Type) : Type := gmap loc obj → res A.

Definition ret {A} (a : A) : M A := λ h, Done a h.
Definition bind {A B} (m : M A) (k : A → M B) : M B :=
  λ h, match m h with
       | Done a h' => k a h'
       | Raise e => Raise e
       | IllTyped => IllTyped
       end.
Definition throw {A} (e : exn) : M A := λ _, Raise e.

Notation "x <- m ;; k" := (bind m (λ x, k))
  (at level 100, m at next level, right associativity).

(** A new object. *)
Definition alloc (o : obj) : M loc :=
  λ h, let l := fresh (dom h) in Done l (<[l := o]> h).

(** Writing the contents of an existing object. *)
Definition store (l : loc) (o : obj) : M unit :=
  λ h, match h !! l with
       | Some _ => Done () (<[l := o]> h)
       | None => IllTyped
       end.

Definition readFrame (l : loc) : M FrameObj :=
  λ h, match h !! l with Some (OFrame fr) => Done fr h | _ => IllTyped end.
Definition readBytes (l : loc) : M (list Z) :=
  λ h, match h !! l with Some (OBytes bs) => Done bs h | _ => IllTyped end.
Definition readNums (l : loc) : M (list nat) :=
  λ h, match h !! l with Some (ONums ns) => Done ns h | _ => IllTyped end.
Definition readTriple (l : loc) : M RGB :=
  λ h, match h !! l with Some (OTriple c) => Done c h | _ => IllTyped end.
Definition readRefs (l : loc) : M (list loc) :=
  λ h, match h !! l with Some (ORefs ls) => Done ls h | _ => IllTyped end.

(** [xs.forEach(f)] and [for] loops. *)
Fixpoint forEach {A} (f : A → M unit) (l : list A) : M unit :=
  match l with
  | [] => ret ()
  | x :: l' => _ <- f x;; forEach f l'
  end.

(** [xs.map(f)] *)
Fixpoint arrayMap {A B} (f : A → M B) (l : list A) : M (list B) :=
  match l with
  | [] => ret []
  | x :: l' => y <- f x;; ys <- arrayMap f l';; ret (y :: ys)
  end.

(** [mappings.find((m) => m.originalColor === originalColorKey)] *)
Definition findMapping (mappings : list MappingRef) (key : string)
  : option MappingRef :=
  find (λ m, bool_decide (m_originalColor m = key)) mappings.

(** Body of the [frame.pixels.forEach] callback; [newColorTable] refers to the
    array made by [[...frame.colorTable]]. *)
Definition remapPixel (mappings : list MappingRef) (frame : FrameObj)
    (newColorTable : loc) (pixelIndex : nat) : M unit :=
  if bool_decide (o_transparentIndex frame = Some pixelIndex) then ret ()
  else
    table <- readRefs (o_colorTable frame);;
    match table !! pixelIndex with
    | None => throw TypeError
    | Some entry =>
        originalRgb <- readTriple entry;;
        let originalColorKey := colorKeyOf originalRgb in
        match findMapping mappings originalColorKey with
        | Some mapping =>
            current <- readRefs newColorTable;;
            store newColorTable
              (ORefs (<[pixelIndex := m_newRgb mapping]> current))
        | None => ret ()
        end
    end.

(** One iteration of the loop that fills [newPatch].  The array literal of
    [newColorTable[colorIndex] || [0, 0, 0]] is read at once and never kept,
    so it is not given a place in the store. *)
Definition writePixel (frame : FrameObj) (newColorTable newPatch : loc)
    (i : nat) : M unit :=
  let pos := (i * 4)%nat in
  pixels' <- readNums (o_pixels frame);;
  match pixels' !! i with
  | None => ret () (* not reached: i < totalPixels *)
  | Some colorIndex =>
      table <- readRefs newColorTable;;
      color' <- match table !! colorIndex with
                | Some entry => readTriple entry
                | None => ret (0, 0, 0)
                end;;
      let '(r, g, b) := color' in
      let alpha :=
        if bool_decide (o_transparentIndex frame = Some colorIndex)
        then 0 else 255 in
      bytes <- readBytes newPatch;;
      store newPatch
        (OBytes (<[(pos + 3)%nat := clamp8 alpha]>
                  (<[(pos + 2)%nat := clamp8 b]>
                    (<[(pos + 1)%nat := clamp8 g]>
                      (<[pos := clamp8 r]> bytes)))))
  end.

(** The callback of [originalFrames.map]: the frame object returned by
    [{...frame, colorTable: newColorTable, patch: newPatch}] keeps the
    references of every other field. *)
Definition remapFrame (mappings : list MappingRef) (frameRef : loc) : M loc :=
  frame <- readFrame frameRef;;
  table <- readRefs (o_colorTable frame);;
  newColorTable <- alloc (ORefs table);;
  pixels' <- readNums (o_pixels frame);;
  _ <- forEach (remapPixel mappings frame newColorTable) pixels';;
  let totalPixels := length pixels' in
  newPatch <- alloc (OBytes (replicate (totalPixels * 4) 0));;
  _ <- forEach (writePixel frame newColorTable newPatch) (seq 0 totalPixels);;
  alloc (OFrame {| o_dims := o_dims frame;
                   o_delay := o_delay frame;
                   o_disposalType := o_disposalType frame;
                   o_patch := newPatch;
                   o_pixels := o_pixels frame;
                   o_transparentIndex := o_transparentIndex frame;
                   o_colorTable := newColorTable |}).

(** [originalFrames] and the result are the contents of the two arrays of
    frame references; [[...originalFrames]] has the contents of
    [originalFrames]. *)
Definition remapFramesColors (originalFrames : list loc)
    (mappings : list MappingRef) : M (list loc) :=
  if bool_decide (length mappings = 0%nat) then ret originalFrames
  else arrayMap (remapFrame mappings) originalFrames.

(** The colour triple a reference leads to. *)
Definition tripleAt (h : gmap loc obj) (l : loc) : option RGB :=
  match h !! l with
  | Some (OTriple c) => Some c
  | _ => None
  end.

(** Reading a whole frame out of the store. *)
Definition frameAt (h : gmap loc obj) (frameRef : loc) : option GifFrame :=
  match h !! frameRef with
  | Some (OFrame fr) =>
      match h !! o_dims fr, h !! o_patch fr, h !! o_pixels fr,
            h !! o_colorTable fr with
      | Some (ODims d), Some (OBytes bs), Some (ONums ns), Some (ORefs ls) =>
          table ← mapM (tripleAt h) ls;
          Some {| dims := d; delay := o_delay fr;
                  disposalType := o_disposalType fr; patch := bs;
                  pixels := ns;
                  transparentIndex := o_transparentIndex fr;
                  colorTable := table |}
      | _, _, _, _ => None
      end
  | _ => None
  end.

(** The store locations a frame is made of: the frame object, its [dims],
    [patch], [pixels] and [colorTable] objects, and the colour triples the
    table refers to. *)
Definition frameParts (h : gmap loc obj) (frameRef : loc) : list loc :=
  match h !! frameRef with
  | Some (OFrame fr) =>
      frameRef :: o_dims fr :: o_patch fr :: o_pixels fr :: o_colorTable fr
      :: match h !! o_colorTable fr with
         | Some (ORefs ls) => ls
         | _ => []
         end
  | _ => []
  end.

(** No location is part of both a frame of [ins] and a frame of [outs]. *)
Definition independent (h : gmap loc obj) (ins outs : list loc) : Prop :=
  ∀ l l' x, l ∈ ins → l' ∈ outs →
            x ∈ frameParts h l → x ∉ frameParts h l'.

(** How an output frame relates to its input frame when mappings were
    applied: a new frame object with a new colour table and a new patch
    buffer, none of which existed in the store [h] before the call, and the
    [dims] and [pixels] objects of the input frame. *)
Definition rebuilt (h h' : gmap loc obj) (frameRef frameRef' : loc) : Prop :=
  ∃ fr fr',
    h !! frameRef = Some (OFrame fr) ∧
    h' !! frameRef' = Some (OFrame fr') ∧
    h !! frameRef' = None ∧
    h !! o_colorTable fr' = None ∧ is_Some (h' !! o_colorTable fr') ∧
    h !! o_patch fr' = None ∧ is_Some (h' !! o_patch fr') ∧
    o_pixels fr' = o_pixels fr ∧
    o_dims fr' = o_dims fr ∧
    o_delay fr' = o_delay fr ∧
    o_disposalType fr' = o_disposalType fr ∧
    o_transparentIndex fr' = o_transparentIndex fr.

(** A mapping of the store embedding stands for a mapping of the value
    embedding. *)
Definition mappingAt (h : gmap loc obj) (m : MappingRef)
    (mapping : ColorMapping) : Prop :=
  m_originalColor m = originalColor mapping ∧
  tripleAt h (m_newRgb m) = Some (newRgb mapping).

(** A store holding the frame of the remap-correctness scenario (object 1,
    with its [dims] 2, [patch] 3, [pixels] 4, [colorTable] 5 and the triples
    6 and 7) and the triple of a mapping's [newRgb] (object 8). *)
Definition sampleStore : gmap loc obj :=
  list_to_map
    [(1%positive, OFrame {| o_dims := 2%positive; o_delay := 100;
                            o_disposalType := 1;
                            o_patch := 3%positive; o_pixels := 4%positive;
                            o_transparentIndex := None;
                            o_colorTable := 5%positive |});
     (2%positive, ODims (mkDims 2 2 0 0));
     (3%positive, OBytes scenarioPatch);
     (4%positive, ONums [0; 0; 1; 1]%nat);
     (5%positive, ORefs [6; 7]%positive);
     (6%positive, OTriple (255, 0, 0));
     (7%positive, OTriple (0, 255, 0));
     (8%positive, OTriple (0, 0, 255))].

(** The mapping [rgb(255,0,0) → #0000ff], its [newRgb] being object 8. *)
Definition redToBlueRef : MappingRef :=
  {| m_originalColor := "rgb(255,0,0)"; m_newRgb := 8%positive |}.

(** The store after remapping frame 1 with [redToBlueRef]: a colour table 9,
    a patch 10 and a frame object 11 have been added. *)
Definition sampleStoreAfter : gmap loc obj :=
  <[11%positive :=
      OFrame {| o_dims := 2%positive; o_delay := 100; o_disposalType := 1;
                o_patch := 10%positive; o_pixels := 4%positive;
                o_transparentIndex := None;
                o_colorTable := 9%positive |}]>
    (<[10%positive :=
         OBytes [0; 0; 255; 255; 0; 0; 255; 255;
                 0; 255; 0; 255; 0; 255; 0; 255]]>
       (<[9%positive := ORefs [8; 7]%positive]> sampleStore)).

End Store.

(** * More of the component

    The rest of what [App] computes from its state: the values the render
    derives from the mapping table, the canvas size, the frame shown, and
    the file input. *)

(** ** Values the render derives from the mapping table *)

(** The marker of a remapped palette entry:
    [colorMappings.some((mapping) => mapping.originalColor === colorInfo.color
       && mapping.newColor !== colorInfo.color)]. *)
Definition isRemapped (mappings : list ColorMapping) (colorInfo : ColorCount)
  : bool :=
  existsb (λ mapping,
             bool_decide (originalColor mapping = color colorInfo)
             && negb (bool_decide (newColor mapping = color colorInfo)))
          mappings.

(** The value of the two colour inputs and of the preview:
    [colorMappings.find((m) => m.originalColor === selectedColor.color)
       ?.newColor || selectedColor.color]; an empty string is falsy. *)
Definition pickerValue (mappings : list ColorMapping) (selected : ColorCount)
  : string :=
  match find (λ m, bool_decide (originalColor m = color selected)) mappings
  with
  | Some m => if bool_decide (newColor m = "") then color selected
              else newColor m
  | None => color selected
  end.

(** The [onClick] of "Reset to Original Color", rendered with a colour
    selected: [updateColorMapping(selectedColor.color)]. *)
Definition resetToOriginalColor (st : AppState) (selected : ColorCount)
  : outcome :=
  updateColorMapping st (color selected).

(** ** The canvas size *)

(** The [frames.forEach] of the effect that sizes the canvases:
    [width = Math.max(width, frame.dims.left + frame.dims.width)] and the
    same for [height], both starting at 0. *)
Definition canvasSize (gifFrames : list GifFrame) : Z * Z :=
  foldl (λ size frame,
           (Z.max size.1 (left (dims frame) + width (dims frame)),
            Z.max size.2 (top (dims frame) + height (dims frame))))
        (0, 0) gifFrames.

(** ** The frame shown *)

(** The fields of the component that decide which frame is shown. *)
Record Player := mkPlayer {
  shownFrames : list GifFrame;     (* frames *)
  currentFrameIndex : nat;
  isPlaying : bool
}.

(** What [parseGifFile] does to these fields.  [setIsPlaying(true)] comes
    after [extractColorPalette], so an exception of the latter skips it. *)
Definition playerLoad (p : Player) (decoded : option (list GifFrame))
  : Player :=
  match decoded with
  | None => p
  | Some parsedFrames =>
      let p1 := mkPlayer parsedFrames 0 (isPlaying p) in
      match extractColorPalette parsedFrames with
      | Ok _ =>
          if (0 <? length parsedFrames)%nat
          then mkPlayer parsedFrames 0 true else p1
      | Throw _ => p1
      end
  end.

(** A call of [animate], which the animation effect schedules; the effect
    returns at once when there are no frames or the animation is paused.
    [due] tells whether [accumulatedTime >= currentFrame.delay]; reading
    [currentFrame.delay] throws when [frames[currentFrameIndex]] is
    [undefined]. *)
Definition animate (p : Player) (due : bool) : result Player :=
  if (length (shownFrames p) =? 0)%nat || negb (isPlaying p) then Ok p
  else
    match shownFrames p !! currentFrameIndex p with
    | None => Throw TypeError
    | Some currentFrame =>
        if due then
          let nextFrameIndex :=
            ((currentFrameIndex p + 1) mod length (shownFrames p))%nat in
          Ok (mkPlayer (shownFrames p) nextFrameIndex (isPlaying p))
        else Ok p
    end.

(** [onClick={() => setCurrentFrameIndex(index)}] on a frame of the unrolled
    view. *)
Definition clickFrame (p : Player) (index : nat) : Player :=
  mkPlayer (shownFrames p) index (isPlaying p).

(** [setIsPlaying((prev) => !prev)] *)
Definition togglePlayPause (p : Player) : Player :=
  mkPlayer (shownFrames p) (currentFrameIndex p) (negb (isPlaying p)).

Inductive playerEvent :=
  | PLoad (decoded : option (list GifFrame))
  | PAnimate (due : bool)
  | PClick (index : nat)
  | PToggle.

(** An exception in the animation callback ends the callback; the fields
    stay as they are. *)
Definition playerStep (p : Player) (ev : playerEvent) : Player :=
  match ev with
  | PLoad decoded => playerLoad p decoded
  | PAnimate due =>
      match animate p due with Ok p' => p' | Throw _ => p end
  | PClick index => clickFrame p index
  | PToggle => togglePlayPause p
  end.

Definition playerRun (p : Player) (evs : list playerEvent) : Player :=
  foldl playerStep p evs.

(** The player as first rendered. *)
Definition initialPlayer : Player := mkPlayer [] 0 false.

(** An event the interface offers: only a frame that is displayed can be
    clicked. *)
Definition offered (p : Player) (ev : playerEvent) : Prop :=
  match ev with
  | PClick index => (index < length (shownFrames p))%nat
  | _ => True
  end.

Fixpoint offeredAll (p : Player) (evs : list playerEvent) : Prop :=
  match evs with
  | [] => True
  | ev :: evs' => offered p ev ∧ offeredAll (playerStep p ev) evs'
  end.

(** [k] calls of [animate], each with the delay of the current frame
    elapsed. *)
Definition playFor (k : nat) (p : Player) : Player :=
  Nat.iter k (λ p', playerStep p' (PAnimate true)) p.

(** [frames[currentFrameIndex]] is a frame whenever there are frames. *)
Definition indexInRange (p : Player) : Prop :=
  shownFrames p = [] ∨ (currentFrameIndex p < length (shownFrames p))%nat.

(** ** The file input *)

(** A file of the input: its MIME type, and what the decoder makes of its
    bytes ([None] when it throws). *)
Record File := mkFile {
  fileType : string;
  fileDecoded : option (list GifFrame)
}.

(** [handleFileChange], with [parseGifFile] run to its end. *)
Definition handleFileChange (st : AppState) (files : list File) : AppState :=
  match files with
  | selectedFile :: _ =>
      if bool_decide (fileType selectedFile = "image/gif")
      then parseGifFile st (fileDecoded selectedFile)
      else setError (Some "Please upload a GIF file") st
  | [] => st
  end.

(** ** Vocabulary of the further properties *)

(** A colour component that fits a byte. *)
Definition isByte (v : Z) : Prop := 0 ≤ v ≤ 255.

(** The four numbers of an RGBA pixel with colour [c], as stored in a
    [Uint8ClampedArray]. *)
Definition rgba (c : RGB) (alpha : Z) : list Z :=
  let '(r, g, b) := c in [clamp8 r; clamp8 g; clamp8 b; alpha].

(** The keys of a list in the order of their first occurrence. *)
Fixpoint firstSeen (keys : list string) : list string :=
  match keys with
  | [] => []
  | k :: rest => k :: filter (λ k', k' ≠ k) (firstSeen rest)
  end.

(** * Properties *)

Lemma if_bool_decide_iff {A} (P Q : Prop) `{Decision P, Decision Q} (a b : A) :
  (P ↔ Q) →
  (if bool_decide P then a else b) = (if bool_decide Q then a else b).
Proof. intros HPQ. by rewrite (bool_decide_ext P Q HPQ). Qed.

(** ** Loops that may throw *)

Lemma arrayMapM_Ok {A B} (f : A → result B) (l : list A) (out : list B) :
  arrayMapM f l = Ok out → Forall2 (λ x y, f x = Ok y) l out.
Proof.
  revert out. induction l as [|x l IH]; intros out; simpl.
  - intros [= <-]. constructor.
  - unfold mbind, result_mbind. destruct (f x) as [y|e] eqn:Hx; simpl; [|done].
    destruct (arrayMapM f l) as [ys|e] eqn:Hl; simpl; [|done].
    intros [= <-]. constructor; [done|]. by apply IH.
Qed.

Lemma arrayMapM_total {A B} (f : A → result B) (l : list A) :
  Forall (λ x, ∃ y, f x = Ok y) l → ∃ out, arrayMapM f l = Ok out.
Proof.
  induction 1 as [|x l [y Hy] _ [ys Hys]]; simpl.
  - by eexists.
  - unfold mbind, result_mbind. rewrite Hy. simpl. rewrite Hys. simpl.
    by eexists.
Qed.

Lemma forEachM_app {A S} (f : S → A → result S) (l1 l2 : list A) (s : S) :
  forEachM f (l1 ++ l2) s = result_bind (forEachM f l2) (forEachM f l1 s).
Proof.
  revert s. induction l1 as [|x l1 IH]; intros s; simpl; [done|].
  unfold mbind, result_mbind. destruct (f s x); simpl; [apply IH|done].
Qed.

(** ** The colour-table pass of [remapFramesColors] *)

Lemma remapPixel_total mappings frame table pixelIndex :
  indexOk frame pixelIndex →
  ∃ table', remapPixel mappings frame table pixelIndex = Ok table'.
Proof.
  unfold indexOk, remapPixel. intros Hok.
  destruct (isTransparent frame pixelIndex); [by eexists|].
  destruct Hok as [c ->]; [done|]. simpl.
  destruct (findMapping _ _); by eexists.
Qed.

Lemma remapPixel_throws mappings frame table pixelIndex :
  ¬ indexOk frame pixelIndex →
  remapPixel mappings frame table pixelIndex = Throw TypeError.
Proof.
  unfold indexOk, remapPixel. intros Hno.
  destruct (isTransparent frame pixelIndex); [by destruct Hno|].
  destruct (colorTable frame !! pixelIndex) eqn:E; [|done].
  destruct Hno. by eexists.
Qed.

Lemma forEachM_remapPixel_total mappings frame px table :
  Forall (indexOk frame) px →
  ∃ table', forEachM (remapPixel mappings frame) px table = Ok table'.
Proof.
  intros H. revert table. induction H as [|p px Hp _ IH]; intros table; simpl.
  - by eexists.
  - destruct (remapPixel_total mappings frame table p Hp) as [t1 ->].
    apply IH.
Qed.

Lemma forEachM_remapPixel_valid mappings frame px table table' :
  forEachM (remapPixel mappings frame) px table = Ok table' →
  Forall (indexOk frame) px.
Proof.
  revert table. induction px as [|p px IH]; intros table; simpl; [done|].
  destruct (decide (indexOk frame p)) as [Hp|Hp].
  - destruct (remapPixel_total mappings frame table p Hp) as [t1 ->].
    simpl. intros H. constructor; [done|]. by eapply IH.
  - by rewrite remapPixel_throws.
Qed.

(** [newColorTable] keeps its length: the assignment in the callback always
    hits an existing slot. *)
Lemma forEachM_remapPixel_length mappings frame px :
  ∀ table table',
    length table = length (colorTable frame) →
    forEachM (remapPixel mappings frame) px table = Ok table' →
    length table' = length (colorTable frame).
Proof.
  induction px as [|p px IH]; intros table table' Hlen; simpl.
  - by intros [= <-].
  - unfold mbind, result_mbind.
    destruct (remapPixel mappings frame table p) as [t1|e] eqn:Hp; [|done].
    simpl. apply IH. unfold remapPixel in Hp.
    destruct (isTransparent frame p); [by injection Hp as <-|].
    destruct (colorTable frame !! p); [|done]. simpl in Hp.
    destruct (findMapping mappings _); injection Hp as <-; [|done].
    by rewrite length_insert.
Qed.

Lemma forEachM_remapPixel_slots mappings frame px :
  ∀ seen table table',
    (∀ idx, table !! idx = slotAfter mappings frame seen idx) →
    forEachM (remapPixel mappings frame) px table = Ok table' →
    ∀ idx, table' !! idx = slotAfter mappings frame (seen ++ px) idx.
Proof.
  induction px as [|p px IH]; intros seen table table' Hinv; simpl.
  - intros [= <-] idx. by rewrite app_nil_r.
  - unfold mbind, result_mbind.
    destruct (remapPixel mappings frame table p) as [t1|e] eqn:Hp; [|done].
    simpl. intros Hrest idx.
    replace (seen ++ p :: px) with ((seen ++ [p]) ++ px)
      by (by rewrite <-app_assoc).
    eapply IH; [|exact Hrest]. clear idx Hrest IH.
    intros idx. unfold remapPixel in Hp.
    destruct (isTransparent frame p) eqn:Ht.
    { injection Hp as <-. rewrite Hinv. unfold slotAfter.
      apply if_bool_decide_iff. rewrite elem_of_app, list_elem_of_singleton.
      split; [tauto|]. intros [[?| ->] ?]; [tauto|congruence]. }
    destruct (colorTable frame !! p) as [c|] eqn:Hc; [|done]. simpl in Hp.
    assert (Hlen : (p < length table)%nat).
    { apply lookup_lt_is_Some. rewrite Hinv. unfold slotAfter.
      case_bool_decide; rewrite Hc; by eexists. }
    destruct (decide (idx = p)) as [->|Hne].
    + unfold slotAfter at 1. rewrite bool_decide_eq_true_2.
      2:{ split; [|done]. rewrite elem_of_app, list_elem_of_singleton. tauto. }
      rewrite Hc. simpl. unfold remapColor.
      destruct (findMapping mappings (colorKeyOf c)) as [m|] eqn:Hm;
        injection Hp as <-.
      * by rewrite list_lookup_insert_eq.
      * rewrite Hinv. unfold slotAfter. case_bool_decide; rewrite Hc; simpl;
          [|done]. unfold remapColor. by rewrite Hm.
    + assert (table !! idx = t1 !! idx) as <-.
      { destruct (findMapping mappings (colorKeyOf c)); injection Hp as <-;
          [|done]. by rewrite list_lookup_insert_ne. }
      rewrite Hinv. unfold slotAfter. apply if_bool_decide_iff.
      rewrite elem_of_app, list_elem_of_singleton. tauto.
Qed.

(** ** The patch loop of [remapFramesColors] *)

Lemma pixelBytes_length frame table colorIndex :
  length (pixelBytes frame table colorIndex) = 4%nat.
Proof.
  unfold pixelBytes. by destruct (default _ _) as [[??]?].
Qed.

Lemma writePixel_next frame table done rest i colorIndex :
  pixels frame !! i = Some colorIndex →
  length done = (i * 4)%nat →
  writePixel frame table (done ++ 0 :: 0 :: 0 :: 0 :: rest) i
  = (done ++ pixelBytes frame table colorIndex) ++ rest.
Proof.
  intros Hi Hlen. unfold writePixel, pixelBytes. rewrite Hi, <-Hlen.
  destruct (default _ _) as [[r g] b].
  replace (length done) with (length done + 0)%nat at 4 by lia.
  rewrite !insert_app_r. simpl. rewrite <-app_assoc. simpl.
  by destruct (isTransparent frame colorIndex).
Qed.

Lemma patch_loop frame table n :
  ∀ a done,
    (a + n = length (pixels frame))%nat →
    length done = (a * 4)%nat →
    foldl (writePixel frame table) (done ++ replicate (n * 4) 0) (seq a n)
    = done ++ concat (map (pixelBytes frame table) (drop a (pixels frame))).
Proof.
  induction n as [|n IH]; intros a done Ha Hlen.
  - simpl. rewrite drop_ge by lia. done.
  - destruct (lookup_lt_is_Some_2 (pixels frame) a) as [idx Hidx]; [lia|].
    rewrite (drop_S _ _ _ Hidx). cbn [seq foldl map concat].
    change (S n * 4)%nat with (4 + n * 4)%nat. cbn [replicate Nat.add].
    rewrite (writePixel_next _ _ _ _ _ _ Hidx Hlen).
    rewrite IH; [by rewrite <-app_assoc|lia|].
    rewrite length_app, pixelBytes_length. lia.
Qed.

(** The loop writes, pixel after pixel, the four bytes of [pixelBytes]. *)
Lemma regeneratePatch_bytes frame table :
  regeneratePatch frame table
  = concat (map (pixelBytes frame table) (pixels frame)).
Proof.
  unfold regeneratePatch.
  apply (patch_loop frame table (length (pixels frame)) 0%nat []); done.
Qed.

Lemma concat_chunk_lookup {A} (g : A → list Z) (l : list A) :
  (∀ y, length (g y) = 4%nat) →
  ∀ i x k, l !! i = Some x → (k < 4)%nat →
    concat (map g l) !! (4 * i + k)%nat = g x !! k.
Proof.
  intros Hg. induction l as [|y l IH]; intros i x k Hi Hk; [done|].
  destruct i as [|i]; simpl in Hi.
  - injection Hi as ->. simpl. rewrite lookup_app_l; [done|]. rewrite Hg. lia.
  - cbn [map concat]. rewrite lookup_app_r; rewrite Hg; [|lia].
    replace (4 * S i + k - 4)%nat with (4 * i + k)%nat by lia. by apply IH.
Qed.

Lemma regeneratePatch_length frame table :
  length (regeneratePatch frame table) = (length (pixels frame) * 4)%nat.
Proof.
  rewrite regeneratePatch_bytes. induction (pixels frame) as [|y l IH];
    [done|]. cbn [map concat]. rewrite length_app, pixelBytes_length, IH.
  simpl. lia.
Qed.

Lemma regeneratePatch_lookup frame table i colorIndex k :
  pixels frame !! i = Some colorIndex → (k < 4)%nat →
  regeneratePatch frame table !! (4 * i + k)%nat
  = pixelBytes frame table colorIndex !! k.
Proof.
  intros Hi Hk. rewrite regeneratePatch_bytes.
  by apply concat_chunk_lookup; [apply pixelBytes_length|..].
Qed.

(** ** [remapFrame] and [remapFramesColors] *)

Lemma remapFrame_Ok mappings frame frame' :
  remapFrame mappings frame = Ok frame' →
  ∃ table,
    forEachM (remapPixel mappings frame) (pixels frame) (colorTable frame)
      = Ok table ∧
    frame' = {| dims := dims frame; delay := delay frame;
                disposalType := disposalType frame;
                patch := regeneratePatch frame table;
                pixels := pixels frame;
                transparentIndex := transparentIndex frame;
                colorTable := table |}.
Proof.
  unfold remapFrame, mbind, result_mbind.
  destruct (forEachM _ _ _) as [table|e]; simpl; [|done].
  intros [= <-]. by exists table.
Qed.

Lemma remapFrame_total mappings frame :
  validPixels frame → ∃ frame', remapFrame mappings frame = Ok frame'.
Proof.
  intros Hv. unfold remapFrame, mbind, result_mbind.
  destruct (forEachM_remapPixel_total mappings frame (pixels frame)
              (colorTable frame) Hv) as [table ->].
  by eexists.
Qed.

Lemma remapFrame_valid mappings frame frame' :
  remapFrame mappings frame = Ok frame' → validPixels frame.
Proof.
  intros (table & Ht & _)%remapFrame_Ok.
  by eapply forEachM_remapPixel_valid.
Qed.

Lemma remapFrame_colorTable mappings frame frame' :
  remapFrame mappings frame = Ok frame' →
  ∀ idx, colorTable frame' !! idx
         = slotAfter mappings frame (pixels frame) idx.
Proof.
  intros (table & Ht & ->)%remapFrame_Ok idx. simpl.
  apply (forEachM_remapPixel_slots mappings frame (pixels frame) []
           (colorTable frame) table); [|done].
  intros j. unfold slotAfter. rewrite bool_decide_eq_false_2; [done|].
  intros [H _]. by apply elem_of_nil in H.
Qed.

Lemma remapFramesColors_nonempty frames' mappings :
  mappings ≠ [] →
  remapFramesColors frames' mappings = arrayMapM (remapFrame mappings) frames'.
Proof.
  intros Hne. unfold remapFramesColors.
  rewrite bool_decide_eq_false_2; [done|]. by destruct mappings.
Qed.

Lemma regeneratePatch_pixel frame table i colorIndex :
  pixels frame !! i = Some colorIndex →
  patchPixel (regeneratePatch frame table) i
  = pixelBytes frame table colorIndex.
Proof.
  intros Hi. unfold patchPixel. apply list_eq. intros k.
  destruct (decide (k < 4)%nat) as [Hk|Hk].
  - rewrite lookup_take_lt, lookup_drop by done.
    by apply regeneratePatch_lookup.
  - rewrite lookup_take_ge by lia. symmetry. apply lookup_ge_None.
    rewrite pixelBytes_length. lia.
Qed.


(** ** The scenario of the remap-correctness test *)

(** C4.  On the 2×2 frame with colour table [[255,0,0],[0,255,0]], pixels
    [0,0,1,1] and no transparent index, remapping with the single mapping
    rgb(255,0,0) → #0000ff yields one frame whose patch is
    [0,0,255,255, 0,0,255,255, 0,255,0,255, 0,255,0,255].  Keys are resolved
    through the original colour table: with the further mapping
    rgb(0,255,0) → #ff0000 listed first, the slot that was green becomes red
    and is not then taken for a red slot. *)
Theorem remap_scenario_patch (d : Dims) (delay' disposal : Z)
    (patch' : list Z) :
  (∃ frame',
     remapFramesColors [scenarioFrame d delay' disposal patch'] [redToBlue]
       = Ok [frame'] ∧
     patch frame'
       = [0; 0; 255; 255; 0; 0; 255; 255; 0; 255; 0; 255; 0; 255; 0; 255] ∧
     colorTable frame' = [(0, 0, 255); (0, 255, 0)]) ∧
  (∃ frame',
     remapFramesColors [scenarioFrame d delay' disposal patch']
       [greenToRed; redToBlue] = Ok [frame'] ∧
     patch frame'
       = [0; 0; 255; 255; 0; 0; 255; 255; 255; 0; 0; 255; 255; 0; 0; 255]).
Proof.
  split; eexists; vm_compute; repeat split; reflexivity.
Qed.

(** C9.  Remapping with an empty mapping list returns the frames it was
    given, so the RGBA patch of every output frame is the patch of the
    corresponding input frame. *)
Theorem remap_empty_patches (originalFrames : list GifFrame) :
  ∃ out,
    remapFramesColors originalFrames [] = Ok out ∧
    out = originalFrames ∧
    patch <$> out = patch <$> originalFrames.
Proof. by exists originalFrames. Qed.

Lemma remapFrame_fields mappings frame frame' :
  remapFrame mappings frame = Ok frame' →
  passedThrough frame frame' ∧ recomputed mappings frame frame'.
Proof.
  intros H. pose proof (remapFrame_colorTable _ _ _ H) as Hslots.
  apply remapFrame_Ok in H as (table & _ & ->).
  by repeat split.
Qed.

(** C10.  With a non-empty mapping list, every output frame of
    [remapFramesColors] has the [dims], [delay], [disposalType],
    [transparentIndex] and [pixels] of its input frame; its [colorTable] and
    [patch] are the newly computed ones.  There is one output frame per input
    frame, and the call returns whenever every non-transparent pixel index
    has a colour-table entry. *)
Theorem remap_passes_fields_through (originalFrames : list GifFrame)
    (mappings : list ColorMapping) :
  mappings ≠ [] →
  (Forall validPixels originalFrames →
   ∃ out, remapFramesColors originalFrames mappings = Ok out) ∧
  (∀ out,
     remapFramesColors originalFrames mappings = Ok out →
     Forall2 (λ frame frame',
                passedThrough frame frame' ∧ recomputed mappings frame frame')
             originalFrames out).
Proof.
  intros Hne. rewrite remapFramesColors_nonempty by done. split.
  - intros Hv. apply arrayMapM_total.
    eapply Forall_impl; [exact Hv|]. intros f Hf. by apply remapFrame_total.
  - intros out Hout%arrayMapM_Ok.
    eapply Forall2_impl; [exact Hout|]. intros f f'. apply remapFrame_fields.
Qed.

Lemma remap_passes_fields_through_witness :
  [redToBlue] ≠ [] ∧
  ∃ out,
    remapFramesColors [scenarioFrame (mkDims 2 2 0 0) 100 1 []] [redToBlue]
      = Ok out ∧
    Forall2 (λ frame frame',
               passedThrough frame frame' ∧
               recomputed [redToBlue] frame frame')
            [scenarioFrame (mkDims 2 2 0 0) 100 1 []] out.
Proof.
  assert (Hne : [redToBlue] ≠ []) by discriminate.
  split; [exact Hne|].
  destruct (remap_passes_fields_through
              [scenarioFrame (mkDims 2 2 0 0) 100 1 []] [redToBlue] Hne)
    as [Htotal Hfields].
  destruct Htotal as [out Hout].
  { repeat constructor; intros _; by eexists. }
  exists out. split; [exact Hout|]. by apply Hfields.
Defined.




(** ** Palette extraction *)

Lemma occurrences_snoc key keys k :
  occurrences key (keys ++ [k])
  = (occurrences key keys + if decide (k = key) then 1 else 0)%nat.
Proof.
  unfold occurrences. rewrite filter_app, length_app. f_equal.
  rewrite filter_cons, filter_nil. by destruct (decide (k = key)).
Qed.

Lemma occurrences_pos key keys :
  occurrences key keys ≠ 0%nat ↔ key ∈ keys.
Proof.
  unfold occurrences. induction keys as [|k keys IH]; simpl.
  - rewrite elem_of_nil. tauto.
  - rewrite filter_cons, elem_of_cons. destruct (decide (k = key)); simpl.
    + split; [by left|lia].
    + rewrite IH. split; [tauto|]. by intros [|].
Qed.

Lemma colorMap_get_set_eq colorMap key v :
  colorMap_get (colorMap_set colorMap key v) key = Some v.
Proof.
  induction colorMap as [|[k v0] cm IH]; simpl.
  - by rewrite bool_decide_eq_true_2.
  - case_bool_decide as Hk; simpl.
    + by rewrite bool_decide_eq_true_2.
    + by rewrite bool_decide_eq_false_2.
Qed.

Lemma colorMap_get_set_ne colorMap key key' v :
  key ≠ key' →
  colorMap_get (colorMap_set colorMap key v) key' = colorMap_get colorMap key'.
Proof.
  intros Hne. induction colorMap as [|[k v0] cm IH]; simpl.
  - by rewrite bool_decide_eq_false_2.
  - case_bool_decide as Hk; simpl.
    + subst k. by rewrite !bool_decide_eq_false_2.
    + by rewrite IH.
Qed.

Lemma colorMap_keys_set colorMap key v :
  ∀ k, k ∈ (colorMap_set colorMap key v).*1 ↔ k = key ∨ k ∈ colorMap.*1.
Proof.
  intros k. induction colorMap as [|[k0 v0] cm IH]; simpl.
  - rewrite list_elem_of_singleton, elem_of_nil. tauto.
  - case_bool_decide as Hk; simpl; rewrite !elem_of_cons.
    + subst. tauto.
    + rewrite IH. tauto.
Qed.

Lemma colorMap_set_NoDup colorMap key v :
  NoDup colorMap.*1 → NoDup (colorMap_set colorMap key v).*1.
Proof.
  induction colorMap as [|[k0 v0] cm IH]; simpl.
  - intros _. apply NoDup_singleton.
  - rewrite NoDup_cons. intros [Hk0 Hnd]. case_bool_decide as Hk; simpl.
    + by apply NoDup_cons.
    + apply NoDup_cons. split; [|by apply IH].
      rewrite colorMap_keys_set. naive_solver.
Qed.

Lemma colorMap_get_None colorMap key :
  colorMap_get colorMap key = None ↔ key ∉ colorMap.*1.
Proof.
  induction colorMap as [|[k0 v0] cm IH]; simpl.
  - rewrite elem_of_nil. tauto.
  - rewrite not_elem_of_cons. case_bool_decide; naive_solver.
Qed.

Lemma colorMap_get_elem colorMap key v :
  NoDup colorMap.*1 →
  (key, v) ∈ colorMap ↔ colorMap_get colorMap key = Some v.
Proof.
  induction colorMap as [|[k0 v0] cm IH]; simpl.
  - intros _. rewrite elem_of_nil. naive_solver.
  - rewrite NoDup_cons. intros [Hk0 Hnd]. rewrite elem_of_cons.
    case_bool_decide as Hk.
    + subst k0. split; [|naive_solver].
      intros [?|Hin]; [naive_solver|]. destruct Hk0.
      apply list_elem_of_fmap. by exists (key, v).
    + rewrite <-IH by done. naive_solver.
Qed.

Lemma countColor_get colorMap c key :
  colorMap_get (countColor colorMap c) key
  = if decide (colorKeyOf c = key)
    then Some (from_option (λ current, (current.1 + 1)%nat) 1%nat
                 (colorMap_get colorMap key), c)
    else colorMap_get colorMap key.
Proof.
  unfold countColor. destruct (decide (colorKeyOf c = key)) as [<-|Hne].
  - destruct (colorMap_get colorMap (colorKeyOf c));
      by rewrite colorMap_get_set_eq.
  - destruct (colorMap_get colorMap (colorKeyOf c));
      by rewrite colorMap_get_set_ne.
Qed.

Lemma countColor_counted cs colorMap c :
  counted cs colorMap → counted (cs ++ [c]) (countColor colorMap c).
Proof.
  intros [Hnd Hcnt]. split.
  - unfold countColor. destruct (colorMap_get _ _); by apply colorMap_set_NoDup.
  - intros key. destruct (Hcnt key) as [Hn Hrgb].
    rewrite countColor_get, fmap_app. cbn [fmap list_fmap].
    rewrite occurrences_snoc.
    destruct (decide (colorKeyOf c = key)) as [Heq|Hne].
    + split; [|by intros v [= <-]]. simpl.
      destruct (colorMap_get colorMap key) as [[n c0]|]; simpl in *.
      * destruct (decide (occurrences _ _ = 0%nat)); [done|].
        injection Hn as ->. by destruct (decide (_ + 1 = 0)%nat); [lia|].
      * destruct (decide (occurrences _ _ = 0%nat)) as [->|]; [|done].
        done.
    + split; [|done]. rewrite Hn. by rewrite Nat.add_0_r.
Qed.

Lemma foldl_countColor_counted cs :
  counted cs (foldl countColor [] cs).
Proof.
  induction cs as [|c cs IH] using rev_ind.
  - split; [constructor|]. intros key. done.
  - rewrite foldl_app. simpl. by apply countColor_counted.
Qed.

Lemma countPixel_valid frame colorMap pixelIndex :
  indexOk frame pixelIndex →
  countPixel frame colorMap pixelIndex
  = Ok (match (if isTransparent frame pixelIndex then None
               else colorTable frame !! pixelIndex) with
        | Some c => countColor colorMap c
        | None => colorMap
        end).
Proof.
  unfold indexOk, countPixel, countColor. intros Hok.
  destruct (isTransparent frame pixelIndex); [done|].
  destruct Hok as [c ->]; [done|].
  by destruct (colorMap_get colorMap (colorKeyOf c)).
Qed.

Lemma countPixel_throws frame colorMap pixelIndex :
  ¬ indexOk frame pixelIndex →
  countPixel frame colorMap pixelIndex = Throw TypeError.
Proof.
  unfold indexOk, countPixel. intros Hno.
  destruct (isTransparent frame pixelIndex); [by destruct Hno|].
  destruct (colorTable frame !! pixelIndex) eqn:E; [|done].
  destruct Hno. by eexists.
Qed.

Lemma forEachM_countPixel frame px :
  Forall (indexOk frame) px →
  ∀ colorMap,
    forEachM (countPixel frame) px colorMap
    = Ok (foldl countColor colorMap
            (omap (λ pixelIndex,
                     if isTransparent frame pixelIndex then None
                     else colorTable frame !! pixelIndex) px)).
Proof.
  induction 1 as [|p px Hp _ IH]; intros colorMap; simpl; [done|].
  rewrite countPixel_valid by done. simpl. rewrite IH.
  by destruct (if isTransparent frame p then None else colorTable frame !! p).
Qed.

Lemma forEachM_frames gifFrames :
  Forall validPixels gifFrames →
  ∀ colorMap,
    forEachM (λ colorMap frame,
                forEachM (countPixel frame) (pixels frame) colorMap)
      gifFrames colorMap
    = Ok (foldl countColor colorMap (gifFrames ≫= visibleColors)).
Proof.
  induction 1 as [|f fs Hf _ IH]; intros colorMap; simpl; [done|].
  rewrite forEachM_countPixel by done. simpl. rewrite IH.
  by rewrite foldl_app.
Qed.

Lemma insertByCount_perm a sorted : insertByCount a sorted ≡ₚ a :: sorted.
Proof.
  induction sorted as [|b rest IH]; simpl; [done|].
  destruct (count b <=? count a)%nat; [done|].
  rewrite IH. apply perm_swap.
Qed.

Lemma sortByCountDesc_perm l : sortByCountDesc l ≡ₚ l.
Proof.
  induction l as [|a l IH]; simpl; [done|].
  by rewrite insertByCount_perm, IH.
Qed.

Lemma insertByCount_sorted a sorted :
  StronglySorted descending sorted →
  StronglySorted descending (insertByCount a sorted).
Proof.
  induction 1 as [|b rest Hs IH Hb]; simpl.
  - by repeat constructor.
  - destruct (count b <=? count a)%nat eqn:Hle.
    + apply Nat.leb_le in Hle. constructor; [by constructor|].
      constructor; [done|]. eapply Forall_impl; [exact Hb|].
      unfold descending. intros x Hx. lia.
    + apply Nat.leb_gt in Hle. constructor; [done|].
      rewrite insertByCount_perm. constructor; [|done].
      unfold descending. lia.
Qed.

Lemma sortByCountDesc_sorted l : StronglySorted descending (sortByCountDesc l).
Proof.
  induction l as [|a l IH]; simpl; [constructor|].
  by apply insertByCount_sorted.
Qed.

Lemma extractColorPalette_valid gifFrames :
  Forall validPixels gifFrames →
  extractColorPalette gifFrames
  = Ok (sortByCountDesc
          (colorMap_entries
             (foldl countColor [] (gifFrames ≫= visibleColors)))).
Proof.
  intros Hv. unfold extractColorPalette. by rewrite forEachM_frames.
Qed.

Lemma colorMap_entries_get colorMap :
  NoDup colorMap.*1 →
  ∀ entry, entry ∈ colorMap_entries colorMap →
           colorMap_get colorMap (color entry)
           = Some (count entry, rgb entry).
Proof.
  intros Hnd entry (kv & -> & Hin)%list_elem_of_fmap. simpl.
  apply colorMap_get_elem; [done|]. by destruct kv as [k [n c]].
Qed.

(** The entries of an extracted palette are keyed. *)
Lemma extractColorPalette_keyed gifFrames palette :
  Forall validPixels gifFrames →
  extractColorPalette gifFrames = Ok palette →
  Forall keyedEntry palette.
Proof.
  intros Hv. rewrite extractColorPalette_valid by done. intros [= <-].
  apply Forall_forall. intros entry Hin. rewrite sortByCountDesc_perm in Hin.
  destruct (foldl_countColor_counted (gifFrames ≫= visibleColors))
    as [Hnd Hcnt].
  apply (colorMap_entries_get _ Hnd) in Hin.
  destruct (Hcnt (color entry)) as [_ Hrgb].
  unfold keyedEntry. symmetry. apply (Hrgb _ Hin).
Qed.

(** C5.  When every non-transparent pixel index has an entry in its frame's
    colour table, [extractColorPalette] returns a palette with exactly one
    entry per distinct colour key among the non-transparent pixels of all
    frames: the keys are pairwise distinct, a key is in the palette exactly
    when some non-transparent pixel has it, each entry's count is the number
    of such pixels with its key (its rgb being a triple with that key), and
    the entries are in descending order of count. *)
Theorem palette_counts_visible_pixels (gifFrames : list GifFrame) :
  Forall validPixels gifFrames →
  ∃ palette,
    extractColorPalette gifFrames = Ok palette ∧
    NoDup (color <$> palette) ∧
    (∀ key, key ∈ color <$> palette ↔ key ∈ visibleKeys gifFrames) ∧
    (∀ entry, entry ∈ palette →
       count entry = occurrences (color entry) (visibleKeys gifFrames) ∧
       colorKeyOf (rgb entry) = color entry) ∧
    StronglySorted descending palette.
Proof.
  intros Hv. eexists. split; [by apply extractColorPalette_valid|].
  set (cs := gifFrames ≫= visibleColors).
  destruct (foldl_countColor_counted cs) as [Hnd Hcnt].
  set (colorMap := foldl countColor [] cs) in *.
  assert (Hkeys : color <$> colorMap_entries colorMap = colorMap.*1).
  { unfold colorMap_entries. rewrite <-list_fmap_compose.
    by apply list_fmap_ext. }
  pose proof (colorMap_entries_get colorMap Hnd) as Hentry.
  assert (Hsome : ∀ key, key ∈ colorMap.*1 ↔
            occurrences key (colorKeyOf <$> cs) ≠ 0%nat).
  { intros key. destruct (Hcnt key) as [Hn _].
    destruct (colorMap_get colorMap key) as [v|] eqn:Hget.
    - destruct (decide (occurrences _ _ = 0%nat)); [done|]. split; [done|].
      intros _. destruct (decide (key ∈ colorMap.*1)) as [|Hno]; [done|].
      apply colorMap_get_None in Hno. congruence.
    - apply colorMap_get_None in Hget.
      destruct (decide (occurrences _ _ = 0%nat)); [tauto|done]. }
  split; [by rewrite sortByCountDesc_perm, Hkeys|].
  split; [|split].
  - intros key. rewrite sortByCountDesc_perm, Hkeys, Hsome.
    apply occurrences_pos.
  - intros entry Hin. rewrite sortByCountDesc_perm in Hin.
    apply Hentry in Hin. destruct (Hcnt (color entry)) as [Hn Hrgb].
    split; [|by apply (Hrgb _ Hin)].
    rewrite Hin in Hn. simpl in Hn.
    by destruct (decide (occurrences _ _ = 0%nat)); [|injection Hn].
  - apply sortByCountDesc_sorted.
Qed.

Lemma palette_witness_valid : Forall validPixels [transparentFrame].
Proof. repeat constructor; intros _; by eexists. Qed.

Lemma palette_counts_visible_pixels_witness :
  Forall validPixels [transparentFrame] ∧
  ∃ palette,
    extractColorPalette [transparentFrame] = Ok palette ∧
    NoDup (color <$> palette) ∧
    (∀ key, key ∈ color <$> palette ↔ key ∈ visibleKeys [transparentFrame]) ∧
    (∀ entry, entry ∈ palette →
       count entry
       = occurrences (color entry) (visibleKeys [transparentFrame]) ∧
       colorKeyOf (rgb entry) = color entry) ∧
    StronglySorted descending palette.
Proof.
  split; [exact palette_witness_valid|].
  exact (palette_counts_visible_pixels [transparentFrame]
           palette_witness_valid).
Defined.

(** ** Palette indices without a colour-table entry *)






(** ** The mapping table *)

Lemma find_key_None (mappings : list ColorMapping) (key : string) :
  find (λ m, bool_decide (originalColor m = key)) mappings = None ↔
  key ∉ mappingKeys mappings.
Proof.
  unfold mappingKeys. induction mappings as [|m ms IH]; simpl.
  - rewrite elem_of_nil. tauto.
  - rewrite not_elem_of_cons. case_bool_decide as Hm.
    + split; [done|]. intros [Hne _]. by destruct Hne.
    + rewrite IH. split; [|tauto]. intros ?. split; [congruence|done].
Qed.

Lemma handleColorSelect_mappings st colorInfo :
  colorMappings (handleColorSelect st colorInfo)
  = if bool_decide (color colorInfo ∈ mappingKeys (colorMappings st))
    then colorMappings st
    else colorMappings st ++ [selfMapping colorInfo].
Proof.
  unfold handleColorSelect.
  destruct (find _ (colorMappings st)) as [m|] eqn:Hfind.
  - rewrite bool_decide_eq_true_2; [done|].
    destruct (decide (color colorInfo ∈ mappingKeys (colorMappings st)))
      as [|Hno]; [done|].
    apply find_key_None in Hno. congruence.
  - apply find_key_None in Hfind. by rewrite bool_decide_eq_false_2.
Qed.

Lemma applyMappings_mappings updatedMappings st :
  colorMappings (after (applyMappings updatedMappings st)) = colorMappings st.
Proof.
  unfold applyMappings. destruct (0 <? length (frames st))%nat; [|done].
  by destruct (remapFramesColors _ _).
Qed.

Lemma updateColorMapping_keys st newColor' :
  mappingKeys (colorMappings (after (updateColorMapping st newColor')))
  = mappingKeys (colorMappings st).
Proof.
  unfold updateColorMapping. destruct (selectedColor st) as [sel|]; [|done].
  destruct (validateHexColor newColor') as [validated|]; [|done].
  rewrite applyMappings_mappings. simpl. unfold mappingKeys.
  rewrite <-list_fmap_compose. apply list_fmap_ext.
  intros _ m _. simpl. by case_bool_decide.
Qed.

Lemma removeColorMapping_mappings st key :
  colorMappings (after (removeColorMapping st key))
  = filter (λ mapping, originalColor mapping ≠ key) (colorMappings st).
Proof.
  unfold removeColorMapping. rewrite applyMappings_mappings.
  destruct (selectedColor st) as [sel|]; [|done].
  by case_bool_decide.
Qed.

Lemma parseGifFile_mappings st decoded :
  colorMappings (parseGifFile st decoded)
  = match decoded with Some _ => [] | None => colorMappings st end.
Proof.
  unfold parseGifFile. destruct decoded as [parsed|]; [|done].
  by destruct (extractColorPalette parsed).
Qed.

Lemma step_keys_NoDup st ev :
  NoDup (mappingKeys (colorMappings st)) →
  NoDup (mappingKeys (colorMappings (step st ev))).
Proof.
  intros Hnd. destruct ev as [decoded|colorInfo|newColor'|key|]; simpl.
  - rewrite parseGifFile_mappings. destruct decoded; [constructor|done].
  - rewrite handleColorSelect_mappings. case_bool_decide as Hin; [done|].
    unfold mappingKeys. rewrite fmap_app. apply NoDup_app.
    split; [done|]. split; [|apply NoDup_singleton].
    intros k Hk. simpl. rewrite list_elem_of_singleton. by intros ->.
  - by rewrite updateColorMapping_keys.
  - rewrite removeColorMapping_mappings. unfold mappingKeys.
    eapply sublist_NoDup; [exact Hnd|].
    apply fmap_sublist, sublist_filter.
  - constructor.
Qed.

Lemma run_keys_NoDup evs :
  ∀ st, NoDup (mappingKeys (colorMappings st)) →
        NoDup (mappingKeys (colorMappings (run st evs))).
Proof.
  induction evs as [|ev evs IH]; intros st Hnd; [done|].
  simpl. apply IH. by apply step_keys_NoDup.
Qed.

(** C7.  Starting from an empty mapping table, after any sequence of events
    (select, update, remove, and also load and reset) no two entries of the
    table have the same [originalColor]; and selecting a colour that already
    has an entry leaves the table as it is. *)
Theorem mapping_keys_unique (st : AppState) (evs : list event) :
  colorMappings st = [] →
  NoDup (mappingKeys (colorMappings (run st evs))) ∧
  ∀ colorInfo,
    color colorInfo ∈ mappingKeys (colorMappings (run st evs)) →
    colorMappings (handleColorSelect (run st evs) colorInfo)
    = colorMappings (run st evs).
Proof.
  intros Hempty. split.
  - apply run_keys_NoDup. rewrite Hempty. constructor.
  - intros colorInfo Hin. rewrite handleColorSelect_mappings.
    by rewrite bool_decide_eq_true_2.
Qed.

Lemma mapping_keys_unique_witness :
  colorMappings initialState = [] ∧
  NoDup (mappingKeys (colorMappings
    (run initialState
       [Select redEntry; Update "#00f"; Select greenEntry; Select redEntry;
        Remove "rgb(0,255,0)"]))) ∧
  colorMappings
    (handleColorSelect
       (run initialState
          [Select redEntry; Update "#00f"; Select greenEntry; Select redEntry;
           Remove "rgb(0,255,0)"]) redEntry)
  = colorMappings
      (run initialState
         [Select redEntry; Update "#00f"; Select greenEntry; Select redEntry;
          Remove "rgb(0,255,0)"]).
Proof.
  split; [reflexivity|].
  destruct (mapping_keys_unique initialState
              [Select redEntry; Update "#00f"; Select greenEntry;
               Select redEntry; Remove "rgb(0,255,0)"] eq_refl)
    as [Hnd Hsel].
  split; [exact Hnd|]. apply Hsel. vm_compute. constructor.
Defined.

(** ** Hex validation *)

Lemma isHexDigit_spec c : isHexDigit c = bool_decide (c ∈ hexDigits).
Proof.
  destruct c as [[] [] [] [] [] [] [] []]; vm_compute; reflexivity.
Qed.

Lemma allHex_spec s :
  allHex s = true ↔ Forall (λ c, c ∈ hexDigits) (list_ascii_of_string s).
Proof.
  induction s as [|c s IH]; simpl.
  - split; [constructor|done].
  - rewrite andb_true_iff, Forall_cons, IH, isHexDigit_spec.
    by rewrite bool_decide_eq_true.
Qed.

Lemma hexBody3or6_spec s : hexBody3or6 s = Some () ↔ hexDigitString s.
Proof.
  unfold hexBody3or6, hexDigitString. rewrite <-allHex_spec.
  destruct (allHex s); simpl; [|naive_solver].
  destruct (String.length s =? 3)%nat eqn:H3; simpl.
  { apply Nat.eqb_eq in H3. naive_solver. }
  destruct (String.length s =? 6)%nat eqn:H6.
  { apply Nat.eqb_eq in H6. naive_solver. }
  apply Nat.eqb_neq in H3, H6. naive_solver.
Qed.

Lemma hexBody3or6_None s : hexBody3or6 s = None ↔ ¬ hexDigitString s.
Proof.
  rewrite <-hexBody3or6_spec. destruct (hexBody3or6 s) as [[]|]; naive_solver.
Qed.

Lemma hexDigitString_no_hash c rest :
  hexDigitString (String c rest) → Ascii.eqb c "#" = false.
Proof.
  intros [Hall _]. simpl in Hall. apply Forall_cons in Hall as [Hc _].
  destruct (Ascii.eqb_spec c "#") as [->|]; [|done].
  vm_compute in Hc. by repeat (inversion Hc as [|??? Hc']; clear Hc;
                                  rename Hc' into Hc; subst).
Qed.

Lemma hexDigitString_nonempty : ¬ hexDigitString EmptyString.
Proof. intros [_ [H|H]]; discriminate H. Qed.

Lemma hexRegex_test_spec s :
  hexRegex_test s = true ↔ ∃ digits, hexForm s digits.
Proof.
  unfold hexRegex_test, hexForm. rewrite bool_decide_eq_true. split.
  - intros [[] Hsome]. destruct s as [|c rest]; simpl in Hsome.
    { apply hexBody3or6_spec in Hsome. by destruct hexDigitString_nonempty. }
    destruct (Ascii.eqb_spec c "#") as [->|Hc].
    + destruct (hexBody3or6 rest) as [[]|] eqn:Hrest.
      * exists rest. split; [by right|]. by apply hexBody3or6_spec.
      * exists (String "#" rest). split; [by left|].
        by apply hexBody3or6_spec.
    + exists (String c rest). split; [by left|]. by apply hexBody3or6_spec.
  - intros (digits & [->| ->] & Hd).
    + destruct digits as [|c rest]; [by destruct hexDigitString_nonempty|].
      simpl. rewrite (hexDigitString_no_hash _ _ Hd).
      exists (). by apply hexBody3or6_spec.
    + simpl. apply hexBody3or6_spec in Hd. rewrite Hd. by exists ().
Qed.

Lemma withHash_hexForm s digits :
  hexForm s digits → withHash s = String "#" digits.
Proof.
  intros [[->| ->] Hd]; unfold withHash; simpl; [|done].
  destruct digits as [|c rest]; [by destruct hexDigitString_nonempty|].
  simpl. by rewrite (hexDigitString_no_hash _ _ Hd).
Qed.

Lemma validateHexColor_valid s digits :
  hexForm s digits → validateHexColor s = Some (normalizedHex digits).
Proof.
  intros Hform. unfold validateHexColor.
  rewrite (proj2 (hexRegex_test_spec s)) by eauto. simpl.
  rewrite (withHash_hexForm _ _ Hform).
  destruct Hform as [_ [_ [Hlen|Hlen]]]; unfold normalizedHex;
    rewrite Hlen; simpl.
  - destruct digits as [|r [|g [|b [|]]]]; try discriminate Hlen. done.
  - rewrite Hlen. done.
Qed.

Lemma validateHexColor_invalid s :
  (¬ ∃ digits, hexForm s digits) → validateHexColor s = None.
Proof.
  intros Hno. unfold validateHexColor.
  destruct (hexRegex_test s) eqn:Htest; [|done].
  apply hexRegex_test_spec in Htest. by destruct Hno.
Qed.

Lemma applyMappings_warnings updatedMappings st :
  warnings (after (applyMappings updatedMappings st)) = warnings st.
Proof.
  unfold applyMappings. destruct (0 <? length (frames st))%nat; [|done].
  by destruct (remapFramesColors _ _).
Qed.

(** C8.  With a colour selected: when the string given to
    [updateColorMapping] is not an optionally [#]-prefixed sequence of
    exactly 3 or 6 hex digits, the handler returns without an exception, the
    mapping table (and the derived frames) stay as they were and one warning
    carrying the string is sent to the console; when it is such a string,
    [validateHexColor] yields the [#]-prefixed 6-digit form with the case of
    the digits kept, and every entry whose [originalColor] is the selected
    colour gets it as [newColor] (with the matching [newRgb]), the other
    entries being kept.  [validateHexColor "abc"] is ["#aabbcc"] and
    [validateHexColor "#1234"] is invalid. *)
Theorem update_validates_hex (st : AppState) (selected : ColorCount)
    (newColor' : string) :
  selectedColor st = Some selected →
  ((¬ ∃ digits, hexForm newColor' digits) →
   thrown (updateColorMapping st newColor') = None ∧
   colorMappings (after (updateColorMapping st newColor')) = colorMappings st ∧
   remappedFrames (after (updateColorMapping st newColor'))
   = remappedFrames st ∧
   warnings (after (updateColorMapping st newColor'))
   = warnings st ++ [newColor']) ∧
  (∀ digits, hexForm newColor' digits →
   validateHexColor newColor' = Some (normalizedHex digits) ∧
   colorMappings (after (updateColorMapping st newColor'))
   = retarget (color selected) (normalizedHex digits) <$> colorMappings st ∧
   warnings (after (updateColorMapping st newColor')) = warnings st) ∧
  validateHexColor "abc" = Some "#aabbcc" ∧
  validateHexColor "#1234" = None.
Proof.
  intros Hsel. unfold updateColorMapping. rewrite Hsel. repeat split.
  - by rewrite validateHexColor_invalid.
  - by rewrite validateHexColor_invalid.
  - by rewrite validateHexColor_invalid.
  - by rewrite validateHexColor_invalid.
  - by apply validateHexColor_valid.
  - rewrite (validateHexColor_valid _ _ H). by rewrite applyMappings_mappings.
  - rewrite (validateHexColor_valid _ _ H). by rewrite applyMappings_warnings.
Qed.

Lemma update_validates_hex_witness :
  selectedColor selectedRed = Some redEntry ∧
  warnings (after (updateColorMapping selectedRed "#1234")) = ["#1234"] ∧
  colorMappings (after (updateColorMapping selectedRed "#1234"))
  = colorMappings selectedRed ∧
  newColor <$> colorMappings (after (updateColorMapping selectedRed "0fA"))
  = ["#00ffAA"].
Proof.
  assert (Hsel : selectedColor selectedRed = Some redEntry) by reflexivity.
  destruct (update_validates_hex selectedRed redEntry "#1234" Hsel)
    as (Hbad & _ & _).
  destruct (update_validates_hex selectedRed redEntry "0fA" Hsel)
    as (_ & Hgood & _).
  split; [exact Hsel|].
  destruct Hbad as (_ & Hm & _ & Hw).
  { intros (digits & [Heq|Heq] & Hall & Hlen).
    - subst digits. destruct Hlen as [Hlen|Hlen]; discriminate Hlen.
    - injection Heq as <-. destruct Hlen as [Hlen|Hlen]; discriminate Hlen. }
  split; [exact Hw|]. split; [exact Hm|].
  destruct (Hgood "0fA") as (_ & Hm' & _).
  { split; [by left|]. split; [|by left].
    repeat constructor; vm_compute;
      repeat (first [apply list_elem_of_here|apply list_elem_of_further]). }
  rewrite Hm'. reflexivity.
Defined.

(** ** Colour keys determine the colour *)

Lemma append_sep_inj c s1 :
  ∀ s2 t1 t2,
    ¬ occursIn c s1 → ¬ occursIn c s2 →
    s1 +:+ String c t1 = s2 +:+ String c t2 → s1 = s2 ∧ t1 = t2.
Proof.
  induction s1 as [|a s1 IH]; intros [|b s2] t1 t2 H1 H2 Heq; simpl in *.
  - by injection Heq as ->.
  - injection Heq as -> _. destruct H2. by left.
  - injection Heq as -> _. destruct H1. by left.
  - injection Heq as -> Heq.
    destruct (IH s2 t1 t2) as [-> ->]; [tauto|tauto|done|done].
Qed.

Lemma pretty_N_char_numeral x : numeralChar (pretty_N_char x).
Proof.
  unfold pretty_N_char.
  repeat case_match; apply (bool_decide_unpack (numeralChar _));
    vm_compute; exact I.
Qed.

Lemma pretty_N_go_chars x :
  ∀ s c, occursIn c (pretty_N_go x s) → numeralChar c ∨ occursIn c s.
Proof.
  induction (N.lt_wf_0 x) as [x _ IH]; intros s c.
  destruct (decide (x = 0%N)) as [->|Hx].
  - rewrite pretty_N_go_0. by right.
  - rewrite pretty_N_go_step by lia. intros Hc.
    apply IH in Hc; [|apply N.div_lt; lia].
    destruct Hc as [Hc|[->|Hc]]; [by left| |by right].
    left. apply pretty_N_char_numeral.
Qed.

Lemma pretty_positive_chars (p : positive) c :
  occursIn c (pretty p) → numeralChar c.
Proof.
  unfold pretty, pretty_positive, pretty, pretty_N.
  rewrite decide_False by done.
  intros [H|[]]%pretty_N_go_chars. done.
Qed.

Lemma pretty_Z_chars (z : Z) c : occursIn c (pretty z) → numeralChar c.
Proof.
  destruct z as [|p|p].
  - change (occursIn c "0" → numeralChar c). intros [->|[]].
    apply (bool_decide_unpack (numeralChar _)). vm_compute. exact I.
  - exact (pretty_positive_chars p c).
  - change (occursIn c (String "-" (pretty p)) → numeralChar c).
    intros [->|H]; [|by apply (pretty_positive_chars p)].
    apply (bool_decide_unpack (numeralChar _)). vm_compute. exact I.
Qed.

Lemma pretty_Z_no_sep (z : Z) c :
  ¬ numeralChar c → ¬ occursIn c (pretty z).
Proof. intros Hc Hin. by apply Hc, (pretty_Z_chars z). Qed.

Lemma comma_not_numeral : ¬ numeralChar ","%char.
Proof. apply (bool_decide_eq_false_1 (numeralChar ",")). vm_compute. done. Qed.

Lemma paren_not_numeral : ¬ numeralChar ")"%char.
Proof. apply (bool_decide_eq_false_1 (numeralChar ")")). vm_compute. done. Qed.

(** Two integer triples with the same key are the same triple. *)
Lemma colorKeyOf_inj (c1 c2 : RGB) : colorKeyOf c1 = colorKeyOf c2 → c1 = c2.
Proof.
  destruct c1 as [[r1 g1] b1], c2 as [[r2 g2] b2]. unfold colorKeyOf.
  pose proof (pretty_Z_no_sep r1 _ comma_not_numeral) as Hr1.
  pose proof (pretty_Z_no_sep r2 _ comma_not_numeral) as Hr2.
  pose proof (pretty_Z_no_sep g1 _ comma_not_numeral) as Hg1.
  pose proof (pretty_Z_no_sep g2 _ comma_not_numeral) as Hg2.
  pose proof (pretty_Z_no_sep b1 _ paren_not_numeral) as Hb1.
  pose proof (pretty_Z_no_sep b2 _ paren_not_numeral) as Hb2.
  pose proof (@pretty_Z_inj r1 r2) as Hr.
  pose proof (@pretty_Z_inj g1 g2) as Hg.
  pose proof (@pretty_Z_inj b1 b2) as Hb.
  generalize dependent (pretty r1). generalize dependent (pretty r2).
  generalize dependent (pretty g1). generalize dependent (pretty g2).
  generalize dependent (pretty b1). generalize dependent (pretty b2).
  intros pb2 Hb2 pb1 Hb1 Hb pg2 Hg2 pg1 Hg1 Hg pr2 Hr2 pr1 Hr1 Hr Heq.
  cbn in Heq. injection Heq as Heq.
  apply append_sep_inj in Heq as [-> Heq]; [|done..].
  apply append_sep_inj in Heq as [-> Heq]; [|done..].
  apply append_sep_inj in Heq as [-> _]; [|done..].
  by rewrite (Hr eq_refl), (Hg eq_refl), (Hb eq_refl).
Qed.

(** ** The derived frames follow the mapping table *)

Lemma arrayMapM_ext {A B} (f g : A → result B) (l : list A) :
  (∀ x, f x = g x) → arrayMapM f l = arrayMapM g l.
Proof.
  intros Hfg. induction l as [|x l IH]; simpl; [done|].
  by rewrite Hfg, IH.
Qed.

Lemma arrayMapM_id {A} (f : A → result A) (l : list A) :
  Forall (λ x, f x = Ok x) l → arrayMapM f l = Ok l.
Proof.
  induction 1 as [|x l Hx _ IH]; simpl; [done|].
  by rewrite Hx, IH.
Qed.

Lemma remapFrame_throws mappings frame :
  ¬ validPixels frame → remapFrame mappings frame = Throw TypeError.
Proof.
  intros Hno. destruct (remapFrame mappings frame) as [f'|[]] eqn:H; [|done].
  destruct Hno. by eapply remapFrame_valid.
Qed.

Lemma slotAfter_ext mappings1 mappings2 frame seen idx :
  (∀ c, remapColor mappings1 c = remapColor mappings2 c) →
  slotAfter mappings1 frame seen idx = slotAfter mappings2 frame seen idx.
Proof.
  intros Hext. unfold slotAfter. case_bool_decide; [|done].
  destruct (colorTable frame !! idx); simpl; [|done]. by rewrite Hext.
Qed.

(** [remapFrame] depends on the mapping list only through the colour each
    colour is sent to. *)
Lemma remapFrame_ext mappings1 mappings2 frame :
  (∀ c, remapColor mappings1 c = remapColor mappings2 c) →
  remapFrame mappings1 frame = remapFrame mappings2 frame.
Proof.
  intros Hext. destruct (decide (validPixels frame)) as [Hv|Hv].
  - destruct (remapFrame_total mappings1 frame Hv) as [f1 H1].
    destruct (remapFrame_total mappings2 frame Hv) as [f2 H2].
    rewrite H1, H2. f_equal.
    pose proof (remapFrame_colorTable _ _ _ H1) as Hs1.
    pose proof (remapFrame_colorTable _ _ _ H2) as Hs2.
    apply remapFrame_Ok in H1 as (t1 & _ & ->).
    apply remapFrame_Ok in H2 as (t2 & _ & ->). simpl in *.
    assert (t1 = t2) as ->; [|done].
    apply list_eq. intros idx. rewrite Hs1, Hs2. by apply slotAfter_ext.
  - by rewrite !remapFrame_throws.
Qed.

Lemma remapFrame_identity mappings frame :
  wellFormedFrame frame →
  (∀ c, remapColor mappings c = c) →
  remapFrame mappings frame = Ok frame.
Proof.
  intros [Hv Hpatch] Hid.
  destruct (remapFrame_total mappings frame Hv) as [f1 H1]. rewrite H1.
  pose proof (remapFrame_colorTable _ _ _ H1) as Hs1.
  apply remapFrame_Ok in H1 as (t1 & _ & ->). simpl in *.
  assert (t1 = colorTable frame) as ->.
  { apply list_eq. intros idx. rewrite Hs1. unfold slotAfter.
    case_bool_decide; [|done].
    destruct (colorTable frame !! idx); simpl; [|done]. by rewrite Hid. }
  rewrite <-Hpatch. by destruct frame.
Qed.

Lemma findMapping_app mappings1 mappings2 key :
  findMapping (mappings1 ++ mappings2) key
  = match findMapping mappings1 key with
    | Some m => Some m
    | None => findMapping mappings2 key
    end.
Proof.
  unfold findMapping. induction mappings1 as [|m ms IH]; simpl; [done|].
  by case_bool_decide.
Qed.

(** Appending the placeholder of a keyed palette entry changes the colour no
    colour is sent to. *)
Lemma remapColor_selfMapping mappings colorInfo c :
  keyedEntry colorInfo →
  remapColor (mappings ++ [selfMapping colorInfo]) c = remapColor mappings c.
Proof.
  unfold keyedEntry, remapColor. intros Hkey. rewrite findMapping_app.
  destruct (findMapping mappings (colorKeyOf c)); [done|].
  unfold findMapping. simpl. case_bool_decide as Hc; [|done]. simpl.
  apply colorKeyOf_inj. congruence.
Qed.

Lemma remapFramesColors_total gifFrames mappings :
  Forall validPixels gifFrames →
  ∃ out, remapFramesColors gifFrames mappings = Ok out.
Proof.
  intros Hv. unfold remapFramesColors. case_bool_decide; [by eexists|].
  apply arrayMapM_total. eapply Forall_impl; [exact Hv|].
  intros f Hf. by apply remapFrame_total.
Qed.

Lemma copyFrame_id frame : copyFrame frame = frame.
Proof. by destruct frame. Qed.

Lemma map_copyFrame gifFrames : map copyFrame gifFrames = gifFrames.
Proof.
  induction gifFrames as [|f fs IH]; simpl; [done|].
  by rewrite copyFrame_id, IH.
Qed.

Lemma settled_valid st : settled st → Forall validPixels (frames st).
Proof.
  intros [_ Hwf]. eapply Forall_impl; [exact Hwf|]. by intros f [? _].
Qed.

Lemma applyMappings_settled updatedMappings st st1 :
  settled st →
  frames st1 = frames st →
  remappedFrames st1 = remappedFrames st →
  colorMappings st1 = updatedMappings →
  settled (after (applyMappings updatedMappings st1)).
Proof.
  intros Hst Hf Hr Hm. pose proof (settled_valid _ Hst) as Hv.
  destruct Hst as [Hcons Hwf].
  assert (Hframes : frames (after (applyMappings updatedMappings st1))
                    = frames st).
  { unfold applyMappings. destruct (0 <? length (frames st1))%nat; [|done].
    by destruct (remapFramesColors _ _). }
  split; [|by rewrite Hframes].
  unfold consistent. rewrite Hframes, applyMappings_mappings, Hm.
  unfold applyMappings. rewrite Hf.
  destruct (0 <? length (frames st))%nat eqn:Hlen.
  - destruct (remapFramesColors_total (frames st) updatedMappings Hv)
      as [out Hout].
    by rewrite Hout.
  - apply Nat.ltb_ge in Hlen. simpl. rewrite Hr.
    unfold consistent in Hcons.
    destruct (frames st); [|simpl in Hlen; lia].
    unfold remapFramesColors in *. simpl in *.
    case_bool_decide; case_bool_decide; congruence.
Qed.

Lemma handleColorSelect_settled st colorInfo :
  settled st → keyedEntry colorInfo → settled (handleColorSelect st colorInfo).
Proof.
  intros [Hcons Hwf] Hkey. unfold settled, consistent in *.
  pose proof (handleColorSelect_mappings st colorInfo) as Hm.
  assert (Hf : frames (handleColorSelect st colorInfo) = frames st).
  { unfold handleColorSelect. by destruct (find _ _). }
  assert (Hr : remappedFrames (handleColorSelect st colorInfo)
               = remappedFrames st).
  { unfold handleColorSelect. by destruct (find _ _). }
  rewrite Hf, Hr, Hm. split; [|done].
  case_bool_decide; [done|].
  rewrite remapFramesColors_nonempty by (by destruct (colorMappings st)).
  destruct (decide (colorMappings st = [])) as [Hempty|Hne].
  - rewrite Hempty in *. injection Hcons as <-. simpl.
    apply arrayMapM_id. eapply Forall_impl; [exact Hwf|].
    intros f Hf'. apply remapFrame_identity; [done|].
    intros c. exact (remapColor_selfMapping [] colorInfo c Hkey).
  - rewrite remapFramesColors_nonempty in Hcons by done. rewrite <-Hcons.
    apply arrayMapM_ext. intros f. apply remapFrame_ext.
    intros c. by apply remapColor_selfMapping.
Qed.

Lemma applyMappings_palette updatedMappings st :
  colorPalette (after (applyMappings updatedMappings st)) = colorPalette st.
Proof.
  unfold applyMappings. destruct (0 <? length (frames st))%nat; [|done].
  by destruct (remapFramesColors _ _).
Qed.

Lemma step_shownKeyed st ev :
  shownKeyed st → okEvent st ev → shownKeyed (step st ev).
Proof.
  unfold shownKeyed. intros Hst Hev.
  destruct ev as [[parsed|]|colorInfo|newColor'|key|]; simpl.
  - unfold parseGifFile.
    destruct (extractColorPalette parsed) as [palette|e] eqn:Hpal; [|done].
    simpl. eapply extractColorPalette_keyed; [|exact Hpal].
    eapply Forall_impl; [exact Hev|]. by intros f [? _].
  - done.
  - unfold handleColorSelect. by destruct (find _ _).
  - unfold updateColorMapping. destruct (selectedColor st); [|done].
    destruct (validateHexColor newColor'); [|done].
    by rewrite applyMappings_palette.
  - unfold removeColorMapping. rewrite applyMappings_palette.
    destruct (selectedColor st) as [sel|]; [|done]. by case_bool_decide.
  - done.
Qed.

Lemma step_settled st ev :
  settled st → shownKeyed st → okEvent st ev → settled (step st ev).
Proof.
  intros Hst Hkeyed Hev.
  destruct ev as [[parsed|]|colorInfo|newColor'|key|]; simpl.
  - unfold parseGifFile.
    assert (settled (setRemappedFrames (map copyFrame parsed)
              (setSelectedColor None (setColorMappings []
                 (setFrames parsed (setError None st)))))) as [Hc Hw].
    { split; [|done]. unfold consistent. simpl. by rewrite map_copyFrame. }
    by destruct (extractColorPalette parsed).
  - done.
  - apply handleColorSelect_settled; [done|].
    by apply (proj1 (Forall_forall _ _) Hkeyed).
  - unfold updateColorMapping. destruct (selectedColor st); [|done].
    destruct (validateHexColor newColor'); [|done].
    by apply (applyMappings_settled _ st).
  - unfold removeColorMapping.
    set (updated := filter _ _).
    destruct (selectedColor st) as [sel|];
      [case_bool_decide|]; by apply (applyMappings_settled updated st).
  - destruct Hst as [_ Hwf]. split; [|done].
    unfold consistent. simpl. by rewrite map_copyFrame.
Qed.

Lemma run_settled evs :
  ∀ st, settled st → shownKeyed st → okSession st evs → settled (run st evs).
Proof.
  induction evs as [|ev evs IH]; intros st Hst Hkeyed Hevs; [done|].
  destruct Hevs as [Hev Hevs]. simpl.
  apply IH; [by apply step_settled|by apply step_shownKeyed|done].
Qed.

Lemma handleColorSelect_remappedFrames st colorInfo :
  remappedFrames (handleColorSelect st colorInfo) = remappedFrames st.
Proof. unfold handleColorSelect. by destruct (find _ _). Qed.

(** C3, as the code has it: [handleColorSelect] changes the mapping table and
    leaves the derived frames alone.  After loading [staleFrame] and
    selecting its only palette entry, the derived frames are the copies made
    on load while [remapFramesColors] on the originals and the table gives a
    regenerated patch; after loading a frame with a stray palette index and
    selecting an entry of the palette still shown, the derived frames are
    again the copies while [remapFramesColors] throws. *)
Lemma select_keeps_derived_frames :
  colorPalette (run initialState [Load (Some [staleFrame])])
  = [{| color := "rgb(255,0,0)"; count := 1; rgb := (255, 0, 0) |}] ∧
  (let st := run initialState
               [Load (Some [staleFrame]);
                Select {| color := "rgb(255,0,0)"; count := 1;
                          rgb := (255, 0, 0) |}] in
   colorMappings st ≠ [] ∧
   remappedFrames st = [staleFrame] ∧
   (patch <$> remappedFrames st) = [[0; 0; 0; 0]] ∧
   (∃ out, remapFramesColors (frames st) (colorMappings st) = Ok out ∧
           (patch <$> out) = [[255; 0; 0; 255]]) ∧
   ¬ consistent st) ∧
  (let st := run initialState
               [Load (Some [scenarioFrame (mkDims 2 2 0 0) 100 1
                              scenarioPatch]);
                Load (Some [strayFrame]);
                Select redEntry] in
   colorPalette st = [redEntry; greenEntry] ∧
   remappedFrames st = [strayFrame] ∧
   remapFramesColors (frames st) (colorMappings st) = Throw TypeError ∧
   ¬ consistent st).
Proof.
  split; [vm_compute; reflexivity|]. split.
  - cbv zeta. repeat split.
    + vm_compute. discriminate.
    + eexists. split; vm_compute; reflexivity.
    + unfold consistent. vm_compute. discriminate.
  - cbv zeta. repeat split.
    unfold consistent. vm_compute. discriminate.
Qed.

(** C3, amended.  When every loaded frame is well formed (a colour-table
    entry for every non-transparent pixel index, a patch that is the RGBA
    expansion of the pixels), then after any sequence of loads, selects of
    entries of the palette shown, updates, removes and resets, the published
    derived frames are what [remapFramesColors] gives on the original frames
    and the current mapping table.  [handleColorSelect] itself does not
    recompute them: it leaves the derived frames as they are. *)
Theorem derived_frames_follow_mappings (evs : list event) :
  okSession initialState evs →
  consistent (run initialState evs) ∧
  ∀ colorInfo,
    remappedFrames (handleColorSelect (run initialState evs) colorInfo)
    = remappedFrames (run initialState evs).
Proof.
  intros Hevs. split.
  - apply (run_settled evs initialState); [by split|constructor|done].
  - intros colorInfo. apply handleColorSelect_remappedFrames.
Qed.

Lemma derived_frames_follow_mappings_witness :
  okSession initialState sessionEvents ∧
  consistent (run initialState sessionEvents) ∧
  (∃ st, st = run initialState (take 3 sessionEvents) ∧
         consistent st ∧
         (patch <$> remappedFrames st)
         = [[0; 0; 255; 255; 0; 0; 255; 255; 0; 255; 0; 255; 0; 255; 0; 255]]).
Proof.
  assert (Hok : okSession initialState sessionEvents).
  { apply (bool_decide_unpack (okSession initialState sessionEvents)).
    vm_compute. exact I. }
  assert (Hok3 : okSession initialState (take 3 sessionEvents)).
  { apply (bool_decide_unpack (okSession initialState _)).
    vm_compute. exact I. }
  split; [exact Hok|]. split.
  - apply (derived_frames_follow_mappings sessionEvents Hok).
  - eexists. split; [reflexivity|]. split.
    + apply (derived_frames_follow_mappings (take 3 sessionEvents) Hok3).
    + vm_compute. reflexivity.
Defined.

(** ** Sharing between the frames passed in and the frames returned *)
Module StoreFacts.

(** The functions of the value embedding, under names that the store
    embedding's functions of the same name do not hide. *)
#[local] Abbreviation findMappingV := findMapping.
#[local] Abbreviation remapPixelV := remapPixel.
#[local] Abbreviation writePixelV := writePixel.
#[local] Abbreviation remapFrameV := remapFrame.
#[local] Abbreviation remapFramesColorsV := remapFramesColors.

Import Store.

Lemma bind_Done {A B} (m : M A) (k : A → M B) h b h'' :
  bind m k h = Done b h'' ↔ ∃ a h', m h = Done a h' ∧ k a h' = Done b h''.
Proof.
  unfold bind. destruct (m h) as [a h'| |]; [|naive_solver..].
  split; [by exists a, h'|]. by intros (? & ? & [= <- <-] & ?).
Qed.

Lemma ret_Done {A} (a b : A) h h' : ret a h = Done b h' ↔ b = a ∧ h' = h.
Proof. unfold ret. naive_solver. Qed.

Lemma alloc_Done o h l h' :
  alloc o h = Done l h' ↔ l = fresh (dom h) ∧ h' = <[l := o]> h.
Proof. unfold alloc. naive_solver. Qed.

Lemma store_Done l o h u h' :
  store l o h = Done u h' ↔ is_Some (h !! l) ∧ h' = <[l := o]> h.
Proof.
  unfold store. destruct (h !! l) eqn:E; [|split; [done|by intros [[] _]]].
  split; [intros [= _ <-]; by eauto|]. intros [_ ->]. by destruct u.
Qed.

Lemma readFrame_Done l h fr h' :
  readFrame l h = Done fr h' ↔ h !! l = Some (OFrame fr) ∧ h' = h.
Proof. unfold readFrame. destruct (h !! l) as [[]|]; naive_solver. Qed.

Lemma readBytes_Done l h bs h' :
  readBytes l h = Done bs h' ↔ h !! l = Some (OBytes bs) ∧ h' = h.
Proof. unfold readBytes. destruct (h !! l) as [[]|]; naive_solver. Qed.

Lemma readNums_Done l h ns h' :
  readNums l h = Done ns h' ↔ h !! l = Some (ONums ns) ∧ h' = h.
Proof. unfold readNums. destruct (h !! l) as [[]|]; naive_solver. Qed.

Lemma readTriple_Done l h c h' :
  readTriple l h = Done c h' ↔ h !! l = Some (OTriple c) ∧ h' = h.
Proof. unfold readTriple. destruct (h !! l) as [[]|]; naive_solver. Qed.

Lemma readRefs_Done l h ls h' :
  readRefs l h = Done ls h' ↔ h !! l = Some (ORefs ls) ∧ h' = h.
Proof. unfold readRefs. destruct (h !! l) as [[]|]; naive_solver. Qed.

Lemma fresh_lookup (h : gmap loc obj) : h !! fresh (dom h) = None.
Proof. apply not_elem_of_dom, is_fresh. Qed.

(** A loop whose iterations only ever overwrite the object at [l] leaves a
    store that differs from the one it started in at [l] alone. *)
Lemma forEach_overwrites {A} (f : A → M unit) (l : loc) (h : gmap loc obj) :
  (∀ x o h', f x (<[l := o]> h) = Done () h' → ∃ o', h' = <[l := o']> h) →
  ∀ xs o h', forEach f xs (<[l := o]> h) = Done () h' →
             ∃ o', h' = <[l := o']> h.
Proof.
  intros Hf xs. induction xs as [|x xs IH]; intros o h' Hrun; simpl in Hrun.
  - apply ret_Done in Hrun as [_ ->]. by exists o.
  - apply bind_Done in Hrun as ([] & h1 & Hx & Hrest).
    apply Hf in Hx as [o1 ->]. by eapply IH.
Qed.

Lemma remapPixel_overwrites mappings frame newColorTable h pixelIndex o h' :
  remapPixel mappings frame newColorTable pixelIndex
    (<[newColorTable := o]> h) = Done () h' →
  ∃ o', h' = <[newColorTable := o']> h.
Proof.
  unfold remapPixel. case_bool_decide.
  { intros [_ ->]%ret_Done. by exists o. }
  intros (table & h1 & [_ ->]%readRefs_Done & Hrun)%bind_Done.
  destruct (table !! pixelIndex) as [entry|]; [|done].
  apply bind_Done in Hrun as (c & h1 & [_ ->]%readTriple_Done & Hrun).
  destruct (findMapping mappings (colorKeyOf c)) as [m|].
  - apply bind_Done in Hrun as (cur & h1 & [_ ->]%readRefs_Done & Hrun).
    apply store_Done in Hrun as [_ ->]. rewrite insert_insert_eq. by eexists.
  - apply ret_Done in Hrun as [_ ->]. by exists o.
Qed.

Lemma writePixel_overwrites frame newColorTable newPatch h i o h' :
  writePixel frame newColorTable newPatch i (<[newPatch := o]> h)
    = Done () h' →
  ∃ o', h' = <[newPatch := o']> h.
Proof.
  unfold writePixel.
  intros (px & h1 & [_ ->]%readNums_Done & Hrun)%bind_Done.
  destruct (px !! i) as [colorIndex|].
  2:{ apply ret_Done in Hrun as [_ ->]. by exists o. }
  apply bind_Done in Hrun as (table & h1 & [_ ->]%readRefs_Done & Hrun).
  apply bind_Done in Hrun as ([[r g] b] & h1 & Hcolor & Hrun).
  assert (h1 = <[newPatch := o]> h) as ->.
  { destruct (table !! colorIndex).
    - by apply readTriple_Done in Hcolor as [_ ->].
    - by apply ret_Done in Hcolor as [_ ->]. }
  apply bind_Done in Hrun as (bytes & h1 & [_ ->]%readBytes_Done & Hrun).
  apply store_Done in Hrun as [_ ->]. rewrite insert_insert_eq. by eexists.
Qed.

(** The store [remapFrame] leaves: the one it started in, with three new
    objects. *)
Lemma remapFrame_shape mappings frameRef h frameRef' h' :
  remapFrame mappings frameRef h = Done frameRef' h' →
  ∃ fr table' bytes',
    let newColorTable := fresh (dom h) in
    let h1 := <[newColorTable := table']> h in
    let newPatch := fresh (dom h1) in
    let h2 := <[newPatch := bytes']> h1 in
    let fr' := {| o_dims := o_dims fr; o_delay := o_delay fr;
                  o_disposalType := o_disposalType fr;
                  o_patch := newPatch; o_pixels := o_pixels fr;
                  o_transparentIndex := o_transparentIndex fr;
                  o_colorTable := newColorTable |} in
    h !! frameRef = Some (OFrame fr) ∧
    frameRef' = fresh (dom h2) ∧
    h' = <[frameRef' := OFrame fr']> h2.
Proof.
  unfold remapFrame.
  intros (fr & h1 & [Hfr ->]%readFrame_Done & Hrun)%bind_Done.
  apply bind_Done in Hrun as (table & h1 & [_ ->]%readRefs_Done & Hrun).
  apply bind_Done in Hrun as (nct & h1 & [-> ->]%alloc_Done & Hrun).
  apply bind_Done in Hrun as (px & h1 & [_ ->]%readNums_Done & Hrun).
  apply bind_Done in Hrun as ([] & h1 & Hloop1 & Hrun).
  apply forEach_overwrites in Hloop1 as [table' ->];
    [|intros; by eapply remapPixel_overwrites].
  apply bind_Done in Hrun as (np & h2 & [-> ->]%alloc_Done & Hrun).
  apply bind_Done in Hrun as ([] & h2 & Hloop2 & Hrun).
  apply forEach_overwrites in Hloop2 as [bytes' ->];
    [|intros; by eapply writePixel_overwrites].
  apply alloc_Done in Hrun as [-> ->].
  exists fr, table', bytes'. cbv zeta. split; [done|].
  by rewrite !dom_insert_L.
Qed.

Lemma remapFrame_rebuilt mappings frameRef h frameRef' h' :
  remapFrame mappings frameRef h = Done frameRef' h' →
  h ⊆ h' ∧ rebuilt h h' frameRef frameRef'.
Proof.
  intros (fr & table' & bytes' & Hfr & -> & ->)%remapFrame_shape.
  set (nct := fresh (dom h)).
  set (h1 := <[nct := table']> h).
  set (np := fresh (dom h1)).
  set (h2 := <[np := bytes']> h1).
  set (l' := fresh (dom h2)).
  assert (Hnct : h !! nct = None) by apply fresh_lookup.
  assert (Hnp : h1 !! np = None) by apply fresh_lookup.
  assert (Hl' : h2 !! l' = None) by apply fresh_lookup.
  assert (H1 : h ⊆ h1) by (by apply insert_subseteq).
  assert (H2 : h1 ⊆ h2) by (by apply insert_subseteq).
  assert (H3 : h2 ⊆ <[l' := OFrame
                 {| o_dims := o_dims fr; o_delay := o_delay fr;
                    o_disposalType := o_disposalType fr; o_patch := np;
                    o_pixels := o_pixels fr;
                    o_transparentIndex := o_transparentIndex fr;
                    o_colorTable := nct |}]> h2)
    by (by apply insert_subseteq).
  assert (Hsub : ∀ (a b : gmap loc obj) l, a ⊆ b → b !! l = None →
                 a !! l = None).
  { intros a b l Hab Hb. destruct (a !! l) eqn:Ha; [|done].
    by rewrite (lookup_weaken _ _ _ _ Ha Hab) in Hb. }
  split; [by do 2 (etrans; [eassumption|])|].
  eexists fr, _. split; [done|]. split; [apply lookup_insert_eq|].
  simpl. repeat split.
  - eauto.
  - done.
  - eexists. eapply lookup_weaken; [|exact H3].
    eapply lookup_weaken; [|exact H2]. apply lookup_insert_eq.
  - eauto.
  - eexists. eapply lookup_weaken; [|exact H3]. apply lookup_insert_eq.
Qed.

Lemma rebuilt_weaken h0 h h' frameRef frameRef' h'' :
  h0 ⊆ h → h' ⊆ h'' →
  is_Some (h0 !! frameRef) →
  rebuilt h h' frameRef frameRef' → rebuilt h0 h'' frameRef frameRef'.
Proof.
  intros H0 H'' [o Ho] (fr & fr' & Hfr & Hfr' & Hn & Hc & Hc' & Hp & Hp' & Heq).
  assert (Hsub : ∀ l, h !! l = None → h0 !! l = None).
  { intros l Hl. destruct (h0 !! l) eqn:Ha; [|done].
    by rewrite (lookup_weaken _ _ _ _ Ha H0) in Hl. }
  exists fr, fr'. repeat split; try tauto; eauto using lookup_weaken.
  - pose proof (lookup_weaken _ _ _ _ Ho H0). congruence.
  - destruct Hc' as [x Hx]. exists x. by eapply lookup_weaken.
  - destruct Hp' as [x Hx]. exists x. by eapply lookup_weaken.
Qed.

Lemma Forall2_with_l {A B} (P : A → B → Prop) (Q : A → Prop) l k :
  Forall2 P l k → Forall Q l → Forall2 (λ x y, Q x ∧ P x y) l k.
Proof.
  induction 1 as [|x y l k Hxy _ IH]; intros HQ; [constructor|].
  apply Forall_cons in HQ as [Hx HQ]. constructor; [done|]. by apply IH.
Qed.

Lemma arrayMap_remapFrame mappings frameRefs :
  ∀ h out h',
    arrayMap (remapFrame mappings) frameRefs h = Done out h' →
    Forall (λ l, is_Some (h !! l)) frameRefs →
    h ⊆ h' ∧ Forall2 (rebuilt h h') frameRefs out.
Proof.
  induction frameRefs as [|l ls IH]; intros h out h' Hrun Hin; simpl in Hrun.
  - apply ret_Done in Hrun as [-> ->]. split; [done|constructor].
  - apply Forall_cons in Hin as [Hl Hls].
    apply bind_Done in Hrun as (l' & h1 & Hone & Hrun).
    apply bind_Done in Hrun as (ls' & h2 & Hrest & Hrun).
    apply ret_Done in Hrun as [-> ->].
    apply remapFrame_rebuilt in Hone as [H1 Hreb].
    apply IH in Hrest as [H2 Hrebs].
    2:{ eapply Forall_impl; [exact Hls|]. intros x [o Ho].
        exists o. by eapply lookup_weaken. }
    split; [by etrans|]. constructor.
    + by eapply (rebuilt_weaken h h h1).
    + eapply Forall2_impl; [exact (Forall2_with_l _ _ _ _ Hrebs Hls)|].
      intros x y [Hx Hxy]. by eapply (rebuilt_weaken h h1 h2).
Qed.

(** *** The store embedding computes what the value embedding computes *)

Lemma tripleAt_Some h l c : tripleAt h l = Some c ↔ h !! l = Some (OTriple c).
Proof. unfold tripleAt. destruct (h !! l) as [[]|]; naive_solver. Qed.

Lemma lookup_insert_old (h : gmap loc obj) l o x v :
  h !! l = None → h !! x = Some v → <[l := o]> h !! x = Some v.
Proof.
  intros Hl Hx. rewrite lookup_insert_ne; [done|]. intros ->. congruence.
Qed.

Lemma findMapping_related h mappings mappings' key :
  Forall2 (mappingAt h) mappings mappings' →
  match findMapping mappings key, findMappingV mappings' key with
  | Some m, Some mapping => mappingAt h m mapping
  | None, None => True
  | _, _ => False
  end.
Proof.
  unfold findMapping. unfold findMappingV.
  induction 1 as [|m mapping ms ms' [Hkey Hrgb] _ IH]; simpl; [done|].
  rewrite Hkey. by case_bool_decide.
Qed.

Lemma Forall2_lookup_None {A B} (P : A → B → Prop) l k i :
  Forall2 P l k → k !! i = None → l !! i = None.
Proof.
  intros Hlen%Forall2_length Hk. apply lookup_ge_None.
  apply lookup_ge_None in Hk. lia.
Qed.

Lemma bind_step {A B} (m : M A) (k : A → M B) h a h' :
  m h = Done a h' → bind m k h = k a h'.
Proof. unfold bind. by intros ->. Qed.

Lemma bind_raise {A B} (m : M A) (k : A → M B) h e :
  m h = Raise e → bind m k h = Raise e.
Proof. unfold bind. by intros ->. Qed.

Lemma readFrame_ok l h fr :
  h !! l = Some (OFrame fr) → readFrame l h = Done fr h.
Proof. unfold readFrame. by intros ->. Qed.

Lemma readBytes_ok l h bs :
  h !! l = Some (OBytes bs) → readBytes l h = Done bs h.
Proof. unfold readBytes. by intros ->. Qed.

Lemma readNums_ok l h ns :
  h !! l = Some (ONums ns) → readNums l h = Done ns h.
Proof. unfold readNums. by intros ->. Qed.

Lemma readTriple_ok l h c :
  h !! l = Some (OTriple c) → readTriple l h = Done c h.
Proof. unfold readTriple. by intros ->. Qed.

Lemma readRefs_ok l h ls :
  h !! l = Some (ORefs ls) → readRefs l h = Done ls h.
Proof. unfold readRefs. by intros ->. Qed.

Lemma store_ok l o h :
  is_Some (h !! l) → store l o h = Done () (<[l := o]> h).
Proof. unfold store. by intros [? ->]. Qed.

Section frame.
Context (h : gmap loc obj) (fr : FrameObj) (frame : GifFrame).
Context (mappings : list MappingRef) (mappings' : list ColorMapping).
Context (refs : list loc).
Hypothesis Hmappings : Forall2 (mappingAt h) mappings mappings'.
Hypothesis Hpixels : h !! o_pixels fr = Some (ONums (pixels frame)).
Hypothesis Htable : h !! o_colorTable fr = Some (ORefs refs).
Hypothesis Hrefs :
  Forall2 (λ l c, tripleAt h l = Some c) refs (colorTable frame).
Hypothesis Hti : o_transparentIndex fr = transparentIndex frame.

Lemma remapPixel_refines newColorTable current table pixelIndex :
  h !! newColorTable = None →
  Forall2 (λ l c, tripleAt h l = Some c) current table →
  match remapPixelV mappings' frame table pixelIndex with
  | Ok table' =>
      ∃ current',
        remapPixel mappings fr newColorTable pixelIndex
          (<[newColorTable := ORefs current]> h)
        = Done () (<[newColorTable := ORefs current']> h) ∧
        Forall2 (λ l c, tripleAt h l = Some c) current' table'
  | Throw e =>
      remapPixel mappings fr newColorTable pixelIndex
        (<[newColorTable := ORefs current]> h) = Raise e
  end.
Proof.
  intros Hnew Hcur. unfold remapPixel. unfold remapPixelV.
  unfold isTransparent. rewrite Hti. case_bool_decide; [by exists current|].
  rewrite (bind_step _ _ _ _ _
             (readRefs_ok _ _ _ (lookup_insert_old _ _ _ _ _ Hnew Htable))).
  destruct (colorTable frame !! pixelIndex) as [c|] eqn:Hc.
  - destruct (Forall2_lookup_r _ _ _ _ _ Hrefs Hc) as (entry & -> & Hentry).
    apply tripleAt_Some in Hentry.
    rewrite (bind_step _ _ _ _ _
               (readTriple_ok _ _ _
                  (lookup_insert_old _ _ _ _ _ Hnew Hentry))).
    pose proof (findMapping_related h mappings mappings' (colorKeyOf c)
                  Hmappings) as Hfind.
    destruct (findMapping mappings (colorKeyOf c)) as [m|],
      (findMappingV mappings' (colorKeyOf c)) as [mapping|]; try done.
    + exists (<[pixelIndex := m_newRgb m]> current). split.
      * rewrite (bind_step _ _ _ _ _
                   (readRefs_ok _ _ _ (lookup_insert_eq _ _ _))).
        rewrite store_ok by (rewrite lookup_insert_eq; eauto).
        by rewrite insert_insert_eq.
      * apply Forall2_insert; [done|]. by destruct Hfind.
    + by exists current.
  - by rewrite (Forall2_lookup_None _ _ _ _ Hrefs Hc).
Qed.

Lemma forEach_remapPixel_refines newColorTable px :
  h !! newColorTable = None →
  ∀ current table,
    Forall2 (λ l c, tripleAt h l = Some c) current table →
    match forEachM (remapPixelV mappings' frame) px table with
    | Ok table' =>
        ∃ current',
          forEach (remapPixel mappings fr newColorTable) px
            (<[newColorTable := ORefs current]> h)
          = Done () (<[newColorTable := ORefs current']> h) ∧
          Forall2 (λ l c, tripleAt h l = Some c) current' table'
    | Throw e =>
        forEach (remapPixel mappings fr newColorTable) px
          (<[newColorTable := ORefs current]> h) = Raise e
    end.
Proof.
  intros Hnew. induction px as [|p px IH]; intros current table Hcur; simpl.
  - by exists current.
  - pose proof (remapPixel_refines newColorTable current table p Hnew Hcur)
      as Hp.
    destruct (remapPixelV mappings' frame table p) as [t1|e]; simpl.
    + destruct Hp as (c1 & Hrun & Hc1). rewrite (bind_step _ _ _ _ _ Hrun).
      by apply IH.
    + by rewrite (bind_raise _ _ _ _ Hp).
Qed.

Lemma writePixel_refines newColorTable newPatch current table buffer i :
  h !! newColorTable = None →
  h !! newPatch = None →
  newPatch ≠ newColorTable →
  Forall2 (λ l c, tripleAt h l = Some c) current table →
  writePixel fr newColorTable newPatch i
    (<[newPatch := OBytes buffer]> (<[newColorTable := ORefs current]> h))
  = Done ()
      (<[newPatch := OBytes (writePixelV frame table buffer i)]>
         (<[newColorTable := ORefs current]> h)).
Proof.
  intros Hnct Hnp Hne Hcur. unfold writePixel. unfold writePixelV.
  assert (Hold : ∀ x v, h !! x = Some v →
            <[newPatch := OBytes buffer]>
              (<[newColorTable := ORefs current]> h) !! x = Some v).
  { intros x v Hx. apply lookup_insert_old;
      [by rewrite lookup_insert_ne|by apply lookup_insert_old]. }
  rewrite (bind_step _ _ _ _ _ (readNums_ok _ _ _ (Hold _ _ Hpixels))).
  destruct (pixels frame !! i) as [colorIndex|]; [|done].
  erewrite bind_step;
    [|apply readRefs_ok; rewrite lookup_insert_ne by done;
      apply lookup_insert_eq].
  assert (Hcolor :
    (match current !! colorIndex with
     | Some entry => readTriple entry
     | None => ret (0, 0, 0)
     end) (<[newPatch := OBytes buffer]>
             (<[newColorTable := ORefs current]> h))
    = Done (default (0, 0, 0) (table !! colorIndex))
        (<[newPatch := OBytes buffer]>
           (<[newColorTable := ORefs current]> h))).
  { destruct (table !! colorIndex) as [c|] eqn:Hc.
    - destruct (Forall2_lookup_r _ _ _ _ _ Hcur Hc)
        as (entry & -> & Hentry).
      apply tripleAt_Some in Hentry. by apply readTriple_ok, Hold.
    - by rewrite (Forall2_lookup_None _ _ _ _ Hcur Hc). }
  rewrite (bind_step _ _ _ _ _ Hcolor).
  destruct (default (0, 0, 0) (table !! colorIndex)) as [[r g] b].
  rewrite (bind_step _ _ _ _ _ (readBytes_ok _ _ _ (lookup_insert_eq _ _ _))).
  rewrite store_ok by (rewrite lookup_insert_eq; eauto).
  unfold isTransparent. by rewrite insert_insert_eq, Hti.
Qed.

Lemma forEach_writePixel_refines newColorTable newPatch current table positions :
  h !! newColorTable = None →
  h !! newPatch = None →
  newPatch ≠ newColorTable →
  Forall2 (λ l c, tripleAt h l = Some c) current table →
  ∀ buffer,
    forEach (writePixel fr newColorTable newPatch) positions
      (<[newPatch := OBytes buffer]> (<[newColorTable := ORefs current]> h))
    = Done ()
        (<[newPatch := OBytes (foldl (writePixelV frame table) buffer positions)]>
           (<[newColorTable := ORefs current]> h)).
Proof.
  intros Hnct Hnp Hne Hcur. induction positions as [|i positions IH]; intros buffer;
    simpl; [done|].
  rewrite (bind_step _ _ _ _ _
             (writePixel_refines _ _ _ _ _ _ Hnct Hnp Hne Hcur)).
  apply IH.
Qed.
End frame.

Lemma frameAt_Some h frameRef frame :
  frameAt h frameRef = Some frame →
  ∃ fr refs,
    h !! frameRef = Some (OFrame fr) ∧
    h !! o_dims fr = Some (ODims (dims frame)) ∧
    h !! o_patch fr = Some (OBytes (patch frame)) ∧
    h !! o_pixels fr = Some (ONums (pixels frame)) ∧
    h !! o_colorTable fr = Some (ORefs refs) ∧
    Forall2 (λ l c, tripleAt h l = Some c) refs (colorTable frame) ∧
    o_delay fr = delay frame ∧
    o_disposalType fr = disposalType frame ∧
    o_transparentIndex fr = transparentIndex frame.
Proof.
  unfold frameAt.
  destruct (h !! frameRef) as [[fr| | | | |]|] eqn:Hfr; try done.
  destruct (h !! o_dims fr) as [[|d| | | |]|] eqn:Hd; try done.
  destruct (h !! o_patch fr) as [[| |bs| | |]|] eqn:Hp; try done.
  destruct (h !! o_pixels fr) as [[| | |ns| |]|] eqn:Hn; try done.
  destruct (h !! o_colorTable fr) as [[| | | | |refs]|] eqn:Ht; try done.
  destruct (mapM (tripleAt h) refs) as [table|] eqn:Htable; [|done].
  simpl. intros [= <-]. simpl. apply mapM_Some in Htable.
  exists fr, refs. by repeat split.
Qed.

Lemma frameAt_intro h frameRef fr refs d bs ns table :
  h !! frameRef = Some (OFrame fr) →
  h !! o_dims fr = Some (ODims d) →
  h !! o_patch fr = Some (OBytes bs) →
  h !! o_pixels fr = Some (ONums ns) →
  h !! o_colorTable fr = Some (ORefs refs) →
  Forall2 (λ l c, tripleAt h l = Some c) refs table →
  frameAt h frameRef
  = Some {| dims := d; delay := o_delay fr;
            disposalType := o_disposalType fr; patch := bs; pixels := ns;
            transparentIndex := o_transparentIndex fr;
            colorTable := table |}.
Proof.
  intros Hfr Hd Hp Hn Ht Hrefs. unfold frameAt.
  rewrite Hfr, Hd, Hp, Hn, Ht.
  by rewrite (proj2 (mapM_Some (tripleAt h) refs table) Hrefs).
Qed.

Lemma tripleAt_weaken h h' l c :
  h ⊆ h' → tripleAt h l = Some c → tripleAt h' l = Some c.
Proof.
  intros Hsub Hl%tripleAt_Some. apply tripleAt_Some.
  by eapply lookup_weaken.
Qed.

Lemma frameAt_weaken h h' frameRef frame :
  h ⊆ h' → frameAt h frameRef = Some frame → frameAt h' frameRef = Some frame.
Proof.
  intros Hsub (fr & refs & Hfr & Hd & Hp & Hn & Ht & Hrefs & Hdl & Hdt & Hti)
    %frameAt_Some.
  rewrite (frameAt_intro h' frameRef fr refs (dims frame) (patch frame)
             (pixels frame) (colorTable frame));
    eauto using lookup_weaken.
  - rewrite Hdl, Hdt, Hti. by destruct frame.
  - eapply Forall2_impl; [exact Hrefs|]. intros l c.
    by apply tripleAt_weaken.
Qed.

Lemma mappingAt_weaken h h' m mapping :
  h ⊆ h' → mappingAt h m mapping → mappingAt h' m mapping.
Proof. intros Hsub [? ?]. split; [done|]. by eapply tripleAt_weaken. Qed.

(** [Store.remapFrame] on a reference to a frame does what [remapFrame] does
    on the frame: it throws when [remapFrame] throws, and otherwise returns a
    reference to the frame [remapFrame] returns, in a store that extends the
    one it started in. *)
Lemma remapFrame_refines h frameRef frame mappings mappings' :
  frameAt h frameRef = Some frame →
  Forall2 (mappingAt h) mappings mappings' →
  match remapFrameV mappings' frame with
  | Ok frame' =>
      ∃ frameRef' h',
        remapFrame mappings frameRef h = Done frameRef' h' ∧
        frameAt h' frameRef' = Some frame' ∧ h ⊆ h'
  | Throw e => remapFrame mappings frameRef h = Raise e
  end.
Proof.
  intros (fr & refs & Hfr & Hd & Hp & Hn & Ht & Hrefs & Hdl & Hdt & Hti)
    %frameAt_Some Hms.
  unfold remapFrame. unfold remapFrameV.
  rewrite (bind_step _ _ _ _ _ (readFrame_ok _ _ _ Hfr)).
  rewrite (bind_step _ _ _ _ _ (readRefs_ok _ _ _ Ht)).
  rewrite (bind_step (alloc _) _ h _ _ eq_refl).
  set (nct := fresh (dom h)).
  assert (Hnct : h !! nct = None) by apply fresh_lookup.
  rewrite (bind_step _ _ _ _ _
             (readNums_ok _ _ _ (lookup_insert_old _ _ _ _ _ Hnct Hn))).
  pose proof (forEach_remapPixel_refines h fr frame mappings mappings' refs
                Hms Ht Hrefs Hti nct (pixels frame) Hnct refs
                (colorTable frame) Hrefs) as Hloop.
  destruct (forEachM (remapPixelV mappings' frame) (pixels frame)
              (colorTable frame)) as [table'|e]; simpl.
  2:{ by rewrite (bind_raise _ _ _ _ Hloop). }
  destruct Hloop as (current' & Hloop & Hcur).
  rewrite (bind_step _ _ _ _ _ Hloop). clear Hloop.
  set (h1 := <[nct := ORefs current']> h).
  rewrite (bind_step (alloc _) _ h1 _ _ eq_refl).
  set (np := fresh (dom h1)).
  assert (Hnp1 : h1 !! np = None) by apply fresh_lookup.
  assert (Hne : np ≠ nct).
  { intros Heq. rewrite Heq in Hnp1. unfold h1 in Hnp1.
    by rewrite lookup_insert_eq in Hnp1. }
  assert (Hnp : h !! np = None).
  { unfold h1 in Hnp1. by rewrite lookup_insert_ne in Hnp1. }
  rewrite (bind_step _ _ _ _ _
             (forEach_writePixel_refines h fr frame Hn Hti nct np
                current' table' _ Hnct Hnp Hne Hcur _)).
  fold (regeneratePatch frame table').
  set (h2 := <[np := OBytes (regeneratePatch frame table')]> h1).
  unfold alloc. set (l' := fresh (dom h2)).
  set (fr' := {| o_dims := o_dims fr; o_delay := o_delay fr;
                 o_disposalType := o_disposalType fr; o_patch := np;
                 o_pixels := o_pixels fr;
                 o_transparentIndex := o_transparentIndex fr;
                 o_colorTable := nct |}).
  assert (Hl' : h2 !! l' = None) by apply fresh_lookup.
  assert (Hsub : h ⊆ <[l' := OFrame fr']> h2).
  { etrans; [apply (insert_subseteq h nct (ORefs current') Hnct)|].
    etrans; [apply (insert_subseteq h1 np
                      (OBytes (regeneratePatch frame table')) Hnp1)|].
    by apply insert_subseteq. }
  exists l', (<[l' := OFrame fr']> h2). split; [done|]. split; [|done].
  assert (Hnpl : np ≠ l').
  { intros Heq. rewrite <-Heq in Hl'. unfold h2 in Hl'.
    by rewrite lookup_insert_eq in Hl'. }
  assert (Hnctl : nct ≠ l').
  { intros Heq. rewrite <-Heq in Hl'. unfold h2, h1 in Hl'.
    by rewrite lookup_insert_ne, lookup_insert_eq in Hl'. }
  rewrite (frameAt_intro (<[l' := OFrame fr']> h2) l' fr' current'
             (dims frame) (regeneratePatch frame table') (pixels frame)
             table').
  - simpl. by rewrite Hdl, Hdt, Hti.
  - apply lookup_insert_eq.
  - by eapply lookup_weaken.
  - simpl. rewrite lookup_insert_ne by done. apply lookup_insert_eq.
  - by eapply lookup_weaken.
  - simpl. unfold h2, h1. rewrite !lookup_insert_ne by done.
    apply lookup_insert_eq.
  - eapply Forall2_impl; [exact Hcur|]. intros l c.
    by apply tripleAt_weaken.
Qed.

Lemma arrayMap_remapFrame_refines mappings mappings' frameRefs :
  ∀ h gifFrames,
    Forall2 (λ l frame, frameAt h l = Some frame) frameRefs gifFrames →
    Forall2 (mappingAt h) mappings mappings' →
    match arrayMapM (remapFrameV mappings') gifFrames with
    | Ok out' =>
        ∃ out h',
          arrayMap (remapFrame mappings) frameRefs h = Done out h' ∧
          Forall2 (λ l frame, frameAt h' l = Some frame) out out' ∧ h ⊆ h'
    | Throw e => arrayMap (remapFrame mappings) frameRefs h = Raise e
    end.
Proof.
  induction frameRefs as [|l ls IH]; intros h gifFrames Hfs Hms.
  - apply Forall2_nil_inv_l in Hfs as ->. simpl. exists [], h.
    by repeat split.
  - apply Forall2_cons_inv_l in Hfs as (f & fs & Hf & Hfs & ->). simpl.
    pose proof (remapFrame_refines h l f mappings mappings' Hf Hms) as Hone.
    destruct (remapFrameV mappings' f) as [f'|e]; simpl.
    2:{ by rewrite (bind_raise _ _ _ _ Hone). }
    destruct Hone as (l' & h1 & Hrun & Hf' & Hsub).
    rewrite (bind_step _ _ _ _ _ Hrun).
    assert (Hfs1 : Forall2 (λ l frame, frameAt h1 l = Some frame) ls fs).
    { eapply Forall2_impl; [exact Hfs|]. intros x y. by apply frameAt_weaken. }
    assert (Hms1 : Forall2 (mappingAt h1) mappings mappings').
    { eapply Forall2_impl; [exact Hms|]. intros x y.
      by apply mappingAt_weaken. }
    specialize (IH h1 fs Hfs1 Hms1).
    destruct (arrayMapM (remapFrameV mappings') fs) as [fs'|e]; simpl.
    + destruct IH as (out & h2 & Hrest & Hout & Hsub2).
      rewrite (bind_step _ _ _ _ _ Hrest). exists (l' :: out), h2.
      split; [done|]. split; [|by etrans].
      constructor; [|done]. by eapply frameAt_weaken.
    + by rewrite (bind_raise _ _ _ _ IH).
Qed.

(** The store embedding refines the value embedding. *)
Lemma remapFramesColors_refines h frameRefs gifFrames mappings mappings' :
  Forall2 (λ l frame, frameAt h l = Some frame) frameRefs gifFrames →
  Forall2 (mappingAt h) mappings mappings' →
  match remapFramesColorsV gifFrames mappings' with
  | Ok out' =>
      ∃ out h',
        remapFramesColors frameRefs mappings h = Done out h' ∧
        Forall2 (λ l frame, frameAt h' l = Some frame) out out' ∧ h ⊆ h'
  | Throw e => remapFramesColors frameRefs mappings h = Raise e
  end.
Proof.
  intros Hfs Hms. unfold remapFramesColors. unfold remapFramesColorsV.
  rewrite <-(Forall2_length _ _ _ Hms).
  case_bool_decide.
  - exists frameRefs, h. by repeat split.
  - by apply arrayMap_remapFrame_refines.
Qed.

(** C2, as the code has it.  With an empty mapping list the array returned
    holds the very frame objects that were passed in, so every buffer is
    shared; with a mapping to apply, the frame returned is a new object with
    a new colour table and a new patch, but its [pixels] and [dims] are the
    objects of the frame passed in, and its colour table refers to a triple
    of the original table. *)
Lemma remap_shares_storage :
  (remapFramesColors [1%positive] [] sampleStore
   = Done [1%positive] sampleStore ∧
   ¬ independent sampleStore [1%positive] [1%positive]) ∧
  (remapFramesColors [1%positive] [redToBlueRef] sampleStore
   = Done [11%positive] sampleStoreAfter ∧
   frameParts sampleStoreAfter 1%positive = [1; 2; 3; 4; 5; 6; 7]%positive ∧
   frameParts sampleStoreAfter 11%positive = [11; 2; 10; 4; 9; 8; 7]%positive ∧
   ¬ independent sampleStoreAfter [1%positive] [11%positive]).
Proof.
  split; split.
  - vm_compute. reflexivity.
  - intros Hind.
    apply (Hind 1%positive 1%positive 1%positive);
      [apply list_elem_of_here..|]; vm_compute; apply list_elem_of_here.
  - vm_compute. reflexivity.
  - split; [vm_compute; reflexivity|]. split; [vm_compute; reflexivity|].
    intros Hind.
    apply (Hind 1%positive 11%positive 4%positive);
      [apply list_elem_of_here..| |]; vm_compute;
      repeat (first [apply list_elem_of_here|apply list_elem_of_further]).
Qed.

(** C2, amended.  On references to frames whose non-transparent pixel
    indices all have colour-table entries, [remapFramesColors] returns, and
    the frames it returns are, read as values, those of the value embedding.
    No object of the store it started in is changed.  With a non-empty
    mapping list every frame returned is a new frame object with a new
    colour table and a new patch buffer, which keeps the [dims] and [pixels]
    objects of the frame passed in; with the empty list the frames returned
    have the values of the frames passed in. *)
Theorem remap_store_sharing (h : gmap loc obj) (frameRefs : list loc)
    (gifFrames : list GifFrame) (mappings : list MappingRef)
    (mappings' : list ColorMapping) :
  Forall2 (λ l frame, frameAt h l = Some frame) frameRefs gifFrames →
  Forall2 (mappingAt h) mappings mappings' →
  Forall validPixels gifFrames →
  ∃ out h' out',
    remapFramesColors frameRefs mappings h = Done out h' ∧
    remapFramesColorsV gifFrames mappings' = Ok out' ∧
    Forall2 (λ l frame, frameAt h' l = Some frame) out out' ∧
    h ⊆ h' ∧
    (mappings ≠ [] → Forall2 (rebuilt h h') frameRefs out) ∧
    (mappings = [] → out' = gifFrames).
Proof.
  intros Hfs Hms Hv.
  destruct (remapFramesColors_total gifFrames mappings' Hv) as [out' Hout'].
  pose proof (remapFramesColors_refines h frameRefs gifFrames mappings
                mappings' Hfs Hms) as Href.
  rewrite Hout' in Href. destruct Href as (out & h' & Hrun & Hvals & Hsub).
  exists out, h', out'. repeat split; try done.
  - intros Hne. unfold remapFramesColors in Hrun.
    rewrite bool_decide_eq_false_2 in Hrun by (by destruct mappings).
    apply arrayMap_remapFrame in Hrun as [_ Hreb]; [done|].
    clear -Hfs. induction Hfs as [|l f ls fs Hl _ IH]; constructor; [|done].
    apply frameAt_Some in Hl as (fr & _ & Hfr & _). eauto.
  - intros ->. apply Forall2_nil_inv_l in Hms as ->.
    by injection Hout' as <-.
Qed.

Lemma remap_store_sharing_witness :
  Forall2 (λ l frame, frameAt sampleStore l = Some frame) [1%positive]
    [scenarioFrame (mkDims 2 2 0 0) 100 1 scenarioPatch] ∧
  Forall2 (mappingAt sampleStore) [redToBlueRef] [redToBlue] ∧
  Forall validPixels [scenarioFrame (mkDims 2 2 0 0) 100 1 scenarioPatch] ∧
  ∃ out h',
    remapFramesColors [1%positive] [redToBlueRef] sampleStore = Done out h' ∧
    sampleStore ⊆ h' ∧
    Forall2 (rebuilt sampleStore h') [1%positive] out.
Proof.
  assert (Hfs : Forall2 (λ l frame, frameAt sampleStore l = Some frame)
                  [1%positive]
                  [scenarioFrame (mkDims 2 2 0 0) 100 1 scenarioPatch]).
  { repeat constructor. }
  assert (Hms : Forall2 (mappingAt sampleStore) [redToBlueRef] [redToBlue]).
  { repeat constructor. }
  assert (Hv : Forall validPixels
                 [scenarioFrame (mkDims 2 2 0 0) 100 1 scenarioPatch]).
  { repeat constructor; intros _; by eexists. }
  split; [exact Hfs|]. split; [exact Hms|]. split; [exact Hv|].
  destruct (remap_store_sharing sampleStore [1%positive] _ [redToBlueRef]
              [redToBlue] Hfs Hms Hv)
    as (out & h' & out' & Hrun & _ & _ & Hsub & Hreb & _).
  exists out, h'. split; [exact Hrun|]. split; [exact Hsub|].
  apply Hreb. discriminate.
Defined.

End StoreFacts.


(** * Further properties *)

(** ** Hex colours *)

Lemma hexDigitValue_range c :
  isHexDigit c = true → 0 ≤ hexDigitValue c ≤ 15.
Proof.
  destruct c as [[] [] [] [] [] [] [] []]; vm_compute; intros H;
    try discriminate H; split; discriminate.
Qed.

Lemma parseInt16_range hi lo :
  isHexDigit hi = true → isHexDigit lo = true → isByte (parseInt16 hi lo).
Proof.
  intros Hhi%hexDigitValue_range Hlo%hexDigitValue_range.
  unfold isByte, parseInt16. lia.
Qed.

Lemma optHash_Some {A} (body : string → option A) s x :
  optHash body s = Some x →
  body s = Some x ∨ ∃ rest, s = String "#" rest ∧ body rest = Some x.
Proof.
  destruct s as [|c rest]; simpl; [by left|].
  destruct (Ascii.eqb_spec c "#") as [->|]; [|by left].
  destruct (body rest) as [y|] eqn:Hrest; [|by left].
  intros [= <-]. right. by exists rest.
Qed.

Lemma hexBody3_Some s r g b :
  hexBody3 s = Some (r, g, b) →
  s = String r (String g (String b EmptyString)) ∧
  isHexDigit r = true ∧ isHexDigit g = true ∧ isHexDigit b = true.
Proof.
  destruct s as [|r' [|g' [|b' [|]]]]; try done. simpl.
  destruct (isHexDigit r') eqn:Hr, (isHexDigit g') eqn:Hg,
    (isHexDigit b') eqn:Hb; try done.
  by intros [= <- <- <-].
Qed.

Lemma hexBody6_Some s r1 r2 g1 g2 b1 b2 :
  hexBody6 s = Some ((r1, r2), (g1, g2), (b1, b2)) →
  s = String r1 (String r2 (String g1 (String g2 (String b1
        (String b2 EmptyString))))) ∧
  allHex s = true.
Proof.
  destruct s as [|c1 [|c2 [|c3 [|c4 [|c5 [|c6 [|]]]]]]]; try done.
  unfold hexBody6.
  destruct (allHex _) eqn:Hall; [|done]. by intros [= <- <- <- <- <- <-].
Qed.

(** Whatever the string, [hexToRgb] gives three bytes. *)
Theorem hexToRgb_bytes (hex : string) :
  isByte (hexToRgb hex).1.1 ∧ isByte (hexToRgb hex).1.2 ∧
  isByte (hexToRgb hex).2.
Proof.
  assert (Hzero : isByte 0) by (unfold isByte; lia).
  unfold hexToRgb. destruct (String.length (withHash hex) =? 4)%nat.
  - destruct (optHash hexBody3 (withHash hex)) as [[[r g] b]|] eqn:Hm;
      [|by simpl].
    assert (isHexDigit r = true ∧ isHexDigit g = true ∧ isHexDigit b = true)
      as (Hr & Hg & Hb).
    { apply optHash_Some in Hm as [Hm|(rest & _ & Hm)];
        by apply hexBody3_Some in Hm as (_ & ? & ? & ?). }
    simpl. auto using parseInt16_range.
  - destruct (optHash hexBody6 (withHash hex))
      as [[[[r1 r2] [g1 g2]] [b1 b2]]|] eqn:Hm; [|by simpl].
    assert (allHex (String r1 (String r2 (String g1 (String g2 (String b1
              (String b2 EmptyString)))))) = true) as Hall.
    { apply optHash_Some in Hm as [Hm|(rest & _ & Hm)];
        by apply hexBody6_Some in Hm as [-> ?]. }
    simpl in Hall. repeat (apply andb_true_iff in Hall as [? Hall]).
    simpl. auto using parseInt16_range.
Qed.

Lemma hexBody3_hexDigitString s x : hexBody3 s = Some x → hexDigitString s.
Proof.
  destruct x as [[r g] b]. intros (-> & Hr & Hg & Hb)%hexBody3_Some.
  apply hexBody3or6_spec. unfold hexBody3or6. simpl. by rewrite Hr, Hg, Hb.
Qed.

Lemma hexBody6_hexDigitString s x : hexBody6 s = Some x → hexDigitString s.
Proof.
  destruct x as [[[r1 r2] [g1 g2]] [b1 b2]].
  intros (-> & Hall)%hexBody6_Some.
  apply hexBody3or6_spec. unfold hexBody3or6. by rewrite Hall.
Qed.

(** The strings [withHash] maps to [#] followed by [digits]. *)
Lemma withHash_inv s digits :
  withHash s = String "#" digits →
  Ascii.eqb (match digits with String c _ => c | EmptyString => "0"%char end)
    "#" = false →
  s = digits ∨ s = String "#" digits.
Proof.
  unfold withHash. destruct s as [|c rest]; simpl.
  - intros [= <-]. by left.
  - destruct (Ascii.eqb_spec c "#") as [->|Hc].
    + intros [= <-]. by right.
    + intros [= <-]. by left.
Qed.

Lemma withHash_starts s : ∃ rest, withHash s = String "#" rest.
Proof.
  unfold withHash. destruct s as [|c rest]; simpl; [by eexists|].
  destruct (Ascii.eqb_spec c "#") as [->|]; by eexists.
Qed.

(** A string that is not an optionally [#]-prefixed sequence of 3 or 6 hex
    digits is read as black. *)
Theorem hexToRgb_malformed (hex : string) :
  (¬ ∃ digits, hexForm hex digits) → hexToRgb hex = (0, 0, 0).
Proof.
  intros Hno. unfold hexToRgb.
  assert (Hform : ∀ digits, hexDigitString digits →
            (withHash hex = digits ∨ withHash hex = String "#" digits) →
            False).
  { intros digits Hd Hw.
    destruct digits as [|c rest] eqn:Hdig;
      [by destruct hexDigitString_nonempty|].
    pose proof (hexDigitString_no_hash _ _ Hd) as Hc.
    destruct Hw as [Hw|Hw].
    - destruct (withHash_starts hex) as [t Ht]. rewrite Ht in Hw.
      injection Hw as <- _. vm_compute in Hc. done.
    - apply Hno. exists (String c rest). split; [|done].
      apply withHash_inv; [done|]. by simpl. }
  destruct (String.length (withHash hex) =? 4)%nat.
  - destruct (optHash hexBody3 (withHash hex)) as [x|] eqn:Hm; [|done].
    exfalso. apply optHash_Some in Hm as [Hm|(rest & Heq & Hm)].
    + apply (Hform (withHash hex)); [by eapply hexBody3_hexDigitString|].
      by left.
    + apply (Hform rest); [by eapply hexBody3_hexDigitString|]. by right.
  - destruct (optHash hexBody6 (withHash hex)) as [x|] eqn:Hm; [|done].
    exfalso. apply optHash_Some in Hm as [Hm|(rest & Heq & Hm)].
    + apply (Hform (withHash hex)); [by eapply hexBody6_hexDigitString|].
      by left.
    + apply (Hform rest); [by eapply hexBody6_hexDigitString|]. by right.
Qed.

Lemma hexRegex_test_false s :
  hexRegex_test s = false → ¬ ∃ digits, hexForm s digits.
Proof. intros Hf H%hexRegex_test_spec. congruence. Qed.

Lemma hexToRgb_malformed_witness :
  (¬ ∃ digits, hexForm "#12345" digits) ∧ hexToRgb "#12345" = (0, 0, 0) ∧
  hexToRgb "#ggg" = (0, 0, 0).
Proof.
  assert (H1 : ¬ ∃ digits, hexForm "#12345" digits)
    by (apply hexRegex_test_false; reflexivity).
  split; [exact H1|]. split.
  - exact (hexToRgb_malformed "#12345" H1).
  - apply hexToRgb_malformed, hexRegex_test_false. reflexivity.
Defined.

Lemma validateHexColor_Some s validated :
  validateHexColor s = Some validated →
  ∃ digits, hexForm s digits ∧ validated = normalizedHex digits.
Proof.
  intros Hv. destruct (hexRegex_test s) eqn:Htest.
  - apply hexRegex_test_spec in Htest as [digits Hd]. exists digits.
    split; [done|]. rewrite (validateHexColor_valid _ _ Hd) in Hv. congruence.
  - unfold validateHexColor in Hv. by rewrite Htest in Hv.
Qed.

Lemma hexToRgb_withHash s t : withHash s = withHash t → hexToRgb s = hexToRgb t.
Proof. unfold hexToRgb. by intros ->. Qed.

Lemma allHex_Forall s :
  Forall (λ c, c ∈ hexDigits) (list_ascii_of_string s) → allHex s = true.
Proof. apply allHex_spec. Qed.

(** The six digits of a normalised colour. *)
Lemma normalizedHex_digits digits :
  hexDigitString digits →
  ∃ six, normalizedHex digits = String "#" six ∧ hexDigitString six ∧
         String.length six = 6%nat.
Proof.
  intros [Hall [Hlen|Hlen]]; unfold normalizedHex; rewrite Hlen; simpl.
  - destruct digits as [|r [|g [|b [|]]]]; try discriminate Hlen.
    eexists. split; [done|]. simpl in Hall.
    apply Forall_cons in Hall as [Hr Hall].
    apply Forall_cons in Hall as [Hg Hall].
    apply Forall_cons in Hall as [Hb _].
    split; [|done]. split; [|by right]. simpl.
    repeat (apply Forall_cons; split; [assumption|]). by apply Forall_nil.
  - exists digits. split; [done|]. split; [|done]. split; [done|by right].
Qed.

(** What [validateHexColor] returns is a fixed point of it, and [hexToRgb]
    reads it as it reads the string that was validated: writing each digit of
    a 3-digit colour twice does not change the colour. *)
Theorem validateHexColor_normal_form (color' validated : string) :
  validateHexColor color' = Some validated →
  validateHexColor validated = Some validated ∧
  hexToRgb validated = hexToRgb color'.
Proof.
  intros (digits & Hform & ->)%validateHexColor_Some. split.
  - destruct Hform as [_ Hd].
    destruct (normalizedHex_digits digits Hd) as (six & -> & Hsix & Hlen).
    rewrite (validateHexColor_valid _ six) by (split; [by right|done]).
    unfold normalizedHex. by rewrite Hlen.
  - rewrite (hexToRgb_withHash color' (String "#" digits)).
    2:{ rewrite (withHash_hexForm _ _ Hform). done. }
    destruct Hform as [_ [Hall [Hlen|Hlen]]]; unfold normalizedHex;
      rewrite Hlen; simpl; [|done].
    destruct digits as [|r [|g [|b [|]]]]; try discriminate Hlen.
    apply allHex_Forall in Hall. simpl in Hall.
    apply andb_true_iff in Hall as [Hr Hall].
    apply andb_true_iff in Hall as [Hg Hall].
    apply andb_true_iff in Hall as [Hb _].
    unfold hexToRgb, withHash. simpl. unfold hexBody6, hexBody3. simpl.
    by rewrite Hr, Hg, Hb.
Qed.

Lemma validateHexColor_normal_form_witness :
  validateHexColor "0fA" = Some "#00ffAA" ∧
  validateHexColor "#00ffAA" = Some "#00ffAA" ∧
  hexToRgb "#00ffAA" = hexToRgb "0fA".
Proof.
  split; [reflexivity|].
  exact (validateHexColor_normal_form "0fA" "#00ffAA" eq_refl).
Defined.

Lemma colorKeyOf_not_hex c : ¬ ∃ digits, hexForm (colorKeyOf c) digits.
Proof.
  destruct c as [[r g] b]. unfold colorKeyOf.
  intros (digits & [Heq|Heq] & Hall & _).
  - rewrite <-Heq in Hall. cbn in Hall.
    apply Forall_cons in Hall as [Hr _]. vm_compute in Hr.
    by repeat (inversion Hr as [|??? Hr']; clear Hr; rename Hr' into Hr;
               subst).
  - cbn in Heq. discriminate Heq.
Qed.

(** "Reset to Original Color" passes the colour key of the selection to
    [updateColorMapping], and a colour key is never a hex colour: the click
    leaves the mapping table and the derived frames as they are and only
    sends a warning. *)
Theorem resetToOriginalColor_only_warns (st : AppState)
    (selected : ColorCount) :
  selectedColor st = Some selected →
  keyedEntry selected →
  resetToOriginalColor st selected
  = returned (consoleWarn (color selected) st).
Proof.
  intros Hsel Hkey. unfold resetToOriginalColor, updateColorMapping.
  rewrite Hsel, Hkey, validateHexColor_invalid; [done|].
  apply colorKeyOf_not_hex.
Qed.

Lemma resetToOriginalColor_only_warns_witness :
  let st := after (updateColorMapping selectedRed "#0000ff") in
  selectedColor st = Some redEntry ∧ keyedEntry redEntry ∧
  (newColor <$> colorMappings st) = ["#0000ff"] ∧
  (newColor <$> colorMappings (after (resetToOriginalColor st redEntry)))
  = ["#0000ff"] ∧
  warnings (after (resetToOriginalColor st redEntry)) = ["rgb(255,0,0)"].
Proof.
  cbv zeta.
  assert (Hsel : selectedColor (after (updateColorMapping selectedRed
                                         "#0000ff")) = Some redEntry)
    by reflexivity.
  assert (Hkey : keyedEntry redEntry) by reflexivity.
  split; [exact Hsel|]. split; [exact Hkey|]. split; [reflexivity|].
  rewrite (resetToOriginalColor_only_warns _ redEntry Hsel Hkey).
  split; reflexivity.
Defined.

(** ** Which frames make the two passes throw *)

Lemma forEachM_countPixel_throws frame px :
  ¬ Forall (indexOk frame) px →
  ∀ colorMap, forEachM (countPixel frame) px colorMap = Throw TypeError.
Proof.
  induction px as [|p px IH]; intros Hno colorMap.
  { destruct Hno. constructor. }
  simpl. destruct (decide (indexOk frame p)) as [Hp|Hp].
  - rewrite countPixel_valid by done. simpl. apply IH.
    intros Hpx. destruct Hno. by constructor.
  - by rewrite countPixel_throws.
Qed.

Lemma forEachM_frames_throws gifFrames :
  ¬ Forall validPixels gifFrames →
  ∀ colorMap,
    forEachM (λ colorMap frame,
                forEachM (countPixel frame) (pixels frame) colorMap)
      gifFrames colorMap
    = Throw TypeError.
Proof.
  induction gifFrames as [|f fs IH]; intros Hno colorMap.
  { destruct Hno. constructor. }
  simpl. destruct (decide (validPixels f)) as [Hf|Hf].
  - rewrite forEachM_countPixel by done. simpl. apply IH.
    intros Hfs. destruct Hno. by constructor.
  - by rewrite forEachM_countPixel_throws.
Qed.

Lemma extractColorPalette_invalid gifFrames :
  ¬ Forall validPixels gifFrames →
  extractColorPalette gifFrames = Throw TypeError.
Proof.
  intros Hno. unfold extractColorPalette.
  by rewrite forEachM_frames_throws.
Qed.

Lemma arrayMapM_remapFrame_throws mappings gifFrames :
  ¬ Forall validPixels gifFrames →
  arrayMapM (remapFrame mappings) gifFrames = Throw TypeError.
Proof.
  induction gifFrames as [|f fs IH]; intros Hno.
  { destruct Hno. constructor. }
  simpl. destruct (decide (validPixels f)) as [Hf|Hf].
  - destruct (remapFrame_total mappings f Hf) as [f' ->]. simpl.
    rewrite IH; [done|]. intros Hfs. destruct Hno. by constructor.
  - by rewrite remapFrame_throws.
Qed.

(** [extractColorPalette] throws exactly when some pixel of some frame is not
    the transparent index and has no colour-table entry; what it throws is a
    [TypeError]. *)
Theorem extractColorPalette_throws_iff (gifFrames : list GifFrame) :
  (∃ e, extractColorPalette gifFrames = Throw e) ↔
  ¬ Forall validPixels gifFrames.
Proof.
  split.
  - intros [e He] Hv. by rewrite extractColorPalette_valid in He.
  - intros Hno. exists TypeError. by apply extractColorPalette_invalid.
Qed.

Lemma extractColorPalette_throws_iff_witness :
  ¬ Forall validPixels [scenarioFrame (mkDims 2 2 0 0) 100 0 []; strayFrame] ∧
  ∃ e, extractColorPalette
         [scenarioFrame (mkDims 2 2 0 0) 100 0 []; strayFrame] = Throw e.
Proof.
  assert (Hno : ¬ Forall validPixels
                    [scenarioFrame (mkDims 2 2 0 0) 100 0 []; strayFrame]).
  { apply (bool_decide_unpack (¬ Forall validPixels _)). vm_compute. exact I. }
  split; [exact Hno|].
  exact (proj2 (extractColorPalette_throws_iff _) Hno).
Defined.

(** [remapFramesColors] throws exactly when the table of mappings is not
    empty and some pixel of some frame is not the transparent index and has
    no colour-table entry: with an empty table the frames are not visited,
    with any other table the same frames fail as in [extractColorPalette],
    whatever the mappings are. *)
Theorem remapFramesColors_throws_iff (gifFrames : list GifFrame)
    (mappings : list ColorMapping) :
  (∃ e, remapFramesColors gifFrames mappings = Throw e) ↔
  mappings ≠ [] ∧ ¬ Forall validPixels gifFrames.
Proof.
  split.
  - intros [e He]. split.
    + intros ->. by unfold remapFramesColors in He.
    + intros Hv. destruct (remapFramesColors_total _ mappings Hv) as [out Hout].
      by rewrite Hout in He.
  - intros [Hne Hno]. exists TypeError.
    rewrite remapFramesColors_nonempty by done.
    by apply arrayMapM_remapFrame_throws.
Qed.

Lemma remapFramesColors_throws_iff_witness :
  ([redToBlue] ≠ [] ∧ ¬ Forall validPixels [strayFrame]) ∧
  ∃ e, remapFramesColors [strayFrame] [redToBlue] = Throw e.
Proof.
  assert (Hno : [redToBlue] ≠ [] ∧ ¬ Forall validPixels [strayFrame]).
  { split; [done|].
    apply (bool_decide_unpack (¬ Forall validPixels _)). vm_compute. exact I. }
  split; [exact Hno|].
  exact (proj2 (remapFramesColors_throws_iff _ _) Hno).
Defined.

(** ** Palette extraction, further *)

(** The sum of the counts held in the map. *)
Lemma colorMap_set_total colorMap key v :
  (sum_list_with (λ kv, kv.2.1) (colorMap_set colorMap key v)
   + from_option fst 0 (colorMap_get colorMap key)
   = sum_list_with (λ kv, kv.2.1) colorMap + v.1)%nat.
Proof.
  induction colorMap as [|[k0 v0] cm IH]; simpl; [lia|].
  case_bool_decide; simpl; lia.
Qed.

Lemma countColor_total colorMap c :
  sum_list_with (λ kv, kv.2.1) (countColor colorMap c)
  = S (sum_list_with (λ kv, kv.2.1) colorMap).
Proof.
  unfold countColor.
  destruct (colorMap_get colorMap (colorKeyOf c)) as [current|] eqn:Hget.
  - pose proof (colorMap_set_total colorMap (colorKeyOf c)
                  ((current.1 + 1)%nat, c)) as H.
    rewrite Hget in H. simpl in H. lia.
  - pose proof (colorMap_set_total colorMap (colorKeyOf c) (1%nat, c)) as H.
    rewrite Hget in H. simpl in H. lia.
Qed.

Lemma foldl_countColor_total cs :
  ∀ colorMap,
    sum_list_with (λ kv, kv.2.1) (foldl countColor colorMap cs)
    = (sum_list_with (λ kv, kv.2.1) colorMap + length cs)%nat.
Proof.
  induction cs as [|c cs IH]; intros colorMap; simpl; [lia|].
  rewrite IH, countColor_total. lia.
Qed.

Lemma colorMap_entries_total colorMap :
  sum_list_with count (colorMap_entries colorMap)
  = sum_list_with (λ kv, kv.2.1) colorMap.
Proof.
  unfold colorMap_entries. induction colorMap as [|kv cm IH]; simpl; [done|].
  by rewrite IH.
Qed.

Lemma visibleColors_length frame :
  validPixels frame →
  length (visibleColors frame)
  = length (filter (λ p, isTransparent frame p = false) (pixels frame)).
Proof.
  unfold validPixels, visibleColors.
  induction 1 as [|p px Hp _ IH]; simpl; [done|].
  rewrite filter_cons. unfold indexOk in Hp.
  destruct (decide (isTransparent frame p = false)) as [Ht|Ht].
  - rewrite Ht. destruct Hp as [c ->]; [done|]. simpl. f_equal. exact IH.
  - destruct (isTransparent frame p); [done|]. by destruct Ht.
Qed.

Lemma visibleKeys_length gifFrames :
  Forall validPixels gifFrames →
  length (visibleKeys gifFrames)
  = sum_list_with
      (λ frame, length (filter (λ p, isTransparent frame p = false)
                          (pixels frame)))
      gifFrames.
Proof.
  unfold visibleKeys. rewrite length_fmap.
  induction 1 as [|f fs Hf _ IH]; [done|].
  rewrite bind_cons, length_app, visibleColors_length by done.
  simpl. f_equal. exact IH.
Qed.

(** The counts of a palette add up to the number of pixels, over all frames,
    whose index is not the transparent index of their frame. *)
Theorem palette_counts_total (gifFrames : list GifFrame) :
  Forall validPixels gifFrames →
  ∃ palette,
    extractColorPalette gifFrames = Ok palette ∧
    sum_list_with count palette
    = sum_list_with
        (λ frame, length (filter (λ p, isTransparent frame p = false)
                            (pixels frame)))
        gifFrames.
Proof.
  intros Hv. eexists. split; [by apply extractColorPalette_valid|].
  rewrite sortByCountDesc_perm, colorMap_entries_total.
  rewrite foldl_countColor_total. simpl.
  rewrite <-visibleKeys_length by done. unfold visibleKeys.
  by rewrite length_fmap.
Qed.

Lemma palette_counts_total_witness :
  Forall validPixels [transparentFrame; holeFrame] ∧
  ∃ palette,
    extractColorPalette [transparentFrame; holeFrame] = Ok palette ∧
    sum_list_with count palette = 2%nat.
Proof.
  assert (Hv : Forall validPixels [transparentFrame; holeFrame]).
  { apply (bool_decide_unpack (Forall validPixels _)). vm_compute. exact I. }
  split; [exact Hv|].
  destruct (palette_counts_total _ Hv) as (palette & Hpal & Hsum).
  exists palette. split; [exact Hpal|]. rewrite Hsum. reflexivity.
Defined.

Lemma visibleColors_elem frame i colorIndex c :
  pixels frame !! i = Some colorIndex →
  isTransparent frame colorIndex = false →
  colorTable frame !! colorIndex = Some c →
  c ∈ visibleColors frame.
Proof.
  intros Hi Ht Hc. unfold visibleColors. apply list_elem_of_omap.
  exists colorIndex. split; [by eapply list_elem_of_lookup_2|].
  by rewrite Ht.
Qed.

(** Every pixel that is not transparent is counted in an entry of the
    palette whose [rgb] is the colour of the pixel. *)
Theorem palette_entry_rgb (gifFrames : list GifFrame)
    (palette : list ColorCount) (k : nat) (frame : GifFrame)
    (i colorIndex : nat) (c : RGB) :
  extractColorPalette gifFrames = Ok palette →
  gifFrames !! k = Some frame →
  pixels frame !! i = Some colorIndex →
  isTransparent frame colorIndex = false →
  colorTable frame !! colorIndex = Some c →
  ∃ entry, entry ∈ palette ∧ color entry = colorKeyOf c ∧ rgb entry = c ∧
           (0 < count entry)%nat.
Proof.
  intros Hpal Hk Hi Ht Hc.
  assert (Hv : Forall validPixels gifFrames).
  { destruct (decide (Forall validPixels gifFrames)) as [|Hno]; [done|].
    by rewrite extractColorPalette_invalid in Hpal. }
  rewrite extractColorPalette_valid in Hpal by done. injection Hpal as <-.
  set (cs := gifFrames ≫= visibleColors).
  destruct (foldl_countColor_counted cs) as [Hnd Hcnt].
  assert (Hin : c ∈ cs).
  { apply list_elem_of_bind. exists frame.
    split; [by eapply visibleColors_elem|by eapply list_elem_of_lookup_2]. }
  destruct (Hcnt (colorKeyOf c)) as [Hn Hrgb].
  assert (Hocc : occurrences (colorKeyOf c) (colorKeyOf <$> cs) ≠ 0%nat).
  { apply occurrences_pos, list_elem_of_fmap. by exists c. }
  rewrite decide_False in Hn by done.
  destruct (colorMap_get (foldl countColor [] cs) (colorKeyOf c))
    as [[n c0]|] eqn:Hget; [|done].
  injection Hn as Hn.
  exists {| color := colorKeyOf c; count := n; rgb := c0 |}.
  split; [|split; [done|split]].
  - rewrite sortByCountDesc_perm. apply list_elem_of_fmap.
    exists (colorKeyOf c, (n, c0)). split; [done|].
    by apply colorMap_get_elem.
  - simpl. apply colorKeyOf_inj. by apply (Hrgb (n, c0)).
  - simpl. lia.
Qed.

Lemma palette_entry_rgb_witness :
  ∃ entry,
    entry ∈ [{| color := "rgb(0,255,0)"; count := 1; rgb := (0, 255, 0) |}] ∧
    color entry = colorKeyOf (0, 255, 0) ∧ rgb entry = (0, 255, 0) ∧
    (0 < count entry)%nat.
Proof.
  apply (palette_entry_rgb [transparentFrame] _ 0 transparentFrame 1 1
           (0, 255, 0));
    [vm_compute; reflexivity|reflexivity..].
Defined.

(** ** Order of the palette among equal counts *)

Lemma elem_of_firstSeen k keys : k ∈ firstSeen keys ↔ k ∈ keys.
Proof.
  induction keys as [|k0 keys IH]; simpl; [done|].
  rewrite !elem_of_cons, list_elem_of_filter, IH.
  destruct (decide (k = k0)); naive_solver.
Qed.

Lemma firstSeen_snoc keys k :
  firstSeen (keys ++ [k])
  = if decide (k ∈ keys) then firstSeen keys else firstSeen keys ++ [k].
Proof.
  induction keys as [|k0 keys IH].
  { rewrite decide_False; [done|]. apply not_elem_of_nil. }
  cbn [app firstSeen].
  rewrite IH. destruct (decide (k ∈ keys)) as [Hin|Hin].
  - rewrite decide_True; [done|]. by right.
  - rewrite filter_app, filter_cons, filter_nil.
    destruct (decide (k = k0)) as [->|Hne].
    + rewrite decide_False by (intros H; by apply H).
      rewrite decide_True by left. by rewrite app_nil_r.
    + rewrite decide_True by done.
      rewrite decide_False; [done|].
      rewrite elem_of_cons. naive_solver.
Qed.

Lemma colorMap_set_keys colorMap key v :
  (colorMap_set colorMap key v).*1
  = if decide (key ∈ colorMap.*1) then colorMap.*1 else colorMap.*1 ++ [key].
Proof.
  induction colorMap as [|[k0 v0] cm IH].
  { rewrite decide_False; [done|]. apply not_elem_of_nil. }
  cbn [colorMap_set]. rewrite (fmap_cons fst (k0, v0) cm).
  case_bool_decide as Hk; rewrite fmap_cons; cbn [fst].
  - subst. rewrite decide_True; [done|]. left.
  - rewrite IH. destruct (decide (key ∈ cm.*1)) as [Hin|Hin].
    + rewrite decide_True; [done|]. by right.
    + rewrite decide_False; [done|]. rewrite elem_of_cons. naive_solver.
Qed.

Lemma countColor_keys colorMap c :
  (countColor colorMap c).*1
  = if decide (colorKeyOf c ∈ colorMap.*1) then colorMap.*1
    else colorMap.*1 ++ [colorKeyOf c].
Proof.
  unfold countColor. destruct (colorMap_get _ _); apply colorMap_set_keys.
Qed.

Lemma foldl_countColor_keys cs :
  (foldl countColor [] cs).*1 = firstSeen (colorKeyOf <$> cs).
Proof.
  induction cs as [|c cs IH] using rev_ind; [done|].
  rewrite foldl_app, fmap_app. simpl.
  rewrite countColor_keys, firstSeen_snoc, IH.
  destruct (decide (colorKeyOf c ∈ firstSeen (colorKeyOf <$> cs)))
    as [Hin|Hin].
  - rewrite decide_True; [done|]. by apply elem_of_firstSeen.
  - rewrite decide_False; [done|]. by rewrite <-elem_of_firstSeen.
Qed.

Lemma insertByCount_stable n a sorted :
  filter (λ e, count e = n) (insertByCount a sorted)
  = filter (λ e, count e = n) (a :: sorted).
Proof.
  induction sorted as [|b rest IH]; simpl; [done|].
  destruct (count b <=? count a)%nat eqn:Hle; [done|].
  apply Nat.leb_gt in Hle.
  rewrite filter_cons, IH, !filter_cons.
  destruct (decide (count b = n)), (decide (count a = n)); try done. lia.
Qed.

Lemma sortByCountDesc_stable n l :
  filter (λ e, count e = n) (sortByCountDesc l)
  = filter (λ e, count e = n) l.
Proof.
  induction l as [|a l IH]; simpl; [done|].
  by rewrite insertByCount_stable, !filter_cons, IH.
Qed.

Lemma colorMap_entries_filter (n : nat) (occ : string → nat)
    (colorMap : ColorMap) :
  Forall (λ kv, kv.2.1 = occ kv.1) colorMap →
  color <$> filter (λ e, count e = n) (colorMap_entries colorMap)
  = filter (λ k, occ k = n) colorMap.*1.
Proof.
  unfold colorMap_entries.
  induction 1 as [|[k [m c]] cm Hkv _ IH]; [done|].
  simpl in Hkv. cbn [map fmap list_fmap]. rewrite !filter_cons. simpl.
  rewrite <-Hkv.
  destruct (decide (m = n)); [rewrite fmap_cons; simpl; f_equal|]; exact IH.
Qed.

(** Palette entries with the same count stand in the order in which their
    colours are first met when the frames and their pixels are read in
    order. *)
Theorem palette_tie_order (gifFrames : list GifFrame) :
  Forall validPixels gifFrames →
  ∃ palette,
    extractColorPalette gifFrames = Ok palette ∧
    ∀ n, color <$> filter (λ e, count e = n) palette
         = filter (λ k, occurrences k (visibleKeys gifFrames) = n)
             (firstSeen (visibleKeys gifFrames)).
Proof.
  intros Hv. eexists. split; [by apply extractColorPalette_valid|].
  intros n. rewrite sortByCountDesc_stable.
  set (cs := gifFrames ≫= visibleColors).
  destruct (foldl_countColor_counted cs) as [Hnd Hcnt].
  rewrite (colorMap_entries_filter n
             (λ k, occurrences k (visibleKeys gifFrames))).
  - by rewrite foldl_countColor_keys.
  - apply Forall_forall. intros [k v] Hin. simpl.
    apply colorMap_get_elem in Hin; [|done].
    destruct (Hcnt k) as [Hn _]. rewrite Hin in Hn. simpl in Hn.
    unfold visibleKeys. fold cs.
    destruct (decide (occurrences k (colorKeyOf <$> cs) = 0%nat)); [done|].
    by injection Hn.
Qed.

Lemma palette_tie_order_witness :
  Forall validPixels [scenarioFrame (mkDims 2 2 0 0) 100 0 []] ∧
  ∃ palette,
    extractColorPalette [scenarioFrame (mkDims 2 2 0 0) 100 0 []]
    = Ok palette ∧
    color <$> filter (λ e, count e = 2%nat) palette
    = ["rgb(255,0,0)"; "rgb(0,255,0)"].
Proof.
  assert (Hv : Forall validPixels [scenarioFrame (mkDims 2 2 0 0) 100 0 []]).
  { apply (bool_decide_unpack (Forall validPixels _)). vm_compute. exact I. }
  split; [exact Hv|].
  destruct (palette_tie_order _ Hv) as (palette & Hpal & Horder).
  exists palette. split; [exact Hpal|]. rewrite Horder.
  vm_compute. reflexivity.
Defined.

(** ** Remapped pixels *)

Lemma clamp8_isByte v : isByte (clamp8 v).
Proof. unfold isByte, clamp8. lia. Qed.

Lemma pixelBytes_isByte frame table colorIndex :
  Forall isByte (pixelBytes frame table colorIndex).
Proof.
  unfold pixelBytes.
  destruct (default (0, 0, 0) (table !! colorIndex)) as [[r g] b].
  repeat (apply Forall_cons; split; [apply clamp8_isByte|]).
  apply Forall_cons; split; [|by apply Forall_nil].
  unfold isByte. destruct (isTransparent frame colorIndex); lia.
Qed.

Lemma regeneratePatch_isByte frame table :
  Forall isByte (regeneratePatch frame table).
Proof.
  rewrite regeneratePatch_bytes. apply Forall_concat, Forall_fmap.
  apply Forall_forall. intros colorIndex _. apply pixelBytes_isByte.
Qed.

Lemma regeneratePatch_frame_ext frame1 frame2 table :
  pixels frame1 = pixels frame2 →
  transparentIndex frame1 = transparentIndex frame2 →
  regeneratePatch frame1 table = regeneratePatch frame2 table.
Proof.
  intros Hpx Ht. rewrite !regeneratePatch_bytes, Hpx. f_equal.
  apply map_ext. intros colorIndex.
  unfold pixelBytes, isTransparent. by rewrite Ht.
Qed.

Lemma slotAfter_is_Some mappings frame seen idx :
  is_Some (slotAfter mappings frame seen idx) ↔
  is_Some (colorTable frame !! idx).
Proof.
  unfold slotAfter. case_bool_decide; [|done]. by rewrite fmap_is_Some.
Qed.

Lemma slotAfter_length mappings frame seen table :
  (∀ idx, table !! idx = slotAfter mappings frame seen idx) →
  length table = length (colorTable frame).
Proof.
  intros Hs. apply Nat.le_antisymm.
  - apply Nat.le_ngt. intros Hlt.
    destruct (lookup_lt_is_Some_2 table (length (colorTable frame)) Hlt)
      as [c Hc].
    rewrite Hs in Hc.
    assert (is_Some (colorTable frame !! length (colorTable frame))) as Hsome.
    { apply (slotAfter_is_Some mappings frame seen). by eexists. }
    apply lookup_lt_is_Some_1 in Hsome. lia.
  - apply Nat.le_ngt. intros Hlt.
    destruct (lookup_lt_is_Some_2 (colorTable frame) (length table) Hlt)
      as [c Hc].
    assert (is_Some (table !! length table)) as Hsome.
    { rewrite Hs. apply slotAfter_is_Some. by eexists. }
    apply lookup_lt_is_Some_1 in Hsome. lia.
Qed.

Lemma remapFrame_wellFormed mappings frame frame' :
  remapFrame mappings frame = Ok frame' → wellFormedFrame frame'.
Proof.
  intros H. pose proof (remapFrame_valid _ _ _ H) as Hv.
  destruct (remapFrame_fields _ _ _ H)
    as [(_ & _ & _ & Ht & Hpx) [Hslots Hpatch]].
  split.
  - unfold validPixels. rewrite Hpx.
    eapply Forall_impl; [exact Hv|]. intros p Hp. unfold indexOk in *.
    unfold isTransparent in *. rewrite Ht. intros Hnt.
    rewrite Hslots. apply slotAfter_is_Some. by apply Hp.
  - rewrite Hpatch. by apply regeneratePatch_frame_ext.
Qed.

Lemma arrayMapM_remapFrame_lookup mappings gifFrames out k frame frame' :
  arrayMapM (remapFrame mappings) gifFrames = Ok out →
  gifFrames !! k = Some frame →
  out !! k = Some frame' →
  remapFrame mappings frame = Ok frame'.
Proof.
  intros Hout Hk Hk'. apply arrayMapM_Ok in Hout.
  by eapply (Forall2_lookup_lr _ _ _ k) in Hout.
Qed.

(** The frames [remapFramesColors] builds for a table that is not empty are
    as a decoder would build them: every pixel that is not transparent has a
    colour-table entry, and the patch is the RGBA expansion of the pixels over
    the frame's own colour table.  So neither remapping them again nor
    extracting their palette throws. *)
Theorem remap_output_wellFormed (originalFrames : list GifFrame)
    (mappings : list ColorMapping) (out : list GifFrame) :
  mappings ≠ [] →
  remapFramesColors originalFrames mappings = Ok out →
  Forall wellFormedFrame out ∧
  (∀ mappings', ∃ out', remapFramesColors out mappings' = Ok out') ∧
  (∃ palette, extractColorPalette out = Ok palette).
Proof.
  intros Hne Hout. rewrite remapFramesColors_nonempty in Hout by done.
  assert (Hwf : Forall wellFormedFrame out).
  { apply arrayMapM_Ok in Hout. apply Forall_forall. intros f' Hin.
    apply list_elem_of_lookup_1 in Hin as [k Hk].
    destruct (Forall2_lookup_r _ _ _ _ _ Hout Hk) as (f & _ & Hf).
    by eapply remapFrame_wellFormed. }
  assert (Hv : Forall validPixels out).
  { eapply Forall_impl; [exact Hwf|]. by intros f' [? _]. }
  split; [done|split].
  - intros mappings'. by apply remapFramesColors_total.
  - eexists. by apply extractColorPalette_valid.
Qed.

Lemma remap_output_wellFormed_witness :
  [redToBlue] ≠ [] ∧
  remapFramesColors [holeFrame] [redToBlue]
  = Ok [{| dims := mkDims 2 1 0 0; delay := 100; disposalType := 0;
           patch := [0; 0; 255; 255; 0; 0; 0; 0];
           pixels := [0; 5]%nat; transparentIndex := Some 5%nat;
           colorTable := [(0, 0, 255)] |}] ∧
  Forall wellFormedFrame
    [{| dims := mkDims 2 1 0 0; delay := 100; disposalType := 0;
        patch := [0; 0; 255; 255; 0; 0; 0; 0];
        pixels := [0; 5]%nat; transparentIndex := Some 5%nat;
        colorTable := [(0, 0, 255)] |}].
Proof.
  assert (Hne : [redToBlue] ≠ []) by done.
  assert (Hout : remapFramesColors [holeFrame] [redToBlue]
    = Ok [{| dims := mkDims 2 1 0 0; delay := 100; disposalType := 0;
             patch := [0; 0; 255; 255; 0; 0; 0; 0];
             pixels := [0; 5]%nat; transparentIndex := Some 5%nat;
             colorTable := [(0, 0, 255)] |}]).
  { vm_compute. reflexivity. }
  split; [exact Hne|split; [exact Hout|]].
  exact (proj1 (remap_output_wellFormed _ _ _ Hne Hout)).
Defined.

(** A patch built by [remapFramesColors] for a table that is not empty holds
    four numbers per pixel, each of them a byte, and the colour table keeps
    its length. *)
Theorem remap_patch_shape (originalFrames : list GifFrame)
    (mappings : list ColorMapping) (out : list GifFrame)
    (k : nat) (frame frame' : GifFrame) :
  mappings ≠ [] →
  remapFramesColors originalFrames mappings = Ok out →
  originalFrames !! k = Some frame →
  out !! k = Some frame' →
  length (patch frame') = (4 * length (pixels frame))%nat ∧
  Forall isByte (patch frame') ∧
  length (colorTable frame') = length (colorTable frame).
Proof.
  intros Hne Hout Hk Hk'. rewrite remapFramesColors_nonempty in Hout by done.
  pose proof (arrayMapM_remapFrame_lookup _ _ _ _ _ _ Hout Hk Hk') as H.
  destruct (remapFrame_fields _ _ _ H) as [_ [Hslots Hpatch]].
  rewrite Hpatch. split; [|split].
  - rewrite regeneratePatch_length. lia.
  - apply regeneratePatch_isByte.
  - by eapply slotAfter_length.
Qed.

Lemma remap_patch_shape_witness :
  length [0; 0; 255; 255; 0; 0; 0; 0] = (4 * length (pixels holeFrame))%nat ∧
  Forall isByte [0; 0; 255; 255; 0; 0; 0; 0] ∧
  length [(0, 0, 255)] = length (colorTable holeFrame).
Proof.
  apply (remap_patch_shape [holeFrame] [redToBlue]
    [mkFrame (mkDims 2 1 0 0) 100 0 [0; 0; 255; 255; 0; 0; 0; 0]
       [0; 5]%nat (Some 5%nat) [(0, 0, 255)]]
    0 holeFrame
    (mkFrame (mkDims 2 1 0 0) 100 0 [0; 0; 255; 255; 0; 0; 0; 0]
       [0; 5]%nat (Some 5%nat) [(0, 0, 255)]));
    [done|vm_compute; reflexivity|reflexivity|reflexivity].
Defined.

(** What the patch of a remapped frame holds for a pixel: the bytes of the
    colour its own colour is mapped to, opaque, when its index is not the
    transparent index; the bytes of its original colour-table entry (zeros
    when there is none) with alpha 0 when it is. *)
Theorem remap_pixel_color (originalFrames : list GifFrame)
    (mappings : list ColorMapping) (out : list GifFrame)
    (k : nat) (frame frame' : GifFrame) (i colorIndex : nat) :
  mappings ≠ [] →
  remapFramesColors originalFrames mappings = Ok out →
  originalFrames !! k = Some frame →
  out !! k = Some frame' →
  pixels frame !! i = Some colorIndex →
  if isTransparent frame colorIndex
  then patchPixel (patch frame') i
       = rgba (default (0, 0, 0) (colorTable frame !! colorIndex)) 0
  else ∃ c, colorTable frame !! colorIndex = Some c ∧
            patchPixel (patch frame') i = rgba (remapColor mappings c) 255.
Proof.
  intros Hne Hout Hk Hk' Hi. rewrite remapFramesColors_nonempty in Hout by done.
  pose proof (arrayMapM_remapFrame_lookup _ _ _ _ _ _ Hout Hk Hk') as H.
  pose proof (remapFrame_valid _ _ _ H) as Hv.
  destruct (remapFrame_fields _ _ _ H) as [_ [Hslots Hpatch]].
  rewrite Hpatch, (regeneratePatch_pixel _ _ _ _ Hi).
  unfold pixelBytes, rgba. rewrite Hslots. unfold slotAfter.
  destruct (isTransparent frame colorIndex) eqn:Ht.
  - rewrite bool_decide_eq_false_2 by (by intros [_ ?]).
    by destruct (default (0, 0, 0) (colorTable frame !! colorIndex))
      as [[r g] b].
  - assert (Hin : colorIndex ∈ pixels frame)
      by (by eapply list_elem_of_lookup_2).
    rewrite bool_decide_eq_true_2 by done.
    unfold validPixels in Hv. rewrite Forall_forall in Hv.
    destruct (Hv _ Hin Ht) as [c Hc]. exists c. split; [done|].
    rewrite Hc. simpl. by destruct (remapColor mappings c) as [[r g] b].
Qed.

Lemma remap_pixel_color_witness :
  patchPixel [0; 0; 255; 255; 0; 0; 0; 0] 1 = rgba (0, 0, 0) 0 ∧
  ∃ c, colorTable holeFrame !! 0%nat = Some c ∧
       patchPixel [0; 0; 255; 255; 0; 0; 0; 0] 0
       = rgba (remapColor [redToBlue] c) 255.
Proof.
  split.
  - apply (remap_pixel_color [holeFrame] [redToBlue]
      [mkFrame (mkDims 2 1 0 0) 100 0 [0; 0; 255; 255; 0; 0; 0; 0]
         [0; 5]%nat (Some 5%nat) [(0, 0, 255)]]
      0 holeFrame
      (mkFrame (mkDims 2 1 0 0) 100 0 [0; 0; 255; 255; 0; 0; 0; 0]
         [0; 5]%nat (Some 5%nat) [(0, 0, 255)]) 1 5);
      [done|vm_compute; reflexivity|reflexivity|reflexivity|reflexivity].
  - apply (remap_pixel_color [holeFrame] [redToBlue]
      [mkFrame (mkDims 2 1 0 0) 100 0 [0; 0; 255; 255; 0; 0; 0; 0]
         [0; 5]%nat (Some 5%nat) [(0, 0, 255)]]
      0 holeFrame
      (mkFrame (mkDims 2 1 0 0) 100 0 [0; 0; 255; 255; 0; 0; 0; 0]
         [0; 5]%nat (Some 5%nat) [(0, 0, 255)]) 0 0);
      [done|vm_compute; reflexivity|reflexivity|reflexivity|reflexivity].
Defined.

Lemma remapColor_unrelated mappings c :
  colorKeyOf c ∉ mappingKeys mappings → remapColor mappings c = c.
Proof.
  intros Hno. unfold remapColor, findMapping.
  by rewrite (proj2 (find_key_None mappings (colorKeyOf c)) Hno).
Qed.

Lemma remapFrame_identity_on mappings frame :
  wellFormedFrame frame →
  (∀ c, c ∈ visibleColors frame → remapColor mappings c = c) →
  remapFrame mappings frame = Ok frame.
Proof.
  intros [Hv Hpatch] Hid.
  destruct (remapFrame_total mappings frame Hv) as [f1 H1]. rewrite H1.
  pose proof (remapFrame_colorTable _ _ _ H1) as Hs1.
  apply remapFrame_Ok in H1 as (t1 & _ & ->). simpl in *.
  assert (t1 = colorTable frame) as ->.
  { apply list_eq. intros idx. rewrite Hs1. unfold slotAfter.
    case_bool_decide as Hidx; [|done]. destruct Hidx as [Hin Ht].
    destruct (colorTable frame !! idx) as [c|] eqn:Hc; simpl; [|done].
    rewrite Hid; [done|].
    apply list_elem_of_lookup_1 in Hin as [i Hi].
    by eapply visibleColors_elem. }
  rewrite <-Hpatch. by destruct frame.
Qed.

(** Mappings whose [originalColor] is the key of no visible pixel change
    nothing: on frames as the decoder builds them, [remapFramesColors]
    returns the frames it was given. *)
Theorem remap_unrelated_mappings (originalFrames : list GifFrame)
    (mappings : list ColorMapping) :
  Forall wellFormedFrame originalFrames →
  (∀ mapping, mapping ∈ mappings →
              originalColor mapping ∉ visibleKeys originalFrames) →
  remapFramesColors originalFrames mappings = Ok originalFrames.
Proof.
  intros Hwf Hun. unfold remapFramesColors. case_bool_decide; [done|].
  apply arrayMapM_id. apply Forall_forall. intros frame Hin.
  apply remapFrame_identity_on.
  { rewrite Forall_forall in Hwf. by apply Hwf. }
  intros c Hc. apply remapColor_unrelated.
  intros (mapping & Hkey & Hm)%list_elem_of_fmap.
  apply (Hun mapping Hm). rewrite <-Hkey.
  unfold visibleKeys. apply list_elem_of_fmap. exists c. split; [done|].
  apply list_elem_of_bind. by exists frame.
Qed.

Lemma remap_unrelated_mappings_witness :
  remapFramesColors [transparentFrame] [redToBlue] = Ok [transparentFrame].
Proof.
  apply remap_unrelated_mappings.
  - apply (bool_decide_unpack (Forall wellFormedFrame _)). vm_compute. exact I.
  - intros mapping ->%list_elem_of_singleton.
    apply (bool_decide_unpack (_ ∉ _)). vm_compute. exact I.
Defined.

(** ** The handlers together *)

Lemma passedThrough_refl frame : passedThrough frame frame.
Proof. by repeat split. Qed.

Lemma Forall2_passedThrough_refl gifFrames :
  Forall2 passedThrough gifFrames gifFrames.
Proof. apply Forall2_same_length_lookup_2; [done|]. intros i x y Hx Hy.
  rewrite Hx in Hy. injection Hy as <-. apply passedThrough_refl. Qed.

Lemma remapFramesColors_passedThrough gifFrames mappings out :
  remapFramesColors gifFrames mappings = Ok out →
  Forall2 passedThrough gifFrames out.
Proof.
  unfold remapFramesColors. case_bool_decide.
  - intros [= <-]. apply Forall2_passedThrough_refl.
  - intros Hout%arrayMapM_Ok. eapply Forall2_impl; [exact Hout|].
    intros f f' Hf. by apply remapFrame_fields in Hf as [? _].
Qed.

Lemma applyMappings_frames updatedMappings st :
  frames (after (applyMappings updatedMappings st)) = frames st.
Proof.
  unfold applyMappings. destruct (0 <? length (frames st))%nat; [|done].
  by destruct (remapFramesColors _ _).
Qed.

Lemma applyMappings_selected updatedMappings st :
  selectedColor (after (applyMappings updatedMappings st)) = selectedColor st.
Proof.
  unfold applyMappings. destruct (0 <? length (frames st))%nat; [|done].
  by destruct (remapFramesColors _ _).
Qed.

Lemma applyMappings_passedThrough updatedMappings st :
  Forall2 passedThrough (frames st) (remappedFrames st) →
  Forall2 passedThrough (frames (after (applyMappings updatedMappings st)))
    (remappedFrames (after (applyMappings updatedMappings st))).
Proof.
  intros Hinv. unfold applyMappings.
  destruct (0 <? length (frames st))%nat; [|done].
  destruct (remapFramesColors _ _) as [out|e] eqn:Hout; [|done].
  simpl. by eapply remapFramesColors_passedThrough.
Qed.

Lemma step_passedThrough st ev :
  Forall2 passedThrough (frames st) (remappedFrames st) →
  Forall2 passedThrough (frames (step st ev)) (remappedFrames (step st ev)).
Proof.
  intros Hinv. destruct ev as [decoded|colorInfo|newColor'|key|]; simpl.
  - unfold parseGifFile. destruct decoded as [parsed|]; [|done].
    destruct (extractColorPalette parsed); simpl;
      rewrite map_copyFrame; apply Forall2_passedThrough_refl.
  - unfold handleColorSelect. by destruct (find _ _).
  - unfold updateColorMapping. destruct (selectedColor st); [|done].
    destruct (validateHexColor newColor'); [|done].
    by apply applyMappings_passedThrough.
  - unfold removeColorMapping. apply applyMappings_passedThrough.
    destruct (selectedColor st); [|done]. by case_bool_decide.
  - rewrite map_copyFrame. apply Forall2_passedThrough_refl.
Qed.

(** Whatever the events, the derived frames stand one for one beside the
    loaded frames, each with the [dims], [delay], [disposalType], [pixels] and
    [transparentIndex] of its original: only colour tables and patches ever
    differ.  In particular both lists always have the same length. *)
Theorem derived_frames_mirror_frames (evs : list event) :
  Forall2 passedThrough (frames (run initialState evs))
    (remappedFrames (run initialState evs)) ∧
  length (remappedFrames (run initialState evs))
  = length (frames (run initialState evs)).
Proof.
  assert (H : ∀ st, Forall2 passedThrough (frames st) (remappedFrames st) →
                    Forall2 passedThrough (frames (run st evs))
                      (remappedFrames (run st evs))).
  { induction evs as [|ev evs IH]; intros st Hinv; [done|].
    simpl. apply IH. by apply step_passedThrough. }
  assert (H0 : Forall2 passedThrough (frames (run initialState evs))
                 (remappedFrames (run initialState evs))).
  { apply H. constructor. }
  split; [done|]. symmetry. by eapply Forall2_length.
Qed.

Lemma handleColorSelect_selected st colorInfo :
  selectedColor (handleColorSelect st colorInfo) = Some colorInfo.
Proof. unfold handleColorSelect. by destruct (find _ _). Qed.

Lemma handleColorSelect_frames st colorInfo :
  frames (handleColorSelect st colorInfo) = frames st.
Proof. unfold handleColorSelect. by destruct (find _ _). Qed.

Lemma updateColorMapping_frames st newColor' :
  frames (after (updateColorMapping st newColor')) = frames st.
Proof.
  unfold updateColorMapping. destruct (selectedColor st); [|done].
  destruct (validateHexColor newColor'); [|done].
  by rewrite applyMappings_frames.
Qed.

Lemma updateColorMapping_mappings st selected newColor' :
  selectedColor st = Some selected →
  colorMappings (after (updateColorMapping st newColor'))
  = match validateHexColor newColor' with
    | Some validated => retarget (color selected) validated <$> colorMappings st
    | None => colorMappings st
    end.
Proof.
  intros Hsel. unfold updateColorMapping. rewrite Hsel.
  destruct (validateHexColor newColor'); [|done].
  by rewrite applyMappings_mappings.
Qed.

Lemma filter_retarget key validated (mappings : list ColorMapping) :
  filter (λ mapping, originalColor mapping ≠ key)
    (retarget key validated <$> mappings)
  = filter (λ mapping, originalColor mapping ≠ key) mappings.
Proof.
  induction mappings as [|m ms IH]; [done|].
  rewrite fmap_cons, !filter_cons, IH. unfold retarget.
  case_bool_decide as Hk; simpl.
  - by rewrite !decide_False by (by intros H; apply H).
  - by rewrite !decide_True by done.
Qed.

Lemma filter_unrelated key (mappings : list ColorMapping) :
  key ∉ mappingKeys mappings →
  filter (λ mapping, originalColor mapping ≠ key) mappings = mappings.
Proof.
  intros Hno. induction mappings as [|m ms IH]; [done|].
  unfold mappingKeys in Hno. rewrite fmap_cons, not_elem_of_cons in Hno.
  destruct Hno as [Hne Hno].
  rewrite filter_cons, decide_True by done. by rewrite IH.
Qed.

Lemma removeColorMapping_remappedFrames st key out :
  remapFramesColors (frames st)
    (filter (λ mapping, originalColor mapping ≠ key) (colorMappings st))
  = Ok out →
  frames st ≠ [] →
  remappedFrames (after (removeColorMapping st key)) = out.
Proof.
  intros Hout Hne. unfold removeColorMapping, applyMappings.
  assert (Hlen : ∀ st', frames st' = frames st →
                        (0 <? length (frames st'))%nat = true).
  { intros st' ->. apply Nat.ltb_lt. destruct (frames st); [done|simpl; lia]. }
  destruct (selectedColor st) as [sel|]; [case_bool_decide|];
    rewrite Hlen by done; simpl; by rewrite Hout.
Qed.

Lemma removeColorMapping_selected st key selected :
  selectedColor st = Some selected → color selected = key →
  selectedColor (after (removeColorMapping st key)) = None.
Proof.
  intros Hsel Hkey. unfold removeColorMapping.
  rewrite applyMappings_selected, Hsel. by rewrite bool_decide_eq_true_2.
Qed.

Lemma noFrames_remappedFrames st ev :
  frames st = [] → (∀ decoded, ev ≠ Load decoded) → ev ≠ Reset →
  remappedFrames (step st ev) = remappedFrames st.
Proof.
  intros Hnil Hload Hreset.
  destruct ev as [decoded|colorInfo|newColor'|key|]; simpl.
  - by destruct (Hload decoded).
  - apply handleColorSelect_remappedFrames.
  - unfold updateColorMapping. destruct (selectedColor st); [|done].
    destruct (validateHexColor newColor'); [|done].
    unfold applyMappings. simpl. by rewrite Hnil.
  - unfold removeColorMapping, applyMappings.
    destruct (selectedColor st); [case_bool_decide|]; simpl; by rewrite Hnil.
  - done.
Qed.

(** Selecting a colour that has no entry yet, typing anything into its
    picker and then removing its entry brings the table and the derived
    frames back to what they were, with no colour selected; this holds also
    when the text typed is no hex colour or when the update throws. *)
Theorem select_update_remove_round_trip (st : AppState)
    (colorInfo : ColorCount) (newColor' : string) :
  consistent st →
  color colorInfo ∉ mappingKeys (colorMappings st) →
  colorMappings
    (run st [Select colorInfo; Update newColor'; Remove (color colorInfo)])
  = colorMappings st ∧
  remappedFrames
    (run st [Select colorInfo; Update newColor'; Remove (color colorInfo)])
  = remappedFrames st ∧
  selectedColor
    (run st [Select colorInfo; Update newColor'; Remove (color colorInfo)])
  = None.
Proof.
  intros Hcons Hfresh. unfold run. simpl.
  set (st1 := handleColorSelect st colorInfo).
  set (st2 := after (updateColorMapping st1 newColor')).
  assert (Hsel1 : selectedColor st1 = Some colorInfo)
    by apply handleColorSelect_selected.
  assert (Hm1 : colorMappings st1 = colorMappings st ++ [selfMapping colorInfo]).
  { unfold st1. rewrite handleColorSelect_mappings.
    by rewrite bool_decide_eq_false_2. }
  assert (Hf2 : frames st2 = frames st).
  { unfold st2. rewrite updateColorMapping_frames.
    apply handleColorSelect_frames. }
  assert (Hm2 : filter (λ mapping, originalColor mapping ≠ color colorInfo)
                  (colorMappings st2) = colorMappings st).
  { unfold st2. rewrite (updateColorMapping_mappings _ _ _ Hsel1).
    destruct (validateHexColor newColor'); [rewrite filter_retarget|];
      rewrite Hm1, filter_app, filter_unrelated by done;
      rewrite filter_cons, decide_False by (by intros H; apply H);
      by rewrite app_nil_r. }
  assert (Hsel2 : selectedColor st2 = Some colorInfo).
  { unfold st2, updateColorMapping. rewrite Hsel1.
    destruct (validateHexColor newColor'); [|done].
    by rewrite applyMappings_selected. }
  split; [|split].
  - by rewrite removeColorMapping_mappings.
  - destruct (decide (frames st = [])) as [Hnil|Hne].
    + etrans; [apply (noFrames_remappedFrames st2 (Remove (color colorInfo)));
               by rewrite ?Hf2|].
      etrans; [apply (noFrames_remappedFrames st1 (Update newColor'));
               unfold st1; by rewrite ?handleColorSelect_frames|].
      apply handleColorSelect_remappedFrames.
    + apply removeColorMapping_remappedFrames; [|by rewrite Hf2].
      by rewrite Hm2, Hf2.
  - by apply (removeColorMapping_selected _ _ colorInfo).
Qed.

Lemma select_update_remove_round_trip_witness :
  colorMappings
    (run (parseGifFile initialState (Some [transparentFrame]))
       [Select greenEntry; Update "#ff0000"; Remove (color greenEntry)])
  = colorMappings (parseGifFile initialState (Some [transparentFrame])) ∧
  remappedFrames
    (run (parseGifFile initialState (Some [transparentFrame]))
       [Select greenEntry; Update "#ff0000"; Remove (color greenEntry)])
  = remappedFrames (parseGifFile initialState (Some [transparentFrame])) ∧
  selectedColor
    (run (parseGifFile initialState (Some [transparentFrame]))
       [Select greenEntry; Update "#ff0000"; Remove (color greenEntry)])
  = None.
Proof.
  apply (select_update_remove_round_trip
           (parseGifFile initialState (Some [transparentFrame]))
           greenEntry "#ff0000").
  - vm_compute. reflexivity.
  - apply (bool_decide_unpack (_ ∉ _)). vm_compute. exact I.
Defined.

Lemma remapFramesColors_nil gifFrames :
  remapFramesColors gifFrames [] = Ok gifFrames.
Proof. done. Qed.

Lemma update_empty_table st newColor' :
  colorMappings st = [] → remappedFrames st = frames st →
  colorMappings (after (updateColorMapping st newColor')) = [] ∧
  remappedFrames (after (updateColorMapping st newColor'))
  = frames (after (updateColorMapping st newColor')) ∧
  frames (after (updateColorMapping st newColor')) = frames st ∧
  selectedColor (after (updateColorMapping st newColor')) = selectedColor st.
Proof.
  intros Hm Hr. unfold updateColorMapping.
  destruct (selectedColor st) as [sel|] eqn:Hsel; [|done].
  destruct (validateHexColor newColor'); [|done].
  rewrite Hm. simpl. unfold applyMappings. simpl.
  destruct (0 <? length (frames st))%nat; by rewrite ?remapFramesColors_nil.
Qed.

(** "Reset All" empties the table but keeps the colour selected, so the
    picker stays open; whatever is typed into it afterwards is recorded
    nowhere: the table stays empty and the derived frames stay the loaded
    frames, until a colour is selected again. *)
Theorem updates_after_reset_are_lost (st : AppState) (typed : list string) :
  colorMappings (run st (Reset :: (Update <$> typed))) = [] ∧
  remappedFrames (run st (Reset :: (Update <$> typed))) = frames st ∧
  frames (run st (Reset :: (Update <$> typed))) = frames st ∧
  selectedColor (run st (Reset :: (Update <$> typed))) = selectedColor st.
Proof.
  unfold run. simpl.
  assert (H : ∀ st0, colorMappings st0 = [] → remappedFrames st0 = frames st0 →
            colorMappings (foldl step st0 (Update <$> typed)) = [] ∧
            remappedFrames (foldl step st0 (Update <$> typed)) = frames st0 ∧
            frames (foldl step st0 (Update <$> typed)) = frames st0 ∧
            selectedColor (foldl step st0 (Update <$> typed))
            = selectedColor st0).
  { induction typed as [|newColor' typed IH]; intros st0 Hm Hr; [done|].
    rewrite fmap_cons. simpl.
    destruct (update_empty_table st0 newColor' Hm Hr) as (Hm' & Hr' & Hf' & Hs').
    destruct (IH _ Hm' Hr') as (? & ? & ? & ?).
    repeat split; congruence. }
  destruct (H (resetAll st)) as (? & ? & ? & ?); [done|apply map_copyFrame|].
  by repeat split.
Qed.

Lemma retarget_originalColor key validated mapping :
  originalColor (retarget key validated mapping) = originalColor mapping.
Proof. unfold retarget. by case_bool_decide. Qed.

Lemma retarget_newColor key validated mapping :
  originalColor mapping = key →
  newColor (retarget key validated mapping) = validated.
Proof. intros Hk. unfold retarget. by rewrite bool_decide_eq_true_2. Qed.

Lemma find_retarget key validated (mappings : list ColorMapping) :
  key ∈ mappingKeys mappings →
  ∃ mapping,
    find (λ m, bool_decide (originalColor m = key))
      (retarget key validated <$> mappings) = Some mapping ∧
    newColor mapping = validated.
Proof.
  induction mappings as [|m ms IH]; intros Hin.
  { by apply elem_of_nil in Hin. }
  rewrite fmap_cons. cbn [find]. rewrite retarget_originalColor.
  case_bool_decide as Hk.
  - eexists. split; [done|]. by apply retarget_newColor.
  - apply IH. unfold mappingKeys in Hin.
    rewrite fmap_cons, elem_of_cons in Hin.
    destruct Hin as [Heq|Hin]; [by destruct Hk|done].
Qed.

Lemma isRemapped_retarget colorInfo validated (mappings : list ColorMapping) :
  color colorInfo ∈ mappingKeys mappings →
  validated ≠ color colorInfo →
  isRemapped (retarget (color colorInfo) validated <$> mappings) colorInfo
  = true.
Proof.
  intros Hin Hne. unfold isRemapped. apply existsb_exists.
  apply list_elem_of_fmap in Hin as (m & Hkey & Hm).
  exists (retarget (color colorInfo) validated m). split.
  - apply list_elem_of_In, list_elem_of_fmap. by exists m.
  - rewrite retarget_originalColor, retarget_newColor by done.
    rewrite bool_decide_eq_true_2 by done.
    by rewrite bool_decide_eq_false_2.
Qed.

Lemma normalizedHex_not_key digits c : normalizedHex digits ≠ colorKeyOf c.
Proof. destruct c as [[r g] b]. unfold normalizedHex, colorKeyOf. done. Qed.

(** A palette entry that has no mapping yet shows, once selected, its own
    colour in the picker and no remapped marker; after a valid hex colour is
    typed, the picker shows the form [validateHexColor] gave it and the entry
    carries the marker. *)
Theorem picker_follows_update (st : AppState) (selected : ColorCount)
    (newColor' validated : string) :
  keyedEntry selected →
  color selected ∉ mappingKeys (colorMappings st) →
  validateHexColor newColor' = Some validated →
  (pickerValue (colorMappings (run st [Select selected])) selected
   = color selected ∧
   isRemapped (colorMappings (run st [Select selected])) selected = false) ∧
  (pickerValue (colorMappings (run st [Select selected; Update newColor']))
     selected = validated ∧
   isRemapped (colorMappings (run st [Select selected; Update newColor']))
     selected = true).
Proof.
  intros Hkeyed Hfresh Hvalid. unfold run. simpl.
  destruct (validateHexColor_Some _ _ Hvalid) as (digits & _ & ->).
  assert (Hm1 : colorMappings (handleColorSelect st selected)
                = colorMappings st ++ [selfMapping selected]).
  { rewrite handleColorSelect_mappings. by rewrite bool_decide_eq_false_2. }
  split.
  - rewrite Hm1. split.
    + unfold pickerValue.
      fold (findMapping (colorMappings st ++ [selfMapping selected])
              (color selected)).
      rewrite findMapping_app. unfold findMapping.
      rewrite (proj2 (find_key_None _ _) Hfresh). simpl.
      rewrite (bool_decide_eq_true_2 (color selected = color selected))
        by done.
      simpl. by case_bool_decide.
    + unfold isRemapped. rewrite existsb_app. apply orb_false_iff. split.
      * apply not_true_iff_false. intros (m & Hm & Hb)%existsb_exists.
        apply andb_true_iff in Hb as [Hk%bool_decide_eq_true _].
        apply Hfresh. apply list_elem_of_fmap. exists m.
        split; [done|]. by apply list_elem_of_In.
      * simpl. rewrite (bool_decide_eq_true_2 (color selected = color selected))
          by done.
        done.
  - rewrite (updateColorMapping_mappings _ selected)
      by apply handleColorSelect_selected.
    rewrite Hvalid.
    assert (Hin : color selected
                  ∈ mappingKeys (colorMappings (handleColorSelect st selected))).
    { rewrite Hm1. unfold mappingKeys. rewrite fmap_app, elem_of_app.
      right. simpl. left. }
    split.
    + unfold pickerValue.
      destruct (find_retarget _ (normalizedHex digits) _ Hin)
        as (m & -> & ->).
      by rewrite bool_decide_eq_false_2.
    + apply isRemapped_retarget; [done|]. rewrite Hkeyed.
      apply normalizedHex_not_key.
Qed.

Lemma picker_follows_update_witness :
  (pickerValue
     (colorMappings
        (run (parseGifFile initialState (Some [transparentFrame]))
           [Select greenEntry])) greenEntry = "rgb(0,255,0)" ∧
   isRemapped
     (colorMappings
        (run (parseGifFile initialState (Some [transparentFrame]))
           [Select greenEntry])) greenEntry = false) ∧
  (pickerValue
     (colorMappings
        (run (parseGifFile initialState (Some [transparentFrame]))
           [Select greenEntry; Update "0fA"])) greenEntry = "#00ffAA" ∧
   isRemapped
     (colorMappings
        (run (parseGifFile initialState (Some [transparentFrame]))
           [Select greenEntry; Update "0fA"])) greenEntry = true).
Proof.
  apply (picker_follows_update
           (parseGifFile initialState (Some [transparentFrame]))
           greenEntry "0fA" "#00ffAA").
  - reflexivity.
  - apply (bool_decide_unpack (_ ∉ _)). vm_compute. exact I.
  - reflexivity.
Defined.

(** ** Loading a file *)

(** A GIF that decodes but has a pixel, not transparent, without a
    colour-table entry is reported as one that failed to parse; yet its frames
    are installed as loaded and as derived frames, the table and the selection
    are cleared, the palette shown stays the one of the previous file, and the
    animation is not started. *)
Theorem load_with_stray_index (st : AppState) (p : Player) (file : File)
    (rest : list File) (parsedFrames : list GifFrame) :
  fileType file = "image/gif" →
  fileDecoded file = Some parsedFrames →
  ¬ Forall validPixels parsedFrames →
  frames (handleFileChange st (file :: rest)) = parsedFrames ∧
  remappedFrames (handleFileChange st (file :: rest)) = parsedFrames ∧
  colorMappings (handleFileChange st (file :: rest)) = [] ∧
  selectedColor (handleFileChange st (file :: rest)) = None ∧
  colorPalette (handleFileChange st (file :: rest)) = colorPalette st ∧
  error (handleFileChange st (file :: rest))
  = Some "Failed to parse GIF file" ∧
  playerLoad p (fileDecoded file) = mkPlayer parsedFrames 0 (isPlaying p).
Proof.
  intros Htype Hdec Hno. unfold handleFileChange, playerLoad, parseGifFile.
  rewrite Htype, Hdec, bool_decide_eq_true_2 by done.
  rewrite (extractColorPalette_invalid _ Hno). simpl.
  by rewrite map_copyFrame.
Qed.

Lemma load_with_stray_index_witness :
  frames (handleFileChange selectedRed
            [mkFile "image/gif" (Some [strayFrame])]) = [strayFrame] ∧
  remappedFrames (handleFileChange selectedRed
                    [mkFile "image/gif" (Some [strayFrame])]) = [strayFrame] ∧
  colorMappings (handleFileChange selectedRed
                   [mkFile "image/gif" (Some [strayFrame])]) = [] ∧
  selectedColor (handleFileChange selectedRed
                   [mkFile "image/gif" (Some [strayFrame])]) = None ∧
  colorPalette (handleFileChange selectedRed
                  [mkFile "image/gif" (Some [strayFrame])])
  = colorPalette selectedRed ∧
  error (handleFileChange selectedRed
           [mkFile "image/gif" (Some [strayFrame])])
  = Some "Failed to parse GIF file" ∧
  playerLoad initialPlayer (fileDecoded (mkFile "image/gif" (Some [strayFrame])))
  = mkPlayer [strayFrame] 0 false.
Proof.
  apply (load_with_stray_index selectedRed initialPlayer
           (mkFile "image/gif" (Some [strayFrame])) [] [strayFrame]).
  - reflexivity.
  - reflexivity.
  - apply (bool_decide_unpack (¬ Forall validPixels _)). vm_compute. exact I.
Defined.

(** ** The canvas size *)

Lemma canvasSize_from (gifFrames : list GifFrame) :
  ∀ w0 h0,
    let size :=
      foldl (λ size frame,
               (Z.max size.1 (left (dims frame) + width (dims frame)),
                Z.max size.2 (top (dims frame) + height (dims frame))))
            (w0, h0) gifFrames in
    (w0 ≤ size.1 ∧ h0 ≤ size.2) ∧
    (∀ frame, frame ∈ gifFrames →
       left (dims frame) + width (dims frame) ≤ size.1 ∧
       top (dims frame) + height (dims frame) ≤ size.2) ∧
    (size.1 = w0 ∨
     ∃ frame, frame ∈ gifFrames ∧
              size.1 = left (dims frame) + width (dims frame)) ∧
    (size.2 = h0 ∨
     ∃ frame, frame ∈ gifFrames ∧
              size.2 = top (dims frame) + height (dims frame)).
Proof.
  induction gifFrames as [|f fs IH]; intros w0 h0.
  { simpl. split; [lia|].
    split; [intros frame Hin; by apply elem_of_nil in Hin|].
    split; by left. }
  cbn [foldl fst snd].
  specialize (IH (Z.max w0 (left (dims f) + width (dims f)))
                (Z.max h0 (top (dims f) + height (dims f)))).
  cbv zeta in *. destruct IH as ((Hw & Hh) & Hfit & Hwa & Hha).
  split; [lia|split; [|split]].
  - intros frame [->|Hin]%elem_of_cons; [lia|by apply Hfit].
  - destruct Hwa as [Hwa|(frame & Hin & Hwa)].
    + destruct (Z.max_spec w0 (left (dims f) + width (dims f)))
        as [[_ Hm]|[_ Hm]].
      * right. exists f. split; [left|lia].
      * left. lia.
    + right. exists frame. split; [by right|done].
  - destruct Hha as [Hha|(frame & Hin & Hha)].
    + destruct (Z.max_spec h0 (top (dims f) + height (dims f)))
        as [[_ Hm]|[_ Hm]].
      * right. exists f. split; [left|lia].
      * left. lia.
    + right. exists frame. split; [by right|done].
Qed.

(** The canvas is large enough for every frame placed at its offset, is
    never of negative size, and is no larger than needed: each side is 0 or
    the extent of some frame. *)
Theorem canvasSize_fits (gifFrames : list GifFrame) :
  (0 ≤ (canvasSize gifFrames).1 ∧ 0 ≤ (canvasSize gifFrames).2) ∧
  (∀ frame, frame ∈ gifFrames →
     left (dims frame) + width (dims frame) ≤ (canvasSize gifFrames).1 ∧
     top (dims frame) + height (dims frame) ≤ (canvasSize gifFrames).2) ∧
  ((canvasSize gifFrames).1 = 0 ∨
   ∃ frame, frame ∈ gifFrames ∧
            (canvasSize gifFrames).1
            = left (dims frame) + width (dims frame)) ∧
  ((canvasSize gifFrames).2 = 0 ∨
   ∃ frame, frame ∈ gifFrames ∧
            (canvasSize gifFrames).2
            = top (dims frame) + height (dims frame)).
Proof. apply (canvasSize_from gifFrames 0 0). Qed.

(** ** The frame shown *)

Lemma animate_Ok p due :
  indexInRange p → ∃ p', animate p due = Ok p'.
Proof.
  intros Hin. unfold animate.
  destruct ((length (shownFrames p) =? 0)%nat || negb (isPlaying p)) eqn:Hg;
    [by eexists|].
  apply orb_false_iff in Hg as [Hlen%Nat.eqb_neq _].
  destruct Hin as [Hnil|Hlt]; [by rewrite Hnil in Hlen|].
  destruct (lookup_lt_is_Some_2 _ _ Hlt) as [currentFrame ->].
  destruct due; by eexists.
Qed.

Lemma playerStep_indexInRange p ev :
  indexInRange p → offered p ev → indexInRange (playerStep p ev).
Proof.
  intros Hin Hoff. destruct ev as [decoded|due|index|]; simpl.
  - unfold playerLoad. destruct decoded as [parsed|]; [|done].
    assert (Hzero : ∀ playing, indexInRange (mkPlayer parsed 0 playing)).
    { intros playing. unfold indexInRange. simpl.
      destruct parsed; [by left|right; simpl; lia]. }
    destruct (extractColorPalette parsed); [|done].
    by destruct (0 <? length parsed)%nat.
  - unfold animate.
    destruct ((length (shownFrames p) =? 0)%nat || negb (isPlaying p)) eqn:Hg;
      [done|].
    apply orb_false_iff in Hg as [Hlen%Nat.eqb_neq _].
    destruct (shownFrames p !! currentFrameIndex p); [|done].
    destruct due; [|done]. right. simpl. by apply Nat.mod_upper_bound.
  - by right.
  - done.
Qed.

(** From the first render on, whatever files are loaded, frames clicked and
    animation callbacks run, [frames[currentFrameIndex]] is a frame whenever
    there are frames, so the animation callback never reads the delay of
    [undefined]. *)
Theorem frame_index_in_range (evs : list playerEvent) :
  offeredAll initialPlayer evs →
  indexInRange (playerRun initialPlayer evs) ∧
  ∀ due, ∃ p', animate (playerRun initialPlayer evs) due = Ok p'.
Proof.
  assert (H : ∀ p, indexInRange p → offeredAll p evs →
                   indexInRange (playerRun p evs)).
  { induction evs as [|ev evs IH]; intros p Hin Hoff; [done|].
    destruct Hoff as [Hev Hoff]. simpl. apply IH; [|done].
    by apply playerStep_indexInRange. }
  intros Hoff. assert (Hin : indexInRange (playerRun initialPlayer evs)).
  { apply H; [by left|done]. }
  split; [done|]. intros due. by apply animate_Ok.
Qed.

Lemma frame_index_in_range_witness :
  indexInRange
    (playerRun initialPlayer
       [PLoad (Some [transparentFrame; holeFrame]); PClick 1; PAnimate true;
        PToggle; PLoad (Some [strayFrame]); PAnimate true]) ∧
  ∀ due, ∃ p',
    animate
      (playerRun initialPlayer
         [PLoad (Some [transparentFrame; holeFrame]); PClick 1; PAnimate true;
          PToggle; PLoad (Some [strayFrame]); PAnimate true]) due = Ok p'.
Proof.
  apply frame_index_in_range. vm_compute. repeat split; lia.
Defined.

(** While the animation plays, [k] elapsed delays move the frame shown [k]
    places forward around the cycle of frames: each frame is shown once per
    round and after as many delays as there are frames the same frame is
    shown again. *)
Theorem playFor_cycles (p : Player) (k : nat) :
  isPlaying p = true →
  (currentFrameIndex p < length (shownFrames p))%nat →
  currentFrameIndex (playFor k p)
  = ((currentFrameIndex p + k) mod length (shownFrames p))%nat ∧
  currentFrameIndex (playFor (length (shownFrames p)) p)
  = currentFrameIndex p.
Proof.
  intros Hplay Hlt.
  assert (H : ∀ k, shownFrames (playFor k p) = shownFrames p ∧
                   isPlaying (playFor k p) = true ∧
                   currentFrameIndex (playFor k p)
                   = ((currentFrameIndex p + k) mod length (shownFrames p))%nat).
  { clear k. induction k as [|k (Hf & Hp & Hi)].
    - simpl. split; [done|split; [done|]].
      rewrite Nat.add_0_r. symmetry. by apply Nat.mod_small.
    - unfold playFor in *. rewrite Nat.iter_succ.
      set (q := Nat.iter k _ p) in *.
      assert (Hq : (currentFrameIndex q < length (shownFrames q))%nat).
      { rewrite Hi, Hf. apply Nat.mod_upper_bound. lia. }
      cbn [playerStep]. unfold animate. rewrite Hp.
      rewrite (proj2 (Nat.eqb_neq _ _)) by lia. cbn [orb negb].
      destruct (lookup_lt_is_Some_2 _ _ Hq) as [f ->].
      cbn [shownFrames isPlaying currentFrameIndex].
      split; [done|split; [done|]]. rewrite Hi, Hf.
      rewrite Nat.Div0.add_mod_idemp_l. f_equal. lia. }
  split; [apply H|].
  destruct (H (length (shownFrames p))) as (_ & _ & ->).
  rewrite <-(Nat.mul_1_l (length (shownFrames p))) at 1.
  rewrite Nat.Div0.mod_add. by apply Nat.mod_small.
Qed.

Lemma playFor_cycles_witness :
  currentFrameIndex
    (playFor 5 (mkPlayer [transparentFrame; holeFrame; strayFrame] 2 true))
  = ((2 + 5) mod 3)%nat ∧
  currentFrameIndex
    (playFor 3 (mkPlayer [transparentFrame; holeFrame; strayFrame] 2 true))
  = 2%nat.
Proof.
  apply (playFor_cycles
           (mkPlayer [transparentFrame; holeFrame; strayFrame] 2 true) 5).
  - reflexivity.
  - simpl. lia.
Defined.
